(** * Observability core of gRPC: t-digest, connectivity tracker, config loader

    A shallow embedding of
      - src/core/config/load_config.cc            (Module LoadConfig)
      - src/core/lib/transport/connectivity_state.cc (Module Connectivity)
      - src/core/util/tdigest.cc                   (Module TDigestModel)
    followed by the properties of the specification that were settled on
    it (Modules LoadConfigProperties, ConnectivityProperties and
    TDigestProperties).

    Conventions.
      - C++ objects are records; a method is a function from the object
        (and its arguments) to the new object (and its result).
      - [int64_t] values are integers of [Z]; signed overflow is undefined
        behaviour in C++ and lies outside the model: a statement about
        sums of counts assumes that they fit ([counts_fit],
        [counters_in_range]).
      - a method is modelled on objects that are not aliased, and the
        capacity of a [std::vector] is not part of an object
        ([MemUsageBytes] is not modelled).
      - [double] is an interface ([FloatOps]) with two instances: IEEE-754
        binary64 ([binary64], on the Standard Library's [spec_float]) and
        exact rational arithmetic ([exact], on [Q]).
      - element accesses of a [std::vector] are partial: reading past
        [size()] is the result [OutOfBounds].
      - what tdigest.cc calls and the repository does not define under
        src/ is a parameter: the C library ([Libm]), Abseil's parsers and
        formatting ([AbslNumbers], [AbslFormat]) and the order of the
        counts in [CentroidPod::operator<] ([CentroidOrder]). *)

From Stdlib Require Import ZArith QArith Qround Lqa Lia List String Ascii.
From Stdlib Require Import Floats.SpecFloat Floats.PrimFloat Floats.FloatOps.
From Stdlib Require Import Sorting.Sorted.
From stdpp Require Import base option list gmap sets strings pretty.

#[local] Set Warnings "-inexact-float".
#[local] Open Scope Z_scope.

(** ** absl::Status *)

Module Absl.

Inductive Status : Type :=
| OkStatus
| InvalidArgumentError (message : string).

Definition ok (s : Status) : bool :=
  match s with OkStatus => true | InvalidArgumentError _ => false end.

End Absl.

(** ** src/core/config/load_config.cc *)

Module LoadConfig.

(** The process environment, as [GetEnv] reads it. *)
Abbreviation Environment := (gmap string string).

(** [ABSL_CHECK] aborts the process when its condition is false. *)
Inductive checked (A : Type) : Type :=
| Returns (a : A)
| CheckFailure.
Arguments Returns {A} a.
Arguments CheckFailure {A}.

Section Loaders.

(** [absl::SimpleAtoi] into an [int32_t]: a library function, not part of
    the repository. *)
Variable SimpleAtoi32 : string -> option Z.

Definition LoadEnv (env : Environment) (environment_variable : string)
  : option string :=
  env !! environment_variable.

(** The overload of [LoadConfigFromEnv] returning [std::string]. *)
Definition LoadConfigFromEnv_string (env : Environment)
    (environment_variable : string) (default_value : string)
  : checked string :=
  if String.eqb environment_variable EmptyString then CheckFailure
  else Returns (default default_value (LoadEnv env environment_variable)).

(** The overload of [LoadConfigFromEnv] returning [int32_t].  The message
    written to stderr on a malformed value is not modelled. *)
Definition LoadConfigFromEnv_int32 (env : Environment)
    (environment_variable : string) (default_value : Z) : Z :=
  match LoadEnv env environment_variable with
  | Some v =>
      match SimpleAtoi32 v with
      | Some out => out
      | None => default_value
      end
  | None => default_value
  end.

(** The overload of [LoadConfigFromEnv] returning [bool]. *)
Definition LoadConfigFromEnv_bool (env : Environment)
    (environment_variable : string) (default_value : bool) : bool :=
  default_value.

(** [LoadConfig]: override, then flags, then the environment. *)
Definition LoadConfig (env : Environment) (from_flag : list string)
    (environment_variable : string) (override : option string)
    (default_value : string) : checked string :=
  match override with
  | Some o => Returns o
  | None =>
      match from_flag with
      | [] => LoadConfigFromEnv_string env environment_variable default_value
      | _ => Returns (String.concat "," from_flag)
      end
  end.

End Loaders.

End LoadConfig.

(** ** src/core/lib/transport/connectivity_state.cc *)

Module Connectivity.

Inductive grpc_connectivity_state : Type :=
| GRPC_CHANNEL_IDLE
| GRPC_CHANNEL_CONNECTING
| GRPC_CHANNEL_READY
| GRPC_CHANNEL_TRANSIENT_FAILURE
| GRPC_CHANNEL_SHUTDOWN.

#[export] Instance grpc_connectivity_state_eq_dec :
  EqDecision grpc_connectivity_state.
Proof. solve_decision. Defined.

Definition ConnectivityStateName (state : grpc_connectivity_state) : string :=
  match state with
  | GRPC_CHANNEL_IDLE => "IDLE"
  | GRPC_CHANNEL_CONNECTING => "CONNECTING"
  | GRPC_CHANNEL_READY => "READY"
  | GRPC_CHANNEL_TRANSIENT_FAILURE => "TRANSIENT_FAILURE"
  | GRPC_CHANNEL_SHUTDOWN => "SHUTDOWN"
  end.

(** A watcher is identified by its address: [watchers_] is a set keyed by
    the watcher pointer. *)
Abbreviation Watcher := positive.

(** A call of [watcher->Notify(state, status)].  For an asynchronous
    watcher this is the creation of its [Notifier]; for a synchronous one
    the delivery itself. *)
Record Notification : Type := Notify {
  notified : Watcher;
  notified_state : grpc_connectivity_state;
  notified_status : Absl.Status
}.

Record ConnectivityStateTracker : Type := Tracker {
  name_ : string;
  state_ : grpc_connectivity_state;
  status_ : Absl.Status;
  watchers_ : gset Watcher
}.

(** Modelled from the spec: the constructor, declared in
    connectivity_state.h (not under src/): the initial state is the one
    supplied, IDLE by default, and no watcher is attached. *)
Definition Create (name : string) (state : grpc_connectivity_state)
    (status : Absl.Status) : ConnectivityStateTracker :=
  Tracker name state status ∅.

(** Every method returns the tracker it leaves and the notifications it
    issued, oldest first.  Trace logging is not modelled. *)

Definition AddWatcher (initial_state : grpc_connectivity_state)
    (watcher : Watcher) (t : ConnectivityStateTracker)
  : ConnectivityStateTracker * list Notification :=
  let current_state := state_ t in
  let out :=
    if decide (initial_state = current_state) then []
    else [Notify watcher current_state (status_ t)] in
  (* If we're in state SHUTDOWN, don't add the watcher, so that it will
     be orphaned immediately. *)
  let t' :=
    if decide (current_state = GRPC_CHANNEL_SHUTDOWN) then t
    else Tracker (name_ t) (state_ t) (status_ t) ({[watcher]} ∪ watchers_ t) in
  (t', out).

Definition RemoveWatcher (watcher : Watcher) (t : ConnectivityStateTracker)
  : ConnectivityStateTracker * list Notification :=
  (Tracker (name_ t) (state_ t) (status_ t) (watchers_ t ∖ {[watcher]}), []).

Definition SetState (state : grpc_connectivity_state) (status : Absl.Status)
    (reason : string) (t : ConnectivityStateTracker)
  : ConnectivityStateTracker * list Notification :=
  let current_state := state_ t in
  if decide (state = current_state) then (t, [])
  else
    let out := (fun w => Notify w state status) <$> elements (watchers_ t) in
    (* If the new state is SHUTDOWN, orphan all of the watchers. *)
    let ws := if decide (state = GRPC_CHANNEL_SHUTDOWN) then ∅
              else watchers_ t in
    (Tracker (name_ t) state status ws, out).

Definition state (t : ConnectivityStateTracker) : grpc_connectivity_state :=
  state_ t.

(** The destructor: the notifications it issues. *)
Definition Destroy (t : ConnectivityStateTracker) : list Notification :=
  if decide (state_ t = GRPC_CHANNEL_SHUTDOWN) then []
  else (fun w => Notify w GRPC_CHANNEL_SHUTDOWN Absl.OkStatus)
         <$> elements (watchers_ t).

(** Histories of a tracker: the calls of its mutating methods. *)
Inductive Call : Type :=
| CallSetState (state : grpc_connectivity_state) (status : Absl.Status)
               (reason : string)
| CallAddWatcher (initial_state : grpc_connectivity_state) (watcher : Watcher)
| CallRemoveWatcher (watcher : Watcher).

Definition is_SetState (c : Call) : Prop :=
  match c with CallSetState _ _ _ => True | _ => False end.

Definition requested_state (c : Call) : option grpc_connectivity_state :=
  match c with CallSetState s _ _ => Some s | _ => None end.

Definition call (c : Call) (t : ConnectivityStateTracker)
  : ConnectivityStateTracker * list Notification :=
  match c with
  | CallSetState s st r => SetState s st r t
  | CallAddWatcher s w => AddWatcher s w t
  | CallRemoveWatcher w => RemoveWatcher w t
  end.

Fixpoint run (cs : list Call) (t : ConnectivityStateTracker)
  : ConnectivityStateTracker * list Notification :=
  match cs with
  | [] => (t, [])
  | c :: cs' =>
      let '(t1, out1) := call c t in
      let '(t2, out2) := run cs' t1 in
      (t2, out1 ++ out2)
  end.

Inductive reachable : ConnectivityStateTracker -> Prop :=
| reachable_Create name s status : reachable (Create name s status)
| reachable_call c t : reachable t -> reachable (fst (call c t)).

(** The state the last [SetState] of a history asked for. *)
Fixpoint last_requested (cs : list Call) (s : grpc_connectivity_state)
  : grpc_connectivity_state :=
  match cs with
  | [] => s
  | c :: cs' => last_requested cs' (default s (requested_state c))
  end.

(** A tracker taken to SHUTDOWN with a watcher attached. *)
Definition shut_down_tracker : ConnectivityStateTracker :=
  fst (run [CallAddWatcher GRPC_CHANNEL_IDLE 1%positive;
            CallSetState GRPC_CHANNEL_SHUTDOWN Absl.OkStatus "shutdown"]
           (Create "chan" GRPC_CHANNEL_IDLE Absl.OkStatus)).

(** *** What a watcher observes *)

(** The notifications of [out] that went to [watcher], oldest first. *)
Definition delivered_to (watcher : Watcher) (out : list Notification)
  : list (grpc_connectivity_state * Absl.Status) :=
  omap (fun n => if decide (notified n = watcher)
                 then Some (notified_state n, notified_status n)
                 else None) out.

(** The state changes a history of [SetState] calls makes from the state
    [current], each with its status, up to the first entry into SHUTDOWN. *)
Fixpoint state_changes (cs : list Call) (current : grpc_connectivity_state)
  : list (grpc_connectivity_state * Absl.Status) :=
  match cs with
  | [] => []
  | CallSetState s st _ :: cs' =>
      if decide (s = current) then state_changes cs' current
      else (s, st) :: (if decide (s = GRPC_CHANNEL_SHUTDOWN) then []
                       else state_changes cs' s)
  | _ :: cs' => state_changes cs' current
  end.

(** [c] is a call of [AddWatcher] with [watcher]. *)
Definition adds (watcher : Watcher) (c : Call) : Prop :=
  match c with CallAddWatcher _ w => w = watcher | _ => False end.

(** [c] is a call of [AddWatcher] or [RemoveWatcher] with [watcher]. *)
Definition concerns (watcher : Watcher) (c : Call) : Prop :=
  match c with
  | CallAddWatcher _ w => w = watcher
  | CallRemoveWatcher w => w = watcher
  | CallSetState _ _ _ => False
  end.

End Connectivity.

(** ** src/core/util/tdigest.cc *)

Module TDigestModel.

(** *** The arithmetic of [double] *)

(** What tdigest.cc asks of [double]: the four operations, the
    comparisons, the conversion from [int64_t], [std::ceil] followed by the
    cast to [size_t], and the constants it names. *)
Class FloatOps : Type := {
  double : Type;
  d_add : double -> double -> double;
  d_sub : double -> double -> double;
  d_mul : double -> double -> double;
  d_div : double -> double -> double;
  d_ltb : double -> double -> bool;
  d_leb : double -> double -> bool;
  d_eqb : double -> double -> bool;
  of_int64 : Z -> double;
  ceil_to_size : double -> Z;
  kNan : double;
  numeric_limits_max : double;
  numeric_limits_lowest : double;
  kPi : double
}.

Declare Scope double_scope.
Delimit Scope double_scope with D.
Bind Scope double_scope with double.
Infix "+" := d_add : double_scope.
Infix "-" := d_sub : double_scope.
Infix "*" := d_mul : double_scope.
Infix "/" := d_div : double_scope.
Infix "<?" := d_ltb : double_scope.
Infix "<=?" := d_leb : double_scope.
Infix "=?" := d_eqb : double_scope.
Notation "x >=? y" := (d_leb y x) (at level 70) : double_scope.
Notation "x !=? y" := (negb (d_eqb x y)) (at level 70) : double_scope.

(** IEEE-754 binary64, round to nearest even, on [spec_float]. *)
Definition prec64 : Z := 53.
Definition emax64 : Z := 1024.

(** [std::ceil] and the cast to [size_t] of a finite value; the cast of a
    NaN, an infinity or a negative value is undefined in C++ (0 here). *)
Definition SFceil_to_size (x : spec_float) : Z :=
  match x with
  | S754_finite false m e =>
      match e with
      | Zneg p => - ((- Zpos m) / 2 ^ Zpos p)
      | _ => Zpos m * 2 ^ e
      end
  | _ => 0
  end.

(** A literal of the source, read as the compiler reads it. *)
Definition lit (x : float) : spec_float := Prim2SF x.

#[export] Instance binary64 : FloatOps := {|
  double := spec_float;
  d_add := SFadd prec64 emax64;
  d_sub := SFsub prec64 emax64;
  d_mul := SFmul prec64 emax64;
  d_div := SFdiv prec64 emax64;
  d_ltb := SFltb;
  d_leb := SFleb;
  d_eqb := SFeqb;
  of_int64 := fun z => binary_normalize prec64 emax64 z 0 false;
  ceil_to_size := SFceil_to_size;
  kNan := S754_nan;
  numeric_limits_max := SFmax_float prec64 emax64;
  numeric_limits_lowest := SFopp (SFmax_float prec64 emax64);
  kPi := S754_finite false 7074237752028440 (-51)
|}.

(** Exact arithmetic on the rationals: [double] without rounding, without
    infinities and without NaN.  [kNan] has no counterpart in [Q]; it is
    given the value 0 and is returned by the queries on an empty digest
    only.  Division by zero is [Q]'s (the result is 0).  The code computes
    in binary64: this instance serves the examples of statements that hold
    in every arithmetic, and shows what the algorithms compute when no
    operation rounds; a statement proved in it alone is not a property of
    the code. *)
Definition exact_pi : Q := 314159265358979323846 # 100000000000000000000.

Definition exact : FloatOps := {|
  double := Q;
  d_add := Qplus;
  d_sub := Qminus;
  d_mul := Qmult;
  d_div := Qdiv;
  d_ltb := fun x y => negb (Qle_bool y x);
  d_leb := Qle_bool;
  d_eqb := Qeq_bool;
  of_int64 := inject_Z;
  ceil_to_size := Qceiling;
  kNan := 0%Q;
  numeric_limits_max := inject_Z (2 ^ 1024 - 2 ^ 971);
  numeric_limits_lowest := inject_Z (- (2 ^ 1024 - 2 ^ 971));
  kPi := exact_pi
|}.

(** Both instances are canonical: a statement about [TDigest Q] or
    [TDigest spec_float] finds its arithmetic from the type. *)
Canonical Structure exact.
Canonical Structure binary64.

(** Library functions tdigest.cc calls and the repository does not
    define.  [std::sin] and [std::asin] of the C library: *)
Class Libm (FO : FloatOps) : Type := {
  std_sin : double -> double;
  std_asin : double -> double
}.

(** [CentroidPod::operator<] is declared in tdigest.h, which is not under
    src/.  The spec says that centroids are sorted by (mean, count); how
    it compares the counts of two centroids of the same mean is a
    parameter: *)
Class CentroidOrder : Type := {
  count_before : Z -> Z -> bool
}.

(** Abseil's number parsers, [absl::SimpleAtod] and [absl::SimpleAtoi]
    (into an [int64_t]); [None] when they return false: *)
Class AbslNumbers (FO : FloatOps) : Type := {
  SimpleAtod : string -> option double;
  SimpleAtoi : string -> option Z
}.

(** Abseil's formatting of a [double]: by [absl::StrCat], and by the
    conversion [%0.17g] of [absl::StrAppendFormat]. *)
Class AbslFormat (FO : FloatOps) : Type := {
  StrCat_double : double -> string;
  Format_17g : double -> string
}.

(** *** Element access *)

Inductive access (A : Type) : Type :=
| InBounds (a : A)
| OutOfBounds.
Arguments InBounds {A} a.
Arguments OutOfBounds {A}.

#[export] Instance access_ret : MRet access := fun A a => InBounds a.
#[export] Instance access_bind : MBind access := fun A B f m =>
  match m with InBounds a => f a | OutOfBounds => OutOfBounds end.

(** [v[i]] *)
Definition at_index {A : Type} (v : list A) (i : nat) : access A :=
  match v !! i with Some a => InBounds a | None => OutOfBounds end.

(** *** The data of a digest

    The records take the type of [double] as a parameter. *)

Record CentroidPod (D : Type) : Type := Centroid {
  mean : D;
  count : Z
}.
Arguments Centroid {D}.
Arguments mean {D}.
Arguments count {D}.

Record TDigest (D : Type) : Type := Digest {
  compression_ : D;
  batch_size_ : Z;
  centroids_ : list (CentroidPod D);
  merged_ : Z;
  unmerged_ : Z;
  min_ : D;
  max_ : D;
  sum_ : D;
  count_ : Z
}.
Arguments Digest {D}.
Arguments compression_ {D}.
Arguments batch_size_ {D}.
Arguments centroids_ {D}.
Arguments merged_ {D}.
Arguments unmerged_ {D}.
Arguments min_ {D}.
Arguments max_ {D}.
Arguments sum_ {D}.
Arguments count_ {D}.

(** The local variables of [DoMerge] that its loop updates. *)
Record merge_state (D : Type) : Type := MergeState {
  ms_centroids : list (CentroidPod D);
  ms_merged : Z;
  ms_last_merged : nat;
  ms_first_unmerged : nat;
  ms_merged_count : Z;
  ms_q_limit : D;
  ms_sum : D
}.
Arguments MergeState {D}.
Arguments ms_centroids {D}.
Arguments ms_merged {D}.
Arguments ms_last_merged {D}.
Arguments ms_first_unmerged {D}.
Arguments ms_merged_count {D}.
Arguments ms_q_limit {D}.
Arguments ms_sum {D}.

(** The local variables of the loop of [Quantile]. *)
Record walk_state (D : Type) : Type := WalkState {
  prev_count : D;
  prev_val : D;
  this_count : D;
  this_val : D
}.
Arguments WalkState {D}.
Arguments prev_count {D}.
Arguments prev_val {D}.
Arguments this_count {D}.
Arguments this_val {D}.

Section TDigest.

Context {FO : FloatOps} {LM : Libm FO} {AN : AbslNumbers FO}
        {AF : AbslFormat FO}
        {CO : CentroidOrder}.

#[local] Open Scope double_scope.

#[local] Abbreviation CentroidPod := (CentroidPod double).
#[local] Abbreviation TDigest := (TDigest double).
#[local] Abbreviation merge_state := (merge_state double).
#[local] Abbreviation walk_state := (walk_state double).

#[local] Notation "0" := (of_int64 0%Z) : double_scope.
#[local] Notation "1" := (of_int64 1%Z) : double_scope.
#[local] Notation "2" := (of_int64 2%Z) : double_scope.

(** [std::min(a, b)] is [(b < a) ? b : a]; [std::max(a, b)] is
    [(a < b) ? b : a]. *)
Definition std_min (a b : double) : double := if b <? a then b else a.
Definition std_max (a b : double) : double := if a <? b then b else a.

Definition kMaxCompression : double := of_int64 1000000.

Definition BoundedCompression (compression : double) : double :=
  std_min kMaxCompression compression.

Definition MaxCentroids (compression : double) : Z :=
  let compression := BoundedCompression compression in
  (2 * ceil_to_size compression)%Z.

Definition LinearInterpolate (val1 val2 weight1 weight2 : double) : double :=
  (val1 * weight1 + val2 * weight2) / (weight1 + weight2).

(** Modelled from the spec: [CentroidPod::operator<], declared in
    tdigest.h (not under src/): centroids are ordered by (mean, count),
    the counts of two centroids of the same mean by [count_before]. *)
Definition centroid_lt (a b : CentroidPod) : bool :=
  (mean a <? mean b)
  || ((mean a =? mean b) && count_before (count a) (count b)).

(** [std::sort] with [operator<]: an insertion sort.  It is stable, which
    [std::sort] need not be: centroids that compare equal may come out in
    another order in the code, and no statement below depends on theirs. *)
Fixpoint sort_insert (c : CentroidPod) (l : list CentroidPod)
  : list CentroidPod :=
  match l with
  | [] => [c]
  | x :: l' => if centroid_lt x c then x :: sort_insert c l' else c :: l
  end.

Definition std_sort (l : list CentroidPod) : list CentroidPod :=
  foldr sort_insert [] l.

(** [v.resize(n)]: truncates, or pads with value-initialised elements. *)
Definition resize (n : nat) (v : list CentroidPod) : list CentroidPod :=
  take n v ++ replicate (n - length v) (Centroid 0 0%Z).

(** Modelled from the spec: the accessors of tdigest.h (not under src/)
    return the fields. *)
Definition Compression (t : TDigest) : double := compression_ t.
Definition Min (t : TDigest) : double := min_ t.
Definition Max (t : TDigest) : double := max_ t.
Definition Sum (t : TDigest) : double := sum_ t.
Definition Count (t : TDigest) : Z := count_ t.

(** [Reset] overwrites every field; [reserve] changes the capacity only,
    which the model does not hold.  On a negative compression the cast to
    [size_t] in [MaxCentroids] is undefined ([ceil_to_size] is 0 there):
    the statements below take a compression that is not negative. *)
Definition Reset (compression : double) : TDigest :=
  let compression := BoundedCompression compression in
  {| compression_ := compression;
     batch_size_ := (4 * MaxCentroids compression)%Z;
     centroids_ := [];
     merged_ := 0%Z;
     unmerged_ := 0%Z;
     min_ := numeric_limits_max;
     max_ := numeric_limits_lowest;
     sum_ := 0;
     count_ := 0%Z |}.

(** Modelled from the spec: [UpdateStats], defined in tdigest.h (not under
    src/): min = min(min, value), max = max(max, value), sum += sum,
    count += count.  The sum of the counts is a sum in [Z]: that of the
    code where it fits in [int64_t] ([counters_in_range]). *)
Definition UpdateStats (min max sum : double) (count : Z) (t : TDigest)
  : TDigest :=
  {| compression_ := compression_ t;
     batch_size_ := batch_size_ t;
     centroids_ := centroids_ t;
     merged_ := merged_ t;
     unmerged_ := unmerged_ t;
     min_ := std_min (min_ t) min;
     max_ := std_max (max_ t) max;
     sum_ := sum_ t + sum;
     count_ := (count_ t + count)%Z |}.

Definition QuantileToCentroid (t : TDigest) (quantile : double) : double :=
  compression_ t * (std_asin (2 * quantile - 1) + kPi / 2) / kPi.

Definition CentroidToQuantile (t : TDigest) (centroid : double) : double :=
  let centroid := std_min centroid (compression_ t) in
  (std_sin (centroid * kPi / compression_ t - kPi / 2) + 1) / 2.

(** One iteration of [for (; unmerged_ > 0; --unmerged_, ++first_unmerged)].
    The sums of counts are sums in [Z]: those of the code where the counts
    fit ([counts_fit]). *)
Definition DoMerge_step (t : TDigest) (total_count : Z) (s : merge_state)
  : access merge_state :=
  first_unmerged ← at_index (ms_centroids s) (ms_first_unmerged s);
  last_merged ← at_index (ms_centroids s) (ms_last_merged s);
  if of_int64 (count first_unmerged + ms_merged_count s) <=? ms_q_limit s
  then
    (* Welford's method: count must be updated before mean. *)
    let count' := (count last_merged + count first_unmerged)%Z in
    let mean' :=
      mean last_merged
      + ((mean first_unmerged - mean last_merged)
         * of_int64 (count first_unmerged)) / of_int64 count' in
    mret {| ms_centroids :=
              <[ms_last_merged s := Centroid mean' count']> (ms_centroids s);
            ms_merged := ms_merged s;
            ms_last_merged := ms_last_merged s;
            ms_first_unmerged := S (ms_first_unmerged s);
            ms_merged_count := (ms_merged_count s + count first_unmerged)%Z;
            ms_q_limit := ms_q_limit s;
            ms_sum := ms_sum s |}
  else
    let q0 :=
      QuantileToCentroid t
        (of_int64 (ms_merged_count s) / of_int64 total_count) in
    let q_limit := of_int64 total_count * CentroidToQuantile t (q0 + 1) in
    if decide (S (ms_last_merged s) < length (ms_centroids s))%nat then
      mret {| ms_centroids :=
                <[S (ms_last_merged s) := first_unmerged]> (ms_centroids s);
              ms_merged := (ms_merged s + 1)%Z;
              ms_last_merged := S (ms_last_merged s);
              ms_first_unmerged := S (ms_first_unmerged s);
              ms_merged_count := (ms_merged_count s + count first_unmerged)%Z;
              ms_q_limit := q_limit;
              ms_sum :=
                ms_sum s + mean last_merged * of_int64 (count last_merged) |}
    else OutOfBounds.

Fixpoint DoMerge_loop (unmerged : nat) (t : TDigest) (total_count : Z)
    (s : merge_state) : access merge_state :=
  match unmerged with
  | O => mret s
  | S unmerged' =>
      s' ← DoMerge_step t total_count s;
      DoMerge_loop unmerged' t total_count s'
  end.

Definition DoMerge (t : TDigest) : access TDigest :=
  if (unmerged_ t =? 0)%Z then mret t
  else
    let centroids := std_sort (centroids_ t) in
    let unmerged := (unmerged_ t + (merged_ t - 1))%Z in
    let total_count := count_ t in
    let q0 := 0 in
    let q_limit := of_int64 total_count * CentroidToQuantile t (q0 + 1) in
    first ← at_index centroids 0;
    s ← DoMerge_loop (Z.to_nat unmerged) t total_count
          {| ms_centroids := centroids;
             ms_merged := 1%Z;
             ms_last_merged := 0;
             ms_first_unmerged := 1;
             ms_merged_count := count first;
             ms_q_limit := q_limit;
             ms_sum := 0 |};
    last_merged ← at_index (ms_centroids s) (ms_last_merged s);
    let sum := ms_sum s + mean last_merged * of_int64 (count last_merged) in
    let centroids := resize (Z.to_nat (ms_merged s)) (ms_centroids s) in
    let min := match head centroids with
               | Some front => std_min (min_ t) (mean front)
               | None => min_ t
               end in
    let max := match last centroids with
               | Some back => std_max (max_ t) (mean back)
               | None => max_ t
               end in
    mret {| compression_ := compression_ t;
            batch_size_ := batch_size_ t;
            centroids_ := centroids;
            merged_ := ms_merged s;
            unmerged_ := 0%Z;
            min_ := min;
            max_ := max;
            sum_ := sum;
            count_ := count_ t |}.

Definition AddUnmergedCentroid (centroid : CentroidPod) (t : TDigest)
  : access TDigest :=
  let t := {| compression_ := compression_ t;
              batch_size_ := batch_size_ t;
              centroids_ := centroids_ t ++ [centroid];
              merged_ := merged_ t;
              unmerged_ := (unmerged_ t + 1)%Z;
              min_ := min_ t;
              max_ := max_ t;
              sum_ := sum_ t;
              count_ := count_ t |} in
  if (unmerged_ t =? batch_size_ t)%Z then DoMerge t else mret t.

Definition Add (val : double) (count : Z) (t : TDigest) : access TDigest :=
  if (count =? 0)%Z then mret t
  else
    (* Single sample is considered discrete. *)
    AddUnmergedCentroid (Centroid val count)
      (UpdateStats val val (val * of_int64 count) count t).

Fixpoint AddUnmergedCentroids (cs : list CentroidPod) (t : TDigest)
  : access TDigest :=
  match cs with
  | [] => mret t
  | c :: cs' => t' ← AddUnmergedCentroid c t; AddUnmergedCentroids cs' t'
  end.

(** [t.Merge(that)] for an argument [that] which is another object than
    the receiver.  In the aliased call [a.Merge(a)] the range-for iterates
    the vector that [AddUnmergedCentroid] appends to and that [DoMerge]
    shrinks, which invalidates its iterators: that call is not modelled. *)
Definition Merge (that : TDigest) (t : TDigest) : access TDigest :=
  let t := if compression_ t =? 0 then Reset (Compression that) else t in
  AddUnmergedCentroids (centroids_ that)
    (UpdateStats (Min that) (Max that) (Sum that) (Count that) t).

(** The loop [for (; centroids_[i + 1].mean == val; ++i)] of [Cdf]: the
    value of [accum_count] when it stops.  The loop has no bound of its
    own; [fuel] is the number of elements, which it cannot outlast, since
    every iteration reads [centroids_[i + 1]]. *)
Fixpoint Cdf_collapse (fuel : nat) (centroids : list CentroidPod)
    (val : double) (i : nat) (accum_count : double) : access double :=
  match fuel with
  | O => OutOfBounds
  | S fuel' =>
      next ← at_index centroids (S i);
      if mean next =? val then
        this ← at_index centroids i;
        Cdf_collapse fuel' centroids val (S i)
          (accum_count + of_int64 (count this + count next))
      else mret accum_count
  end.

(** The loop [for (size_t i = 0; i < centroids_.size(); ++i)] of [Cdf],
    from index [i] with [remaining = size - i] iterations to go.  Leaving
    the loop is the path through [ABSL_LOG(DFATAL)] (a log line when
    NDEBUG is defined) and [return kNan]. *)
Fixpoint Cdf_scan (remaining : nat) (t : TDigest) (val : double) (i : nat)
    (accum_count : double) : access double :=
  match remaining with
  | O => mret kNan
  | S remaining' =>
      this ← at_index (centroids_ t) i;
      if mean this =? val then
        let prev_accum_count := accum_count in
        (* We may have centroids of the same mean. We need to sum their
           counts and then interpolate. *)
        accum_count ← Cdf_collapse (length (centroids_ t)) (centroids_ t)
                        val i accum_count;
        mret ((prev_accum_count + accum_count) / 2 / of_int64 (count_ t))
      else
        between ← (if mean this <=? val then
                     next ← at_index (centroids_ t) (S i);
                     mret (val <? mean next)
                   else mret false);
        if (between : bool) then
          next ← at_index (centroids_ t) (S i);
          let mean1 := mean this in
          let mean2 := mean next in
          (* guard against double madness. *)
          let mean_ratio :=
            if mean2 <=? mean1 then 1
            else (val - mean1) / (mean2 - mean1) in
          let delta_count := of_int64 (count this + count next) / 2 in
          mret ((accum_count + delta_count * mean_ratio)
                / of_int64 (count_ t))
        else
          next ← at_index (centroids_ t) (S i);
          Cdf_scan remaining' t val (S i)
            (accum_count + of_int64 (count this + count next) / 2)
  end.

(** [Cdf] after its call of [DoMerge]. *)
Definition Cdf_merged (t : TDigest) (val : double) : access double :=
  if (merged_ t =? 0)%Z then mret kNan
  else if val <? min_ t then mret 0
  (* We diverge from the spec here. If value == max == min, we return 1. *)
  else if val >=? max_ t then mret 1
  else if (merged_ t =? 1)%Z then
    mret ((val - min_ t) / (min_ t - max_ t))
  else
    front ← at_index (centroids_ t) 0;
    if val <? mean front then
      mret (LinearInterpolate 0
              (of_int64 (count front) / of_int64 (count_ t) / 2)
              (mean front - val) (val - min_ t))
    else
      match last (centroids_ t) with
      | None => OutOfBounds
      | Some back =>
          if val >=? mean back then
            mret (LinearInterpolate
                    (1 - of_int64 (count back) / of_int64 (count_ t) / 2) 1
                    (max_ t - val) (val - mean back))
          else
            Cdf_scan (length (centroids_ t)) t val 0
              (of_int64 (count front) / 2)
      end.

(** [Cdf]: the digest it leaves and the value it returns. *)
Definition Cdf (t : TDigest) (val : double) : access (TDigest * double) :=
  t ← DoMerge t;
  r ← Cdf_merged t val;
  mret (t, r).

(** The loop [for (size_t i = 0; i < centroids_.size(); ++i)] of
    [Quantile], from index [i] with [remaining = size - i] iterations to
    go: the variables when it is left. *)
Fixpoint Quantile_walk (remaining : nat) (t : TDigest)
    (quantile_count : double) (i : nat) (w : walk_state)
  : access walk_state :=
  match remaining with
  | O => mret w
  | S remaining' =>
      if quantile_count <? this_count w then mret w
      else
        if decide (i = length (centroids_ t) - 1)%nat then
          (* Interpolate between max and the last centroid. *)
          Quantile_walk remaining' t quantile_count (S i)
            {| prev_count := this_count w;
               prev_val := this_val w;
               this_count := of_int64 (count_ t);
               this_val := max_ t |}
        else
          this ← at_index (centroids_ t) i;
          next ← at_index (centroids_ t) (S i);
          Quantile_walk remaining' t quantile_count (S i)
            {| prev_count := this_count w;
               prev_val := this_val w;
               this_count :=
                 this_count w + of_int64 (count this + count next) / 2;
               this_val := mean next |}
  end.

(** [Quantile] after its call of [DoMerge]. *)
Definition Quantile_merged (t : TDigest) (quantile : double)
  : access double :=
  if (merged_ t =? 0)%Z then mret kNan
  else
    front ← at_index (centroids_ t) 0;
    if (merged_ t =? 1)%Z then mret (mean front)
    else
      let quantile_count := quantile * of_int64 (count_ t) in
      w ← Quantile_walk (length (centroids_ t)) t quantile_count 0
            {| prev_count := 0;
               prev_val := min_ t;
               this_count := of_int64 (count front) / 2;
               this_val := mean front |};
      mret (LinearInterpolate (prev_val w) (this_val w)
              (this_count w - quantile_count)
              (quantile_count - prev_count w)).

(** [Quantile]: the digest it leaves and the value it returns. *)
Definition Quantile (t : TDigest) (quantile : double)
  : access (TDigest * double) :=
  t ← DoMerge t;
  r ← Quantile_merged t quantile;
  mret (t, r).

(** [absl::StrSplit(text, delimiter)]: the pieces between the delimiters,
    empty pieces kept. *)
Fixpoint StrSplit (delimiter : ascii) (text : string) : list string :=
  match text with
  | EmptyString => [EmptyString]
  | String c rest =>
      if Ascii.eqb c delimiter then EmptyString :: StrSplit delimiter rest
      else
        match StrSplit delimiter rest with
        | piece :: pieces => String c piece :: pieces
        | [] => [String c EmptyString]
        end
  end.

(** [pos = token.find_first_of(delimiter)] with [token.substr(0, pos)] and
    [token.substr(pos + 1)]; [None] when [pos] is [npos]. *)
Fixpoint split_at_first (delimiter : ascii) (token : string)
  : option (string * string) :=
  match token with
  | EmptyString => None
  | String c rest =>
      if Ascii.eqb c delimiter then Some (EmptyString, rest)
      else
        match split_at_first delimiter rest with
        | Some (before, after) => Some (String c before, after)
        | None => None
        end
  end.

Definition ToString (t : TDigest) : access (TDigest * string) :=
  let str := StrCat_double (compression_ t) in
  if (count_ t <=? 1)%Z then
    if (count_ t =? 0)%Z then
      (* Note the string representation serializes min/max = 0 when empty. *)
      mret (t, str +:+ "/0/0/0/0")
    else
      front ← at_index (centroids_ t) 0;
      mret (t, str +:+ "/" +:+ Format_17g (mean front))
  else
    t ← DoMerge t;
    let header :=
      str +:+ "/" +:+ Format_17g (min_ t) +:+ "/" +:+ Format_17g (max_ t)
          +:+ "/" +:+ Format_17g (sum_ t) +:+ "/" +:+ pretty (count_ t) in
    mret (t,
          foldl (fun str centroid =>
                   str +:+ "/" +:+ Format_17g (mean centroid)
                       +:+ ":" +:+ pretty (count centroid))
                header (centroids_ t)).

(** The loop of [FromString] over the centroid tokens: the digest after
    the calls of [Add], and the first malformed token if there is one. *)
Fixpoint FromString_centroids (tokens : list string) (t : TDigest)
  : access (TDigest * option string) :=
  match tokens with
  | [] => mret (t, None)
  | token :: tokens' =>
      match split_at_first ":" token with
      | None => mret (t, Some token)
      | Some (before, after) =>
          match SimpleAtod before, SimpleAtoi after with
          | Some double_val, Some int_val =>
              t' ← Add double_val int_val t;
              FromString_centroids tokens' t'
          | _, _ => mret (t, Some token)
          end
      end
  end.

(** [FromString]: the digest it leaves and the status it returns.  The
    check [ABSL_DCHECK_LT(std::abs(sum - sum_), 1e-10)] is compiled out
    when NDEBUG is defined and is not modelled. *)
Definition FromString (text : string) (t : TDigest)
  : access (TDigest * Absl.Status) :=
  (* Accept an empty string as 'not set'. *)
  if String.eqb text EmptyString then mret (Reset 0, Absl.OkStatus)
  else
    match StrSplit "/" text with
    | [] => mret (t, Absl.InvalidArgumentError "No compression/discrete.")
    | first :: tokens =>
        if String.eqb first EmptyString then
          mret (t, Absl.InvalidArgumentError "No compression/discrete.")
        else
          match SimpleAtod first with
          | None =>
              mret (t, Absl.InvalidArgumentError
                         ("Invalid double_val/discrete: " +:+ first))
          | Some double_val =>
              if double_val <? 0 then
                mret (t, Absl.InvalidArgumentError
                           ("Invalid double_val/discrete: " +:+ first))
              else
                let t := Reset double_val in
                match tokens with
                | [] =>
                    mret (t, Absl.InvalidArgumentError
                               "Unexpected end of string.")
                | [single] =>
                    (* Single-valued t-Digest. *)
                    match SimpleAtod single with
                    | None =>
                        mret (t, Absl.InvalidArgumentError
                                   ("Invalid single-value: " +:+ single))
                    | Some double_val =>
                        t ← Add double_val 1%Z t;
                        mret (t, Absl.OkStatus)
                    end
                | tmin :: tmax :: tsum :: tcount :: centroids =>
                    (* Parse min/max/sum/count. *)
                    match SimpleAtod tmin, SimpleAtod tmax,
                          SimpleAtod tsum, SimpleAtoi tcount with
                    | Some min, Some max, Some sum, Some count =>
                        match centroids with
                        | [] =>
                            (* Empty. *)
                            if (min !=? 0) || (max !=? 0)
                               || negb (count =? 0)%Z || (sum !=? 0)
                            then
                              mret (t, Absl.InvalidArgumentError
                                "Empty t-Digest with non-zero min, max, sum, or count.")
                            else mret (t, Absl.OkStatus)
                        | _ =>
                            (* Parse centroids. *)
                            '(t, bad) ← FromString_centroids centroids t;
                            match bad with
                            | Some token =>
                                mret (t, Absl.InvalidArgumentError
                                           ("Invalid centroid: " +:+ token))
                            | None =>
                                t ← DoMerge t;
                                let t :=
                                  {| compression_ := compression_ t;
                                     batch_size_ := batch_size_ t;
                                     centroids_ := centroids_ t;
                                     merged_ := merged_ t;
                                     unmerged_ := unmerged_ t;
                                     min_ := min;
                                     max_ := max;
                                     sum_ := sum_ t;
                                     count_ := count_ t |} in
                                match centroids_ t with
                                | [] => mret (t, Absl.OkStatus)
                                | _ =>
                                    (* Validate min/max/sum/count. *)
                                    if negb (count =? count_ t)%Z then
                                      mret (t, Absl.InvalidArgumentError
                                                 "Invalid count value.")
                                    else mret (t, Absl.OkStatus)
                                end
                            end
                        end
                    | _, _, _, _ =>
                        mret (t, Absl.InvalidArgumentError
                                   "Invalid min, max, sum, or count.")
                    end
                | _ =>
                    mret (t, Absl.InvalidArgumentError
                               "Invalid min, max, sum, or count.")
                end
          end
    end.

(** The invariants of the data model, on a digest whose centroids are all
    merged: [merged_] is the number of centroids and is positive, no
    centroid is pending, every count is positive, [count_] is the sum of
    the counts, the means are in non-decreasing order, and
    [min <= mean[0]] and [mean[last] <= max]. *)
Definition sum_counts (centroids : list CentroidPod) : Z :=
  foldr (fun c n => (count c + n)%Z) 0%Z centroids.

Fixpoint means_ascend_to (max : double) (centroids : list CentroidPod)
  : bool :=
  match centroids with
  | [] => true
  | c :: rest =>
      match rest with
      | [] => mean c <=? max
      | next :: _ => (mean c <=? mean next) && means_ascend_to max rest
      end
  end.

Definition data_model_invariant (t : TDigest) : bool :=
  (unmerged_ t =? 0)%Z
  && (merged_ t =? Z.of_nat (length (centroids_ t)))%Z
  && forallb (fun c => (0 <? count c)%Z) (centroids_ t)
  && (count_ t =? sum_counts (centroids_ t))%Z
  && match centroids_ t with
     | [] => false
     | front :: _ => min_ t <=? mean front
     end
  && means_ascend_to (max_ t) (centroids_ t).

(** The invariants of the data model on a digest that may hold pending
    centroids: [merged_ + unmerged_] is the number of centroids, every
    count is positive, [count_] is the sum of the counts, and when no
    centroid is pending the merged ones are ordered between min and max. *)
Definition ingest_invariant (t : TDigest) : bool :=
  (merged_ t + unmerged_ t =? Z.of_nat (length (centroids_ t)))%Z
  && (0 <=? merged_ t)%Z && (0 <=? unmerged_ t)%Z
  && forallb (fun c => (0 <? count c)%Z) (centroids_ t)
  && (count_ t =? sum_counts (centroids_ t))%Z
  && (negb (unmerged_ t =? 0)%Z
      || match centroids_ t with
         | [] => true
         | front :: _ =>
             (min_ t <=? mean front)
             && means_ascend_to (max_ t) (centroids_ t)
         end).

(** [val] and [x] are ordered: the comparisons of [Cdf] between them behave
    as those of a total order. *)
Definition ordered_with (val x : double) : Prop :=
  ((val <? x) = false -> (x <=? val) = true)
  /\ ((x <=? val) = true -> (val <? x) = false)
  /\ ((x =? val) = true -> (val <? x) = false)
  /\ ((x <=? val) = false -> (val <? x) = true).

(** *** The merge as a function on lists *)

(** Welford's update of the last merged centroid. *)
Definition absorb (last_merged first_unmerged : CentroidPod) : CentroidPod :=
  let count' := (count last_merged + count first_unmerged)%Z in
  Centroid
    (mean last_merged
     + ((mean first_unmerged - mean last_merged)
        * of_int64 (count first_unmerged)) / of_int64 count')
    count'.

(** The limit [DoMerge] computes when it moves on to the next centroid. *)
Definition next_q_limit (t : TDigest) (total_count merged_count : Z)
  : double :=
  of_int64 total_count
  * CentroidToQuantile t
      (QuantileToCentroid t (of_int64 merged_count / of_int64 total_count)
       + 1).

(** The sum [DoMerge] rebuilds from the merged centroids. *)
Definition rebuilt_sum (merged : list CentroidPod) : double :=
  foldl (fun sum c => sum + mean c * of_int64 (count c)) 0 merged.

(** The centroids [DoMerge] produces from the last merged centroid and the
    sorted centroids that follow it. *)
Fixpoint greedy_merge (t : TDigest) (total_count : Z)
    (last_merged : CentroidPod) (unmerged : list CentroidPod)
    (merged_count : Z) (q_limit : double) : list CentroidPod :=
  match unmerged with
  | [] => [last_merged]
  | first_unmerged :: unmerged' =>
      if of_int64 (count first_unmerged + merged_count) <=? q_limit then
        greedy_merge t total_count (absorb last_merged first_unmerged)
          unmerged' (merged_count + count first_unmerged)%Z q_limit
      else
        last_merged
        :: greedy_merge t total_count first_unmerged unmerged'
             (merged_count + count first_unmerged)%Z
             (next_q_limit t total_count merged_count)
  end.

End TDigest.

(** *** Instances used in examples *)

(** Unsigned decimal integers: the strings of digits, on which
    [absl::SimpleAtod] and [absl::SimpleAtoi] return the number written. *)
Definition digit_value (c : ascii) : option Z :=
  let n := Z.of_nat (nat_of_ascii c) in
  if (48 <=? n) && (n <=? 57) then Some (n - 48) else None.

Fixpoint digits_value (acc : Z) (s : string) : option Z :=
  match s with
  | EmptyString => Some acc
  | String c rest =>
      match digit_value c with
      | Some d => digits_value (10 * acc + d) rest
      | None => None
      end
  end.

Definition unsigned_decimal (s : string) : option Z :=
  match s with
  | EmptyString => None
  | _ =>
      match digits_value 0 s with
      | Some z => if z <? 2 ^ 63 then Some z else None
      | None => None
      end
  end.

(** The number parsers restricted to unsigned decimal integers (on any
    other string this instance returns [None], which Abseil's parsers need
    not do; the examples give it strings of digits only). *)
Definition decimal_digits {FO : FloatOps} : AbslNumbers FO := {|
  SimpleAtod := fun s => of_int64 <$> unsigned_decimal s;
  SimpleAtoi := unsigned_decimal
|}.

(** A math library for the exact instance, where [sin] and [asin] have no
    rational values: the linear functions that agree with them at the ends
    of their ranges, [sin x = 2x/pi] and [asin x = pi x/2].  With them the
    scale function of the digest is [k(q) = compression * q]. *)
Definition linear_sin (x : Q) : Q := x * 2 / exact_pi.
Definition linear_asin (x : Q) : Q := x * exact_pi / 2.

Definition linear_scale : Libm exact := {|
  std_sin := linear_sin : @double exact -> @double exact;
  std_asin := linear_asin : @double exact -> @double exact
|}.

(** Example digests. *)

(** Compression 1 and the samples 1 and 3, merged into one centroid. *)
Definition one_centroid_digest : TDigest spec_float :=
  {| compression_ := lit 1;
     batch_size_ := 8;
     centroids_ := [Centroid (lit 2) 2];
     merged_ := 1;
     unmerged_ := 0;
     min_ := lit 1;
     max_ := lit 3;
     sum_ := lit 4;
     count_ := 2 |}.

(** Compression 100 and the samples 1 and 3, merged. *)
Definition two_centroid_digest : TDigest spec_float :=
  {| compression_ := lit 100;
     batch_size_ := 800;
     centroids_ := [Centroid (lit 1) 1; Centroid (lit 3) 1];
     merged_ := 2;
     unmerged_ := 0;
     min_ := lit 1;
     max_ := lit 3;
     sum_ := lit 4;
     count_ := 2 |}.

(** Compression 100 and three samples 0.1, merged. *)
Definition three_tenths_digest : TDigest spec_float :=
  {| compression_ := lit 100;
     batch_size_ := 800;
     centroids_ := [Centroid (lit 0.1) 1; Centroid (lit 0.1) 1;
                    Centroid (lit 0.1) 1];
     merged_ := 3;
     unmerged_ := 0;
     min_ := lit 0.1;
     max_ := lit 0.1;
     sum_ := lit 0.30000000000000004;
     count_ := 3 |}.

(** The digest [FromString] leaves for "100/10/0/6/3/1:1/2:1/3:1": the
    header's min and max are stored as they are written. *)
Definition inverted_header_digest : TDigest Q :=
  @Digest Q 100%Q 800
    [@Centroid Q 1%Q 1; @Centroid Q 2%Q 1; @Centroid Q 3%Q 1]
    3 0 10%Q 0%Q 6%Q 3.

(** Compression 100 and the samples 1, 2 and 3, merged, in exact
    arithmetic. *)
Definition one_two_three_digest : TDigest Q :=
  @Digest Q 100%Q 800
    [@Centroid Q 1%Q 1; @Centroid Q 2%Q 1; @Centroid Q 3%Q 1]
    3 0 1%Q 3%Q 6%Q 3.

(** The order of the counts used where an example needs one: the smaller
    count first. *)
Definition ascending_count : CentroidOrder := {| count_before := Z.ltb |}.

(** The samples 1 and 3 added at compression 1, pending. *)
Definition one_and_three : TDigest spec_float :=
  {| compression_ := lit 1;
     batch_size_ := 8;
     centroids_ := [Centroid (lit 1) 1; Centroid (lit 3) 1];
     merged_ := 0;
     unmerged_ := 2;
     min_ := lit 1;
     max_ := lit 3;
     sum_ := lit 4;
     count_ := 2 |}.

(** The samples 1 and 3 added at compression 100, pending. *)
Definition one_and_three_at_100 : TDigest spec_float :=
  {| compression_ := lit 100;
     batch_size_ := 800;
     centroids_ := [Centroid (lit 1) 1; Centroid (lit 3) 1];
     merged_ := 0;
     unmerged_ := 2;
     min_ := lit 1;
     max_ := lit 3;
     sum_ := lit 4;
     count_ := 2 |}.

(** Three samples 0.1 added at compression 100, pending. *)
Definition three_tenths_pending : TDigest spec_float :=
  {| compression_ := lit 100;
     batch_size_ := 800;
     centroids_ := [Centroid (lit 0.1) 1; Centroid (lit 0.1) 1;
                    Centroid (lit 0.1) 1];
     merged_ := 0;
     unmerged_ := 3;
     min_ := lit 0.1;
     max_ := lit 0.1;
     sum_ := lit 0.30000000000000004;
     count_ := 3 |}.

(** The samples 3, 1 and 2 added at compression 100, pending, in exact
    arithmetic. *)
Definition three_one_two_pending : TDigest Q :=
  @Digest Q 100%Q 800
    [@Centroid Q 3%Q 1; @Centroid Q 1%Q 1; @Centroid Q 2%Q 1]
    0 3 1%Q 3%Q 6%Q 3.

(** [std::numeric_limits<double>::denorm_min()], 2^-1074. *)
Definition denorm_min : spec_float := S754_finite false 1 (-1074).

(** [x] is [reference] or one of its two neighbours in binary64. *)
Definition within_one_ulp (x reference : spec_float) : Prop :=
  x = SFpred prec64 emax64 reference
  \/ x = reference
  \/ x = SFsucc prec64 emax64 reference.

(** The samples 1 (a thousand times), 2, 3 and 4 added at compression
    2^-1074, pending. *)
Definition heavy_head_pending : TDigest spec_float :=
  {| compression_ := denorm_min;
     batch_size_ := 8;
     centroids_ := [Centroid (lit 1) 1000; Centroid (lit 2) 1;
                    Centroid (lit 3) 1; Centroid (lit 4) 1];
     merged_ := 0;
     unmerged_ := 4;
     min_ := lit 1;
     max_ := lit 4;
     sum_ := lit 1009;
     count_ := 1003 |}.

(** The same, merged: no centroid has absorbed another. *)
Definition heavy_head_digest : TDigest spec_float :=
  {| compression_ := denorm_min;
     batch_size_ := 8;
     centroids_ := [Centroid (lit 1) 1000; Centroid (lit 2) 1;
                    Centroid (lit 3) 1; Centroid (lit 4) 1];
     merged_ := 4;
     unmerged_ := 0;
     min_ := lit 1;
     max_ := lit 4;
     sum_ := lit 1009;
     count_ := 1003 |}.

(** A C library of which only the results the example needs are fixed, at
    their correctly rounded values. *)
Definition sampled_libm : Libm binary64 := {|
  std_sin x :=
    if (x =? lit 1.4292036732051034)%D then lit 0.9899924966004454
    else kNan;
  std_asin y :=
    if (y =? lit 0.99401794616151551)%D then lit 1.4613611630467895
    else if (y =? lit 0.99601196410767701)%D then lit 1.481457763415819
    else kNan
|}.

(** Abseil's formatting, fixed where the example needs it:
    [absl::StrCat] writes a [double] with six significant digits. *)
Definition sampled_format : AbslFormat binary64 := {|
  StrCat_double x :=
    if (x =? lit 123456.7)%D then "123457" else EmptyString;
  Format_17g _ := EmptyString
|}.

(** *** Definitions for the proofs in exact arithmetic *)

Section ExactDefinitions.

#[local] Open Scope Q_scope.

Definition interpolate (v1 v2 w1 w2 : Q) : Q :=
  LinearInterpolate v1 v2 w1 w2.

(** The anchors of the walk, on the centroids not yet visited. *)
Fixpoint walk_from (total : Z) (max : Q) (rest : list (CentroidPod Q))
    (quantile_count : Q) (w : walk_state Q) : walk_state Q :=
  match rest with
  | [] => w
  | this :: rest' =>
      if Qle_bool (this_count w) quantile_count then
        match rest' with
        | [] =>
            walk_from total max rest' quantile_count
              (WalkState (this_count w) (this_val w) (inject_Z total) max)
        | next :: _ =>
            walk_from total max rest' quantile_count
              (WalkState (this_count w) (this_val w)
                 (this_count w + inject_Z (count this + count next) / 2)
                 (mean next))
        end
      else w
  end.

(** The value [Quantile] interpolates from the variables of its loop. *)
Definition walk_result (quantile_count : Q) (w : walk_state Q) : Q :=
  interpolate (prev_val w) (this_val w)
    (this_count w - quantile_count) (quantile_count - prev_count w).

(** The loop invariant: [w] holds two consecutive anchors, the second one
    being the midpoint of the first centroid of [rest], or (count, max)
    when every centroid was visited; [before] is the count of the visited
    centroids. *)
Definition anchored (total : Z) (max : Q) (before : Z)
    (rest : list (CentroidPod Q)) (w : walk_state Q) : Prop :=
  prev_val w <= this_val w
  /\ prev_count w < this_count w
  /\ match rest with
     | [] => this_count w == inject_Z total /\ this_val w == max
     | this :: _ =>
         this_count w == inject_Z before + inject_Z (count this) / 2
         /\ this_val w == mean this
     end.

Definition mean_le (a b : CentroidPod Q) : Prop := mean a <= mean b.
Definition positive_count (c : CentroidPod Q) : Prop := (0 < count c)%Z.

(** The shape of a digest, whatever [count_] is. *)
Definition ingest_shape (t : TDigest Q) : Prop :=
  (merged_ t + unmerged_ t = Z.of_nat (length (centroids_ t)))%Z
  /\ (0 <= merged_ t)%Z /\ (0 <= unmerged_ t)%Z
  /\ Forall positive_count (centroids_ t)
  /\ (unmerged_ t = 0%Z ->
      match centroids_ t with
      | [] => True
      | front :: _ =>
          min_ t <= mean front
          /\ means_ascend_to (max_ t) (centroids_ t) = true
      end).

End ExactDefinitions.

(** [std::isnan] *)
Definition is_nan (x : spec_float) : bool :=
  match x with S754_nan => true | _ => false end.

(** *** Definitions for the properties of the buffer and the counters *)

(** The bookkeeping of the centroid buffer: [merged_ + unmerged_] is the
    number of centroids held, and neither is negative. *)
Definition buffer_consistent {D : Type} (t : TDigest D) : bool :=
  (merged_ t + unmerged_ t =? Z.of_nat (length (centroids_ t)))
  && (0 <=? merged_ t) && (0 <=? unmerged_ t).

(** [std::numeric_limits<int64_t>::max()] *)
Definition int64_max : Z := 2 ^ 63 - 1.

Section Range.

Context {FO : FloatOps}.

(** The centroid counts on which the sums the code forms in [int64_t] are
    the sums in [Z] of the model: every count is positive and their sum is
    at most 2^63 - 1.  Every integer sum of [DoMerge], [Cdf] and [Quantile]
    is a sum of counts of distinct centroids. *)
Definition counts_fit (t : TDigest double) : bool :=
  forallb (fun c => 0 <? count c) (centroids_ t)
  && (sum_counts (centroids_ t) <=? int64_max).

(** The counters of a digest in step and in the range of [int64_t]: the
    buffer bookkeeping is consistent, the counts fit, and [count_] is
    their sum. *)
Definition counters_in_range (t : TDigest double) : bool :=
  buffer_consistent t && counts_fit t
  && (count_ t =? sum_counts (centroids_ t)).

Context {AN : AbslNumbers FO}.

(** The counts the centroid tokens of a text carry, as [FromString] reads
    them: what [SimpleAtoi] returns on the part after the colon. *)
Definition centroid_counts (tokens : list string) : list Z :=
  omap (fun token =>
          match split_at_first ":" token with
          | Some (_, after) => SimpleAtoi after
          | None => None
          end) tokens.

End Range.

(** Abseil's formatting on the integers: a [double] that holds an integer
    of at most six digits is written with its decimal digits, by
    [absl::StrCat] and by [%0.17g] alike (the examples format integers
    only; on another value this instance writes its integer part). *)
Definition integer_format : AbslFormat exact := {|
  StrCat_double := fun x : Q => pretty (Qfloor x);
  Format_17g := fun x : Q => pretty (Qfloor x)
|}.

(** Compression 100 and the sample 2, pending, in exact arithmetic. *)
Definition single_sample_digest : TDigest Q :=
  @Digest Q 100%Q 800 [@Centroid Q 2%Q 1] 0 1 2%Q 2%Q 2%Q 1.

(** The samples 1e308 (four times) and 1.5e308 added at compression 100,
    pending: [sum_] has overflowed to infinity. *)
Definition huge_pending : TDigest spec_float :=
  {| compression_ := lit 100;
     batch_size_ := 800;
     centroids_ := [Centroid (lit 1e308) 4; Centroid (lit 1.5e308) 1];
     merged_ := 0;
     unmerged_ := 2;
     min_ := lit 1e308;
     max_ := lit 1.5e308;
     sum_ := S754_infinity false;
     count_ := 5 |}.

(** The same, merged: the two centroids stay apart. *)
Definition huge_digest : TDigest spec_float :=
  {| compression_ := lit 100;
     batch_size_ := 800;
     centroids_ := [Centroid (lit 1e308) 4; Centroid (lit 1.5e308) 1];
     merged_ := 2;
     unmerged_ := 0;
     min_ := lit 1e308;
     max_ := lit 1.5e308;
     sum_ := S754_infinity false;
     count_ := 5 |}.

(** A C library of which only the result the example at compression 100
    needs is fixed, at its correctly rounded value. *)
Definition sampled_libm_at_100 : Libm binary64 := {|
  std_sin x :=
    if (x =? lit (-1.5393804002589986))%D then lit (-0.9995065603657316)
    else kNan;
  std_asin y := kNan
|}.

End TDigestModel.

(** * Properties *)

(** ** The config loader *)

Module LoadConfigProperties.
Import LoadConfig.

(** C9.  The [bool] overload of [LoadConfigFromEnv] returns its default
    value whatever the variable's name and whatever the environment holds;
    in particular two runs that differ only in their environments return
    the same result. *)
Theorem LoadConfigFromEnv_bool_is_stub :
  forall (env1 env2 : Environment) (environment_variable : string)
         (default_value : bool),
    LoadConfigFromEnv_bool env1 environment_variable default_value
      = default_value
    /\ LoadConfigFromEnv_bool env1 environment_variable default_value
       = LoadConfigFromEnv_bool env2 environment_variable default_value.
Proof.
  intros env1 env2 name d. unfold LoadConfigFromEnv_bool. split; reflexivity.
Qed.

(** The sibling overloads do read the environment: the string loader
    distinguishes an environment that sets the variable from one that does
    not. *)
Lemma LoadConfigFromEnv_string_reads_env :
  LoadConfigFromEnv_string (<["GRPC_X" := "on"]> ∅) "GRPC_X" "off"
    = Returns "on"
  /\ LoadConfigFromEnv_string ∅ "GRPC_X" "off" = Returns "off".
Proof. split; reflexivity. Qed.

(** X7.  The environment is the last resort of [LoadConfig]: the call
    aborts exactly when there is no override, no flag value and the name of
    the environment variable is empty; and with an override or a flag
    value the result is the same whatever the environment, the variable
    name and the default are. *)
Theorem LoadConfig_environment_is_last_resort :
  forall (env : Environment) (from_flag : list string)
         (environment_variable : string) (override : option string)
         (default_value : string),
    (LoadConfig env from_flag environment_variable override default_value
     = CheckFailure
     <-> override = None /\ from_flag = []
         /\ environment_variable = EmptyString)
    /\ (override <> None \/ from_flag <> [] ->
        forall (env' : Environment) (environment_variable' : string)
               (default_value' : string),
          LoadConfig env' from_flag environment_variable' override
            default_value'
          = LoadConfig env from_flag environment_variable override
              default_value).
Proof.
  intros env from_flag name override default_value.
  unfold LoadConfig, LoadConfigFromEnv_string. split.
  - destruct override as [o|].
    { split; [discriminate | intros (H & _); discriminate H]. }
    destruct from_flag as [|f fs].
    2:{ split; [discriminate | intros (_ & H & _); discriminate H]. }
    destruct name as [|c name]; simpl.
    + split; [intros _; repeat split | reflexivity].
    + split; [discriminate | intros (_ & _ & H); discriminate H].
  - intros Hgiven env' name' default_value'.
    destruct override as [o|]; [reflexivity|].
    destruct from_flag as [|f fs]; [|reflexivity].
    destruct Hgiven as [H|H]; contradiction.
Qed.

End LoadConfigProperties.

(** ** The connectivity state tracker *)

Module ConnectivityProperties.
Import Connectivity.

Lemma reachable_run cs t : reachable t -> reachable (fst (run cs t)).
Proof.
  revert t. induction cs as [|c cs IH]; intros t Ht; simpl; [exact Ht|].
  destruct (call c t) as [t1 out1] eqn:E1.
  specialize (IH t1). destruct (run cs t1) as [t2 out2] eqn:E2. simpl in *.
  apply IH. replace t1 with (fst (call c t)) by (rewrite E1; reflexivity).
  constructor; exact Ht.
Qed.

(** The watcher set of a tracker in SHUTDOWN is empty: entering SHUTDOWN
    clears it and [AddWatcher] does not add to it there. *)
Lemma shutdown_has_no_watchers t :
  reachable t -> state_ t = GRPC_CHANNEL_SHUTDOWN -> watchers_ t = ∅.
Proof.
  induction 1 as [name s status | c t Ht IH]; [reflexivity|].
  destruct c as [s st r | s w | w]; simpl.
  - unfold SetState. destruct (decide (s = state_ t)) as [->|Hne]; simpl.
    + exact IH.
    + intros ->. rewrite decide_True by reflexivity. reflexivity.
  - unfold AddWatcher.
    destruct (decide (state_ t = GRPC_CHANNEL_SHUTDOWN)) as [Hs|Hs]; simpl.
    + intros _. exact (IH Hs).
    + intros Hs'. contradiction.
  - intros Hs. rewrite (IH Hs). apply leibniz_equiv, difference_disjoint.
    apply disjoint_empty_l.
Qed.

Lemma SetState_no_watchers s st r t :
  watchers_ t = ∅ ->
  snd (SetState s st r t) = []
  /\ watchers_ (fst (SetState s st r t)) = ∅
  /\ state_ (fst (SetState s st r t)) = s.
Proof.
  intros Hw. unfold SetState.
  destruct (decide (s = state_ t)) as [->|Hne]; simpl.
  - auto.
  - rewrite Hw, elements_empty. simpl. split; [reflexivity|].
    split; [destruct (decide _); reflexivity | reflexivity].
Qed.

Lemma run_SetState_no_watchers cs t :
  Forall is_SetState cs -> watchers_ t = ∅ ->
  snd (run cs t) = []
  /\ watchers_ (fst (run cs t)) = ∅
  /\ state_ (fst (run cs t)) = last_requested cs (state_ t).
Proof.
  revert t. induction cs as [|c cs IH]; intros t Hcs Hw; simpl; [auto|].
  inversion Hcs as [|c' cs' Hc Hcs']; subst.
  destruct c as [s st r | |]; simpl in Hc; try contradiction.
  simpl. destruct (SetState_no_watchers s st r t Hw) as (Ho & Hw1 & Hs1).
  destruct (SetState s st r t) as [t1 out1]; simpl in *. subst out1.
  destruct (IH t1 Hcs' Hw1) as (Ho2 & Hw2 & Hs2).
  destruct (run cs t1) as [t2 out2]; simpl in *. subst out2.
  rewrite Hs1 in Hs2. auto.
Qed.

(** C5 (as stated, refuted).  [SetState] has no guard on the current
    state: on a reachable tracker whose state is SHUTDOWN, a call of
    [SetState] with READY makes [state()] return READY. *)
Lemma SetState_leaves_SHUTDOWN :
  reachable shut_down_tracker
  /\ state shut_down_tracker = GRPC_CHANNEL_SHUTDOWN
  /\ state (fst (SetState GRPC_CHANNEL_READY Absl.OkStatus "reconnect"
                   shut_down_tracker))
     = GRPC_CHANNEL_READY.
Proof.
  split; [|split; reflexivity].
  unfold shut_down_tracker. apply reachable_run. constructor.
Qed.

(** C5 (amended).  On a reachable tracker whose state is SHUTDOWN the
    watcher set is empty, and every sequence of [SetState] calls from there
    issues no notification and leaves the watcher set empty; [state()]
    then returns the state the last call asked for (SHUTDOWN itself when
    there was no call): the tracker does not refuse to leave SHUTDOWN. *)
Theorem SetState_after_SHUTDOWN_is_silent :
  forall (t : ConnectivityStateTracker) (cs : list Call),
    reachable t ->
    state t = GRPC_CHANNEL_SHUTDOWN ->
    Forall is_SetState cs ->
    watchers_ t = ∅
    /\ snd (run cs t) = []
    /\ watchers_ (fst (run cs t)) = ∅
    /\ state (fst (run cs t)) = last_requested cs GRPC_CHANNEL_SHUTDOWN.
Proof.
  intros t cs Hr Hs Hcs. unfold state in *.
  pose proof (shutdown_has_no_watchers t Hr Hs) as Hw.
  destruct (run_SetState_no_watchers cs t Hcs Hw) as (Ho & Hw' & Hs').
  rewrite Hs in Hs'. auto.
Qed.

Lemma SetState_after_SHUTDOWN_is_silent_witness :
  snd (run [CallSetState GRPC_CHANNEL_SHUTDOWN Absl.OkStatus "again";
            CallSetState GRPC_CHANNEL_IDLE Absl.OkStatus "idle"]
           shut_down_tracker) = []
  /\ state (fst (run [CallSetState GRPC_CHANNEL_SHUTDOWN Absl.OkStatus "again";
                      CallSetState GRPC_CHANNEL_IDLE Absl.OkStatus "idle"]
                     shut_down_tracker)) = GRPC_CHANNEL_IDLE.
Proof.
  destruct (SetState_after_SHUTDOWN_is_silent shut_down_tracker
              [CallSetState GRPC_CHANNEL_SHUTDOWN Absl.OkStatus "again";
               CallSetState GRPC_CHANNEL_IDLE Absl.OkStatus "idle"])
    as (_ & Ho & _ & Hs).
  - unfold shut_down_tracker. apply reachable_run. constructor.
  - reflexivity.
  - repeat constructor.
  - split; [exact Ho | exact Hs].
Defined.

(** C6 (as stated, refuted).  With the hint SHUTDOWN, [AddWatcher] on a
    tracker in SHUTDOWN issues no notification at all. *)
Lemma AddWatcher_SHUTDOWN_hint_is_silent :
  state shut_down_tracker = GRPC_CHANNEL_SHUTDOWN
  /\ snd (AddWatcher GRPC_CHANNEL_SHUTDOWN 7%positive shut_down_tracker) = [].
Proof. split; reflexivity. Qed.

(** C6 (amended).  On a tracker whose state is SHUTDOWN, [AddWatcher]
    leaves the tracker (its watcher set included) unchanged; it notifies
    the watcher exactly once, with SHUTDOWN and the recorded status, when
    the hint differs from SHUTDOWN, and not at all when the hint is
    SHUTDOWN. *)
Theorem AddWatcher_under_SHUTDOWN :
  forall (t : ConnectivityStateTracker) (hint : grpc_connectivity_state)
         (watcher : Watcher),
    state t = GRPC_CHANNEL_SHUTDOWN ->
    fst (AddWatcher hint watcher t) = t
    /\ snd (AddWatcher hint watcher t)
       = if decide (hint = GRPC_CHANNEL_SHUTDOWN) then []
         else [Notify watcher GRPC_CHANNEL_SHUTDOWN (status_ t)].
Proof.
  intros t hint w Hs. unfold state in Hs. unfold AddWatcher. rewrite Hs.
  simpl. split; reflexivity.
Qed.

Lemma AddWatcher_under_SHUTDOWN_witness :
  fst (AddWatcher GRPC_CHANNEL_IDLE 7%positive shut_down_tracker)
    = shut_down_tracker
  /\ snd (AddWatcher GRPC_CHANNEL_IDLE 7%positive shut_down_tracker)
     = [Notify 7%positive GRPC_CHANNEL_SHUTDOWN Absl.OkStatus].
Proof.
  exact (AddWatcher_under_SHUTDOWN shut_down_tracker GRPC_CHANNEL_IDLE
           7%positive eq_refl).
Defined.

(** *** What a watcher observes *)

Lemma delivered_to_app w out1 out2 :
  delivered_to w (out1 ++ out2) = delivered_to w out1 ++ delivered_to w out2.
Proof. unfold delivered_to. apply omap_app. Qed.

Lemma delivered_to_fmap w (ws : list Watcher) s st :
  NoDup ws ->
  delivered_to w ((fun w' => Notify w' s st) <$> ws)
  = if decide (w ∈ ws) then [(s, st)] else [].
Proof.
  induction 1 as [|x ws Hx Hnd IH].
  - destruct (decide (w ∈ [])) as [Hin|_]; [|reflexivity].
    apply elem_of_nil in Hin. contradiction.
  - rewrite fmap_cons. unfold delivered_to in *. cbn [omap list_omap notified].
    change (list_omap ?f ?l) with (omap f l).
    simpl notified_state. simpl notified_status.
    rewrite IH. clear IH.
    destruct (decide (x = w)) as [->|Hne].
    + destruct (decide (w ∈ ws)); [contradiction|].
      destruct (decide (w ∈ w :: ws)) as [_|Hnin]; [reflexivity|].
      exfalso. apply Hnin, elem_of_cons. left. reflexivity.
    + destruct (decide (w ∈ ws)) as [Hin|Hnin];
        destruct (decide (w ∈ x :: ws)) as [Hin'|Hnin'];
        try reflexivity.
      * exfalso. apply Hnin', elem_of_cons. right. exact Hin.
      * exfalso. apply elem_of_cons in Hin' as [->|Hin']; contradiction.
Qed.

Lemma SetState_delivered w s st r t :
  delivered_to w (snd (SetState s st r t))
  = if decide (s = state_ t) then []
    else if decide (w ∈ watchers_ t) then [(s, st)] else [].
Proof.
  unfold SetState. destruct (decide (s = state_ t)); simpl; [reflexivity|].
  rewrite delivered_to_fmap by apply NoDup_elements.
  destruct (decide (w ∈ elements (watchers_ t))) as [Hin|Hnin].
  - rewrite decide_True by (apply elem_of_elements; exact Hin). reflexivity.
  - rewrite decide_False; [reflexivity|].
    intros Hin. apply Hnin, elem_of_elements. exact Hin.
Qed.

(** X1.  A state change is told to every attached watcher exactly once, and
    to nobody else; a call that asks for the current state tells nobody
    and changes nothing, the status included. *)
Theorem SetState_notifies_each_watcher_once :
  forall (s : grpc_connectivity_state) (st : Absl.Status) (r : string)
         (t : ConnectivityStateTracker) (w : Watcher),
    (s = state_ t ->
       SetState s st r t = (t, []))
    /\ (s <> state_ t ->
          delivered_to w (snd (SetState s st r t))
          = (if decide (w ∈ watchers_ t) then [(s, st)] else [])
          /\ length (snd (SetState s st r t)) = size (watchers_ t)
          /\ state_ (fst (SetState s st r t)) = s
          /\ status_ (fst (SetState s st r t)) = st).
Proof.
  intros s st r t w. split.
  - intros ->. unfold SetState. rewrite decide_True by reflexivity.
    reflexivity.
  - intros Hne. split.
    + rewrite SetState_delivered, decide_False by exact Hne. reflexivity.
    + unfold SetState. rewrite decide_False by exact Hne. simpl.
      rewrite length_fmap. auto.
Qed.

(** X2.  Whatever the call, a watcher is only ever told the state and the
    status the tracker holds when the call returns. *)
Theorem notifications_carry_current_state :
  forall (c : Call) (t : ConnectivityStateTracker) (n : Notification),
    n ∈ snd (call c t) ->
    notified_state n = state (fst (call c t))
    /\ notified_status n = status_ (fst (call c t)).
Proof.
  intros c t n. destruct c as [s st r | hint w | w]; simpl.
  - unfold SetState. destruct (decide (s = state_ t)); simpl.
    + intros Hn. apply elem_of_nil in Hn. contradiction.
    + intros Hn. apply list_elem_of_fmap in Hn as (w & -> & _).
      split; reflexivity.
  - unfold AddWatcher. intros Hn.
    assert (Hs : n = Notify w (state_ t) (status_ t)).
    { destruct (decide (hint = state_ t)).
      - apply elem_of_nil in Hn. contradiction.
      - apply list_elem_of_singleton in Hn. exact Hn. }
    subst n. unfold state.
    destruct (decide (state_ t = GRPC_CHANNEL_SHUTDOWN)); split; reflexivity.
  - intros Hn. apply elem_of_nil in Hn. contradiction.
Qed.

Lemma notifications_carry_current_state_witness :
  notified_state (Notify 1%positive GRPC_CHANNEL_READY Absl.OkStatus)
  = state (fst (call (CallAddWatcher GRPC_CHANNEL_IDLE 1%positive)
                  (Create "chan" GRPC_CHANNEL_READY Absl.OkStatus)))
  /\ notified_status (Notify 1%positive GRPC_CHANNEL_READY Absl.OkStatus)
     = status_ (fst (call (CallAddWatcher GRPC_CHANNEL_IDLE 1%positive)
                       (Create "chan" GRPC_CHANNEL_READY Absl.OkStatus))).
Proof.
  apply (notifications_carry_current_state
           (CallAddWatcher GRPC_CHANNEL_IDLE 1%positive)
           (Create "chan" GRPC_CHANNEL_READY Absl.OkStatus)).
  apply list_elem_of_singleton. reflexivity.
Defined.

Lemma call_other_watcher w c t :
  ~ adds w c -> w ∉ watchers_ t ->
  delivered_to w (snd (call c t)) = []
  /\ w ∉ watchers_ (fst (call c t)).
Proof.
  intros Hc Hw. destruct c as [s st r | hint w' | w']; simpl in *.
  - rewrite SetState_delivered.
    split.
    + destruct (decide (s = state_ t)); [reflexivity|].
      rewrite decide_False by exact Hw. reflexivity.
    + unfold SetState. destruct (decide (s = state_ t)); simpl; [exact Hw|].
      destruct (decide (s = GRPC_CHANNEL_SHUTDOWN)); [|exact Hw].
      apply not_elem_of_empty.
  - unfold AddWatcher. split.
    + destruct (decide (hint = state_ t)); simpl; [reflexivity|].
      unfold delivered_to. simpl. rewrite decide_False by exact Hc.
      reflexivity.
    + destruct (decide (state_ t = GRPC_CHANNEL_SHUTDOWN)); simpl;
        [exact Hw|].
      intros Hin. apply elem_of_union in Hin as [Hin|Hin]; [|contradiction].
      apply elem_of_singleton in Hin. congruence.
  - split; [reflexivity|].
    intros Hin. apply elem_of_difference in Hin as [Hin _]. contradiction.
Qed.

Lemma run_other_watcher w cs t :
  Forall (fun c => ~ adds w c) cs -> w ∉ watchers_ t ->
  delivered_to w (snd (run cs t)) = []
  /\ w ∉ watchers_ (fst (run cs t)).
Proof.
  revert t. induction cs as [|c cs IH]; intros t Hcs Hw; simpl.
  - split; [reflexivity | exact Hw].
  - apply Forall_cons in Hcs as [Hc Hcs].
    destruct (call_other_watcher w c t Hc Hw) as [Hd1 Hw1].
    destruct (call c t) as [t1 out1]; simpl in *.
    destruct (IH t1 Hcs Hw1) as [Hd2 Hw2].
    destruct (run cs t1) as [t2 out2]; simpl in *.
    rewrite delivered_to_app, Hd1, Hd2. split; [reflexivity | exact Hw2].
Qed.

(** X3.  A watcher that was removed is told nothing more, by no later call
    of the tracker and not by its destructor, unless it is added again. *)
Theorem RemoveWatcher_silences :
  forall (w : Watcher) (t : ConnectivityStateTracker) (cs : list Call),
    Forall (fun c => ~ adds w c) cs ->
    snd (RemoveWatcher w t) = []
    /\ delivered_to w (snd (run cs (fst (RemoveWatcher w t)))) = []
    /\ delivered_to w (Destroy (fst (run cs (fst (RemoveWatcher w t))))) = [].
Proof.
  intros w t cs Hcs. split; [reflexivity|].
  assert (Hw : w ∉ watchers_ (fst (RemoveWatcher w t))).
  { simpl. intros Hin. apply elem_of_difference in Hin as [_ Hin].
    apply Hin, elem_of_singleton. reflexivity. }
  destruct (run_other_watcher w cs _ Hcs Hw) as [Hd Hw'].
  split; [exact Hd|].
  unfold Destroy. destruct (decide _); [reflexivity|].
  rewrite delivered_to_fmap by apply NoDup_elements.
  rewrite decide_False; [reflexivity|].
  intros Hin. apply Hw', elem_of_elements. exact Hin.
Qed.

Lemma RemoveWatcher_silences_witness :
  delivered_to 1%positive
    (snd (run [CallSetState GRPC_CHANNEL_READY Absl.OkStatus "ready";
               CallAddWatcher GRPC_CHANNEL_IDLE 2%positive;
               CallSetState GRPC_CHANNEL_SHUTDOWN Absl.OkStatus "bye"]
              (fst (RemoveWatcher 1%positive
                      (fst (AddWatcher GRPC_CHANNEL_IDLE 1%positive
                              (Create "chan" GRPC_CHANNEL_IDLE
                                 Absl.OkStatus)))))))
  = [].
Proof.
  refine (proj1 (proj2 (RemoveWatcher_silences 1%positive _ _ _))).
  repeat constructor; simpl; try tauto; discriminate.
Defined.

Lemma call_keeps_watcher w c t :
  ~ concerns w c -> w ∈ watchers_ t ->
  delivered_to w (snd (call c t))
  = match c with
    | CallSetState s st _ =>
        if decide (s = state_ t) then [] else [(s, st)]
    | _ => []
    end.
Proof.
  intros Hc Hw. destruct c as [s st r | hint w' | w']; simpl in *.
  - rewrite SetState_delivered.
    destruct (decide (s = state_ t)); [reflexivity|].
    rewrite decide_True by exact Hw. reflexivity.
  - unfold AddWatcher.
    destruct (decide (hint = state_ t)); simpl; [reflexivity|].
    unfold delivered_to. simpl. rewrite decide_False by exact Hc.
    reflexivity.
  - reflexivity.
Qed.

Lemma state_changes_no_watcher w cs t :
  Forall (fun c => ~ concerns w c) cs -> w ∉ watchers_ t ->
  delivered_to w (snd (run cs t)) = [].
Proof.
  intros Hcs Hw. apply run_other_watcher; [|exact Hw].
  eapply Forall_impl; [exact Hcs|].
  intros c Hc Ha. apply Hc.
  destruct c; simpl in *; [contradiction | exact Ha | contradiction].
Qed.

(** X4.  An attached watcher that is neither removed nor added again is told
    every change of state, in order and once each, up to and including the
    entry into SHUTDOWN, and nothing else. *)
Theorem watcher_is_told_every_change :
  forall (w : Watcher) (cs : list Call) (t : ConnectivityStateTracker),
    w ∈ watchers_ t ->
    Forall (fun c => ~ concerns w c) cs ->
    delivered_to w (snd (run cs t)) = state_changes cs (state t).
Proof.
  intros w cs. unfold state.
  induction cs as [|c cs IH]; intros t Hw Hcs; [reflexivity|].
  apply Forall_cons in Hcs as [Hc Hcs]. simpl run.
  pose proof (call_keeps_watcher w c t Hc Hw) as Hd.
  destruct (call c t) as [t1 out1] eqn:Ecall; simpl in *.
  destruct (run cs t1) as [t2 out2] eqn:Erun; simpl.
  rewrite delivered_to_app, Hd.
  assert (Hrest : delivered_to w out2
                  = if decide (w ∈ watchers_ t1)
                    then state_changes cs (state_ t1) else []).
  { destruct (decide (w ∈ watchers_ t1)) as [Hin|Hnin].
    - specialize (IH t1 Hin Hcs). rewrite Erun in IH. exact IH.
    - pose proof (state_changes_no_watcher w cs t1 Hcs Hnin) as H.
      rewrite Erun in H. exact H. }
  rewrite Hrest. clear Hrest IH.
  destruct c as [s st r | hint w' | w']; simpl in *.
  - unfold SetState in Ecall.
    destruct (decide (s = state_ t)) as [->|Hne].
    + injection Ecall as <- <-. rewrite decide_True by exact Hw. reflexivity.
    + injection Ecall as <- <-. simpl in *.
      destruct (decide (s = GRPC_CHANNEL_SHUTDOWN)) as [->|Hs].
      * rewrite decide_False; [reflexivity|]. apply not_elem_of_empty.
      * rewrite decide_True by exact Hw. reflexivity.
  - assert (Hs : state_ t1 = state_ t /\ w ∈ watchers_ t1).
    { unfold AddWatcher in Ecall. injection Ecall as <- _.
      destruct (decide (state_ t = GRPC_CHANNEL_SHUTDOWN)); simpl;
        split; auto.
      apply elem_of_union. right. exact Hw. }
    destruct Hs as [-> Hin]. rewrite decide_True by exact Hin. reflexivity.
  - assert (Hs : state_ t1 = state_ t /\ w ∈ watchers_ t1).
    { unfold RemoveWatcher in Ecall. injection Ecall as <- _. simpl.
      split; [reflexivity|]. apply elem_of_difference. split; [exact Hw|].
      intros Hin. apply elem_of_singleton in Hin. congruence. }
    destruct Hs as [-> Hin]. rewrite decide_True by exact Hin. reflexivity.
Qed.

Lemma watcher_is_told_every_change_witness :
  delivered_to 1%positive
    (snd (run [CallSetState GRPC_CHANNEL_CONNECTING Absl.OkStatus "dial";
               CallSetState GRPC_CHANNEL_CONNECTING Absl.OkStatus "again";
               CallAddWatcher GRPC_CHANNEL_IDLE 2%positive;
               CallSetState GRPC_CHANNEL_SHUTDOWN Absl.OkStatus "bye";
               CallSetState GRPC_CHANNEL_READY Absl.OkStatus "late"]
              (fst (AddWatcher GRPC_CHANNEL_IDLE 1%positive
                      (Create "chan" GRPC_CHANNEL_IDLE Absl.OkStatus)))))
  = [(GRPC_CHANNEL_CONNECTING, Absl.OkStatus);
     (GRPC_CHANNEL_SHUTDOWN, Absl.OkStatus)].
Proof.
  refine (watcher_is_told_every_change 1%positive _ _ _ _).
  - apply elem_of_union. left. apply elem_of_singleton. reflexivity.
  - repeat constructor; simpl; try tauto; discriminate.
Defined.

(** X5.  The destructor tells SHUTDOWN, with the OK status, to every watcher
    still attached, once each, and to nobody else; on a tracker that
    entered SHUTDOWN before, that is to nobody, so that no watcher is told
    SHUTDOWN twice. *)
Theorem Destroy_notifies_attached_watchers :
  forall (t : ConnectivityStateTracker) (w : Watcher),
    reachable t ->
    delivered_to w (Destroy t)
    = (if decide (w ∈ watchers_ t)
       then [(GRPC_CHANNEL_SHUTDOWN, Absl.OkStatus)] else [])
    /\ (state t = GRPC_CHANNEL_SHUTDOWN -> Destroy t = []).
Proof.
  intros t w Hr. unfold Destroy, state.
  destruct (decide (state_ t = GRPC_CHANNEL_SHUTDOWN)) as [Hs|Hs].
  - rewrite (shutdown_has_no_watchers t Hr Hs).
    rewrite decide_False by apply not_elem_of_empty. split; reflexivity.
  - split; [|contradiction].
    rewrite delivered_to_fmap by apply NoDup_elements.
    destruct (decide (w ∈ elements (watchers_ t))) as [Hin|Hnin].
    + rewrite decide_True by (apply elem_of_elements; exact Hin).
      reflexivity.
    + rewrite decide_False; [reflexivity|].
      intros Hin. apply Hnin, elem_of_elements. exact Hin.
Qed.

Lemma Destroy_notifies_attached_watchers_witness :
  delivered_to 1%positive
    (Destroy (fst (AddWatcher GRPC_CHANNEL_IDLE 1%positive
                     (Create "chan" GRPC_CHANNEL_IDLE Absl.OkStatus))))
  = [(GRPC_CHANNEL_SHUTDOWN, Absl.OkStatus)].
Proof.
  refine (eq_trans
            (proj1 (Destroy_notifies_attached_watchers _ 1%positive _)) _).
  - apply (reachable_call (CallAddWatcher GRPC_CHANNEL_IDLE 1%positive)).
    constructor.
  - reflexivity.
Defined.

(** X6.  Removing a watcher undoes adding it: on a tracker that does not
    hold the watcher, [AddWatcher] followed by [RemoveWatcher] leaves the
    tracker as it was; and removing a watcher that is not attached changes
    nothing. *)
Theorem AddWatcher_RemoveWatcher_round_trip :
  forall (t : ConnectivityStateTracker) (hint : grpc_connectivity_state)
         (w : Watcher),
    w ∉ watchers_ t ->
    fst (RemoveWatcher w (fst (AddWatcher hint w t))) = t
    /\ fst (RemoveWatcher w t) = t.
Proof.
  intros [name s status ws] hint w Hw. simpl in Hw. unfold AddWatcher. simpl.
  assert (Hdiff : ws ∖ {[w]} = ws).
  { apply leibniz_equiv, difference_disjoint, disjoint_singleton_r.
    exact Hw. }
  split.
  - destruct (decide (s = GRPC_CHANNEL_SHUTDOWN)); simpl.
    + rewrite Hdiff. reflexivity.
    + f_equal. apply leibniz_equiv. intros x.
      rewrite elem_of_difference, elem_of_union, elem_of_singleton.
      split.
      * intros [[->|Hx] Hne]; [contradiction | exact Hx].
      * intros Hx. split; [right; exact Hx|]. intros ->. contradiction.
  - simpl. rewrite Hdiff. reflexivity.
Qed.

Lemma AddWatcher_RemoveWatcher_round_trip_witness :
  fst (RemoveWatcher 1%positive
         (fst (AddWatcher GRPC_CHANNEL_READY 1%positive
                 (Create "chan" GRPC_CHANNEL_IDLE Absl.OkStatus))))
  = Create "chan" GRPC_CHANNEL_IDLE Absl.OkStatus.
Proof.
  refine (proj1 (AddWatcher_RemoveWatcher_round_trip _ _ 1%positive _)).
  apply not_elem_of_empty.
Defined.

End ConnectivityProperties.

(** ** The t-digest *)

Module TDigestProperties.
Import TDigestModel.

(** Replace the argument of [f] in the goal by the closed value [x] it
    evaluates to. *)
Ltac at_argument f x :=
  match goal with
  | |- context [f ?y] =>
      replace y with x by (vm_compute; reflexivity)
  end.

(** The three cases of [within_one_ulp]. *)
Ltac by_cases_within_one_ulp H :=
  let E := fresh "E" in
  destruct H as [E|[E|E]]; rewrite E; clear E.

(** [lra] with the injections of integer variables taken as unknowns. *)
Ltac generalize_inject_Z :=
  repeat match goal with
  | |- context [inject_Z ?z] =>
      lazymatch z with
      | Z0 => fail | Zpos _ => fail | Zneg _ => fail
      | _ => let q := fresh "q" in set (q := inject_Z z) in *; clearbody q
      end
  | H : context [inject_Z ?z] |- _ =>
      lazymatch z with
      | Z0 => fail | Zpos _ => fail | Zneg _ => fail
      | _ => let q := fresh "q" in set (q := inject_Z z) in *; clearbody q
      end
  end.
Ltac qlra :=
  change (inject_Z 0) with 0%Q in *; change (inject_Z 1) with 1%Q in *;
  change (inject_Z 2) with 2%Q in *;
  generalize_inject_Z; unfold Qdiv in *; change (/ 2)%Q with (1 # 2)%Q in *;
  lra.

Ltac qnra :=
  change (inject_Z 0) with 0%Q in *; change (inject_Z 1) with 1%Q in *;
  change (inject_Z 2) with 2%Q in *;
  generalize_inject_Z; unfold Qdiv in *; change (/ 2)%Q with (1 # 2)%Q in *;
  nra.

(** *** Properties: the access results and list surgery *)

Lemma at_index_Some {A : Type} (v : list A) (i : nat) (a : A) :
  v !! i = Some a -> at_index v i = InBounds a.
Proof. intros H. unfold at_index. rewrite H. reflexivity. Qed.

Lemma bind_InBounds {A B : Type} (a : A) (f : A -> access B) :
  (x ← InBounds a; f x) = f a.
Proof. reflexivity. Qed.

Lemma take_middle {A : Type} (l1 l2 : list A) (x : A) :
  take (S (length l1)) (l1 ++ x :: l2) = l1 ++ [x].
Proof.
  rewrite (cons_middle x), app_assoc.
  replace (S (length l1)) with (length (l1 ++ [x]))
    by (rewrite length_app; simpl; lia).
  apply take_app_length.
Qed.

Lemma insert_middle {A : Type} (l1 l2 : list A) (x y : A) :
  <[length l1 := y]> (l1 ++ x :: l2) = l1 ++ y :: l2.
Proof.
  rewrite insert_app_r_alt by lia. rewrite Nat.sub_diag. reflexivity.
Qed.

(** *** Properties: the queries on a merged digest *)

Section MergedQueries.

Context {FO : FloatOps} {LM : Libm FO} {CO : CentroidOrder}.

#[local] Abbreviation TDigest := (TDigest double).

Lemma DoMerge_merged (t : TDigest) :
  unmerged_ t = 0 -> DoMerge t = InBounds t.
Proof. intros H. unfold DoMerge. rewrite H. reflexivity. Qed.

Lemma Cdf_of_merged (t : TDigest) (val : double) :
  unmerged_ t = 0 ->
  Cdf t val = r ← Cdf_merged t val; mret (t, r).
Proof. intros H. unfold Cdf. rewrite (DoMerge_merged t H). reflexivity. Qed.

Lemma Quantile_of_merged (t : TDigest) (quantile : double) :
  unmerged_ t = 0 ->
  Quantile t quantile = r ← Quantile_merged t quantile; mret (t, r).
Proof.
  intros H. unfold Quantile. rewrite (DoMerge_merged t H). reflexivity.
Qed.

(** What [Cdf] returns on a digest of one centroid, between min and max:
    the quotient by [min - max]. *)
Lemma Cdf_single_centroid (t : TDigest) (val : double) :
  unmerged_ t = 0 -> merged_ t = 1 ->
  (val <? min_ t)%D = false -> (val >=? max_ t)%D = false ->
  Cdf t val = InBounds (t, ((val - min_ t) / (min_ t - max_ t))%D).
Proof.
  intros Hu Hm Hlo Hhi. rewrite (Cdf_of_merged t val Hu).
  unfold Cdf_merged. rewrite Hm, Hlo, Hhi. reflexivity.
Qed.

End MergedQueries.

Lemma one_and_three_added (LM : Libm binary64) (CO : CentroidOrder) :
  (t ← Add (lit 1) 1 (Reset (lit 1)); Add (lit 3) 1 t)
  = InBounds one_and_three.
Proof. vm_compute. reflexivity. Qed.

Lemma one_centroid_digest_merged (LM : Libm binary64) (CO : CentroidOrder) :
  std_sin (kPi / of_int64 2)%D = lit 1 ->
  DoMerge one_and_three = InBounds one_centroid_digest.
Proof.
  intros H. unfold DoMerge.
  assert (Hq : CentroidToQuantile one_and_three (of_int64 0 + of_int64 1)%D
               = lit 1).
  { unfold CentroidToQuantile.
    match goal with
    | |- context [std_sin ?x] =>
        replace x with (kPi / of_int64 2)%D by (vm_compute; reflexivity)
    end.
    rewrite H. vm_compute. reflexivity. }
  rewrite Hq. vm_compute. reflexivity.
Qed.

Section CdfInBounds.

Context {FO : FloatOps} {LM : Libm FO} {CO : CentroidOrder}.

#[local] Abbreviation TDigest := (TDigest double).

Variable t : TDigest.
Variable val : double.
Hypothesis Hordered :
  Forall (fun c => ordered_with val (mean c)) (centroids_ t).

Lemma ordered_at (i : nat) c :
  centroids_ t !! i = Some c -> ordered_with val (mean c).
Proof.
  intros Hi. exact (Forall_lookup_1 _ _ _ _ Hordered Hi).
Qed.

Variable back : CentroidPod double.
Hypothesis Hback : last (centroids_ t) = Some back.
Hypothesis Hbelow : (val <? mean back)%D = true.

Lemma not_last (i : nat) c :
  centroids_ t !! i = Some c -> (val <? mean c)%D = false ->
  (S i < length (centroids_ t))%nat.
Proof.
  intros Hi Hc. apply lookup_lt_Some in Hi as Hlt.
  destruct (decide (S i = length (centroids_ t))) as [Heq|Hne]; [|lia].
  exfalso. rewrite last_lookup in Hback.
  replace (Nat.pred (length (centroids_ t))) with i in Hback by lia.
  rewrite Hi in Hback. inversion Hback; subst. congruence.
Qed.

Lemma Cdf_collapse_in_bounds (fuel i : nat) (accum_count : double) c :
  centroids_ t !! i = Some c -> (mean c =? val)%D = true ->
  (length (centroids_ t) <= fuel + i + 1)%nat ->
  exists r, Cdf_collapse fuel (centroids_ t) val i accum_count = InBounds r.
Proof.
  revert i accum_count c.
  induction fuel as [|fuel IH]; intros i acc c Hi Hc Hfuel.
  - exfalso. apply lookup_lt_Some in Hi as Hlt.
    destruct (ordered_at i c Hi) as (_ & _ & Heq & _).
    pose proof (not_last i c Hi (Heq Hc)). lia.
  - destruct (ordered_at i c Hi) as (_ & _ & Heq & _).
    pose proof (not_last i c Hi (Heq Hc)) as Hlt.
    destruct (lookup_lt_is_Some_2 _ _ Hlt) as [next Hnext].
    cbn [Cdf_collapse]. rewrite (at_index_Some _ _ _ Hnext), bind_InBounds.
    destruct (mean next =? val)%D eqn:En.
    + rewrite (at_index_Some _ _ _ Hi), bind_InBounds.
      apply (IH (S i) _ next Hnext En). lia.
    + eexists. reflexivity.
Qed.

Lemma Cdf_scan_in_bounds (remaining i : nat) (accum_count : double) c :
  centroids_ t !! i = Some c -> (mean c <=? val)%D = true ->
  (i + remaining = length (centroids_ t))%nat ->
  exists r, Cdf_scan remaining t val i accum_count = InBounds r.
Proof.
  revert i accum_count c.
  induction remaining as [|remaining IH]; intros i acc c Hi Hc Hlen.
  - apply lookup_lt_Some in Hi. lia.
  - cbn [Cdf_scan]. rewrite (at_index_Some _ _ _ Hi), bind_InBounds.
    destruct (mean c =? val)%D eqn:Eeq.
    + destruct (Cdf_collapse_in_bounds (length (centroids_ t)) i acc c Hi Eeq)
        as [r Hr]; [lia|].
      rewrite Hr, bind_InBounds. eexists. reflexivity.
    + rewrite Hc.
      destruct (ordered_at i c Hi) as (_ & Hasym & _ & _).
      pose proof (not_last i c Hi (Hasym Hc)) as Hlt.
      destruct (lookup_lt_is_Some_2 _ _ Hlt) as [next Hnext].
      rewrite !(at_index_Some _ _ _ Hnext), !bind_InBounds.
      destruct (val <? mean next)%D eqn:Elt.
      * eexists. reflexivity.
      * destruct (ordered_at (S i) next Hnext) as (Htot & _ & _ & _).
        apply (IH (S i) _ next Hnext (Htot Elt)). lia.
Qed.

End CdfInBounds.

(** Except on values that do not compare, [Cdf] reads no element past the
    end: on a digest whose centroids are all merged, if the comparisons
    between [val] and the means behave as a total order, [Cdf] returns. *)
Lemma Cdf_in_bounds {FO : FloatOps} {LM : Libm FO} {CO : CentroidOrder}
    (t : TDigest double) (val : double) :
  unmerged_ t = 0 ->
  merged_ t = Z.of_nat (length (centroids_ t)) ->
  Forall (fun c => ordered_with val (mean c)) (centroids_ t) ->
  exists r, Cdf t val = InBounds (t, r).
Proof.
  intros Hu Hm Hord. rewrite (Cdf_of_merged t val Hu).
  enough (exists r, Cdf_merged t val = InBounds r) as [r Hr]
    by (exists r; rewrite Hr; reflexivity).
  unfold Cdf_merged.
  destruct (merged_ t =? 0) eqn:E0; [eexists; reflexivity|].
  destruct (val <? min_ t)%D; [eexists; reflexivity|].
  destruct (val >=? max_ t)%D; [eexists; reflexivity|].
  destruct (merged_ t =? 1) eqn:E1; [eexists; reflexivity|].
  destruct (centroids_ t) as [|front rest] eqn:Ecs.
  { simpl in Hm. lia. }
  rewrite <- Ecs in *.
  assert (Hfront : centroids_ t !! 0%nat = Some front)
    by (rewrite Ecs; reflexivity).
  rewrite (at_index_Some _ _ _ Hfront), bind_InBounds.
  destruct (val <? mean front)%D eqn:Elt; [eexists; reflexivity|].
  destruct (last (centroids_ t)) as [back|] eqn:Eback.
  2:{ rewrite Ecs in Eback. apply last_None in Eback. discriminate. }
  destruct (mean back <=? val)%D eqn:Ege; [eexists; reflexivity|].
  assert (Hb : ordered_with val (mean back)).
  { rewrite last_lookup in Eback. eapply ordered_at; eauto. }
  destruct Hb as (_ & _ & _ & Hb).
  destruct (ordered_at t val Hord 0 front Hfront) as (Htot & _).
  eapply Cdf_scan_in_bounds; eauto.
Qed.

(** The comparisons of [spec_float]. *)
Lemma SFcompare_swap (x y : spec_float) :
  SFcompare y x = option_map CompOpp (SFcompare x y).
Proof.
  destruct x as [sx|sx| |sx mx ex], y as [sy|sy| |sy my ey]; simpl;
    try reflexivity;
    try (destruct sx; reflexivity); try (destruct sy; reflexivity);
    try (destruct sx, sy; reflexivity).
  assert (Hp : Pos.compare_cont Eq my mx
               = CompOpp (Pos.compare_cont Eq mx my))
    by (rewrite Pos.compare_cont_antisym; reflexivity).
  rewrite (Z.compare_antisym ex ey), Hp.
  destruct sx, sy; simpl; try reflexivity;
    destruct (ex ?= ey); simpl; try reflexivity;
    destruct (Pos.compare_cont Eq mx my); reflexivity.
Qed.

Lemma SFcompare_not_nan (x y : spec_float) :
  is_nan x = false -> is_nan y = false -> SFcompare x y <> None.
Proof. destruct x, y; simpl; congruence. Qed.

Lemma binary64_ordered (val x : spec_float) :
  is_nan val = false -> is_nan x = false ->
  ordered_with (FO := binary64) val x.
Proof.
  intros Hv Hx. unfold ordered_with. simpl.
  unfold SFltb, SFleb, SFeqb. rewrite (SFcompare_swap val x).
  pose proof (SFcompare_not_nan val x Hv Hx) as Hc.
  destruct (SFcompare val x) as [[| |]|]; simpl; try congruence; auto.
Qed.

Lemma exact_ordered (val x : Q) : ordered_with val x.
Proof.
  unfold ordered_with. simpl.
  destruct (Qle_bool x val) eqn:E; simpl; repeat split; try congruence.
  intros Heq. apply Qeq_bool_iff in Heq.
  assert (Qle_bool x val = true)
    by (apply Qle_bool_iff; rewrite Heq; apply Qle_refl).
  congruence.
Qed.

(** X13.  In binary64, [Cdf] of a value that is not a NaN, on a digest
    whose centroids are all merged and have no NaN among their means, reads
    no element past the end. *)
Lemma Cdf_in_bounds_binary64 (LM : Libm binary64) (CO : CentroidOrder)
    (t : TDigest spec_float)
    (val : spec_float) :
  unmerged_ t = 0 ->
  merged_ t = Z.of_nat (length (centroids_ t)) ->
  is_nan val = false ->
  forallb (fun c => negb (is_nan (mean c))) (centroids_ t) = true ->
  exists r, Cdf t val = InBounds (t, r).
Proof.
  intros Hu Hm Hv Hcs. apply (Cdf_in_bounds (FO := binary64)); auto.
  rewrite forallb_forall in Hcs. apply Forall_forall. intros c Hc.
  apply binary64_ordered; [exact Hv|].
  apply list_elem_of_In in Hc. specialize (Hcs c Hc).
  apply negb_true_iff in Hcs. exact Hcs.
Qed.

(** In exact arithmetic, so does [Cdf] of every value. *)
Lemma Cdf_in_bounds_exact (LM : Libm exact) (CO : CentroidOrder)
    (t : TDigest Q) (val : Q) :
  unmerged_ t = 0 ->
  merged_ t = Z.of_nat (length (centroids_ t)) ->
  exists r, Cdf t val = InBounds (t, r).
Proof.
  intros Hu Hm. apply (Cdf_in_bounds (FO := exact)); auto.
  apply Forall_forall. intros c _. apply exact_ordered.
Qed.

(** The digest of one centroid is also what [FromString] builds from its
    serialised form, whatever the scale function computes. *)
Lemma one_centroid_digest_parsed (LM : Libm binary64) (CO : CentroidOrder)
    (t : TDigest spec_float) :
  FromString (AN := decimal_digits) "1/1/3/4/2/2:2" t
  = InBounds (one_centroid_digest, Absl.OkStatus).
Proof. vm_compute. reflexivity. Qed.

(** C3 (the code diverges).  On the digest of the samples 1 and 3 merged
    into one centroid (min 1, max 3), which [FromString] builds from
    "1/1/3/4/2/2:2", [Cdf(2)] is -0.5 in binary64, while the linear
    interpolation between (min, 0) and (max, 1) is 0.5 there: the code
    divides by [min - max]. *)
Theorem Cdf_single_centroid_sign_inverted :
  forall (LM : Libm binary64) (CO : CentroidOrder)
           (t : TDigest spec_float),
    FromString (AN := decimal_digits) "1/1/3/4/2/2:2" t
      = InBounds (one_centroid_digest, Absl.OkStatus)
    /\ merged_ one_centroid_digest = 1
    /\ (min_ one_centroid_digest <? max_ one_centroid_digest)%D = true
    /\ (min_ one_centroid_digest <=? lit 2)%D = true
    /\ (lit 2 <? max_ one_centroid_digest)%D = true
    /\ Cdf one_centroid_digest (lit 2)
       = InBounds (one_centroid_digest, lit (-0.5))
    /\ ((lit 2 - min_ one_centroid_digest)
        / (max_ one_centroid_digest - min_ one_centroid_digest))%D
       = lit 0.5.
Proof.
  intros LM CO t. repeat split; vm_compute; reflexivity.
Qed.

(** Every comparison with a NaN is false. *)
Lemma SFltb_nan_l (x : spec_float) : SFltb S754_nan x = false.
Proof. reflexivity. Qed.

Lemma SFleb_nan_r (x : spec_float) : SFleb x S754_nan = false.
Proof. destruct x; reflexivity. Qed.

Lemma SFeqb_nan_r (x : spec_float) : SFeqb x S754_nan = false.
Proof. destruct x; reflexivity. Qed.

(** The scan of [Cdf] for a NaN stops at no centroid: it runs into the
    element after the last one. *)
Lemma Cdf_scan_NaN (LM : Libm binary64) (CO : CentroidOrder)
    (t : TDigest spec_float) (remaining i : nat) (accum_count : spec_float) :
  (0 < remaining)%nat ->
  (i + remaining = length (centroids_ t))%nat ->
  Cdf_scan remaining t kNan i accum_count = OutOfBounds.
Proof.
  revert i accum_count.
  induction remaining as [|remaining IH]; intros i acc Hpos Hlen; [lia|].
  destruct (lookup_lt_is_Some_2 (centroids_ t) i) as [this Hthis]; [lia|].
  cbn [Cdf_scan]. change (@double binary64) with spec_float in *.
  rewrite (at_index_Some _ _ _ Hthis), bind_InBounds.
  change (mean this =? kNan)%D with (SFeqb (mean this) S754_nan).
  rewrite SFeqb_nan_r.
  change (mean this <=? kNan)%D with (SFleb (mean this) S754_nan).
  rewrite SFleb_nan_r, bind_InBounds.
  destruct remaining as [|remaining'].
  - unfold at_index. rewrite lookup_ge_None_2 by lia. reflexivity.
  - destruct (lookup_lt_is_Some_2 (centroids_ t) (S i)) as [next Hnext];
      [lia|].
    rewrite (at_index_Some _ _ _ Hnext), bind_InBounds.
    apply IH; lia.
Qed.

(** C10 (the code diverges).  On every digest of at least two centroids,
    all merged, [Cdf(NaN)] reads [centroids_[size()]], one past the end:
    every comparison with a NaN is false, so no early branch returns, the
    scan stops at no centroid and at the last index it adds the count of
    [centroids_[i + 1]]. *)
Theorem Cdf_reads_past_end_on_NaN :
  forall (LM : Libm binary64) (CO : CentroidOrder) (t : TDigest spec_float),
    unmerged_ t = 0 ->
    merged_ t = Z.of_nat (length (centroids_ t)) ->
    (2 <= length (centroids_ t))%nat ->
    Cdf t kNan = OutOfBounds.
Proof.
  intros LM CO t Hu Hm Hlen.
  rewrite (Cdf_of_merged t kNan Hu). unfold Cdf_merged.
  change (@double binary64) with spec_float in *.
  rewrite (proj2 (Z.eqb_neq (merged_ t) 0)) by lia.
  rewrite (proj2 (Z.eqb_neq (merged_ t) 1)) by lia.
  change (kNan <? min_ t)%D with (SFltb S754_nan (min_ t)).
  change (kNan >=? max_ t)%D with (SFleb (max_ t) S754_nan).
  rewrite SFltb_nan_l, SFleb_nan_r.
  destruct (centroids_ t) as [|front rest] eqn:Ecs; [simpl in Hlen; lia|].
  rewrite <- Ecs in *.
  assert (Hfront : centroids_ t !! 0%nat = Some front)
    by (rewrite Ecs; reflexivity).
  rewrite (at_index_Some _ _ _ Hfront), bind_InBounds.
  change (kNan <? mean front)%D with (SFltb S754_nan (mean front)).
  rewrite SFltb_nan_l.
  destruct (last (centroids_ t)) as [back|] eqn:Eback.
  2:{ rewrite Ecs in Eback. apply last_None in Eback. discriminate. }
  change (kNan >=? mean back)%D with (SFleb (mean back) S754_nan).
  rewrite SFleb_nan_r.
  rewrite (Cdf_scan_NaN LM CO t) by lia. reflexivity.
Qed.

Lemma Cdf_reads_past_end_on_NaN_witness :
  data_model_invariant two_centroid_digest = true
  /\ Cdf (LM := sampled_libm) (CO := ascending_count) two_centroid_digest
       kNan
     = OutOfBounds.
Proof.
  split; [reflexivity|].
  apply (Cdf_reads_past_end_on_NaN sampled_libm ascending_count
           two_centroid_digest); [reflexivity | reflexivity | simpl; lia].
Defined.

Lemma StrSplit_nonempty (delimiter : ascii) (text : string) :
  StrSplit delimiter text <> [].
Proof.
  destruct text as [|c rest]; simpl; [discriminate|].
  destruct (Ascii.eqb c delimiter); [discriminate|].
  destruct (StrSplit delimiter rest); discriminate.
Qed.

(** C7 (amended).  On a string of five tokens c/min/max/sum/count that
    parse, with a compression that is not negative, [FromString] leaves the
    digest [Reset(c)] and returns an error exactly when one of min, max,
    sum, count is not zero; that digest is empty and its compression is
    [min(1e6, c)]. *)
Theorem FromString_declared_empty :
  forall (FO : FloatOps) (LM : Libm FO) (AN : AbslNumbers FO)
         (CO : CentroidOrder)
         (text tc tmin tmax tsum tcount : string) (t : TDigest double)
         (c min max sum : double) (count : Z),
    StrSplit "/" text = [tc; tmin; tmax; tsum; tcount] ->
    tc <> EmptyString ->
    SimpleAtod tc = Some c ->
    (c <? of_int64 0)%D = false ->
    SimpleAtod tmin = Some min ->
    SimpleAtod tmax = Some max ->
    SimpleAtod tsum = Some sum ->
    SimpleAtoi tcount = Some count ->
    exists status,
      FromString text t = InBounds (Reset c, status)
      /\ (Absl.ok status = false
          <-> ((min !=? of_int64 0) || (max !=? of_int64 0)
               || (sum !=? of_int64 0) || negb (count =? 0)%Z)%D = true)
      /\ Count (Reset c) = 0
      /\ centroids_ (Reset c) = []
      /\ Compression (Reset c) = std_min kMaxCompression c.
Proof.
  intros FO LM AN CO text tc tmin tmax tsum tcount t c mn mx sm cnt
         Hsplit Htc Hc Hneg Hmin Hmax Hsum Hcount.
  assert (Htext : String.eqb text EmptyString = false).
  { destruct text; [discriminate Hsplit | reflexivity]. }
  assert (Htc' : String.eqb tc EmptyString = false).
  { destruct tc; [contradiction | reflexivity]. }
  unfold FromString. rewrite Htext, Hsplit, Htc', Hc, Hneg.
  rewrite Hmin, Hmax, Hsum, Hcount. cbv beta iota zeta.
  destruct (mn !=? of_int64 0)%D eqn:E1; simpl.
  { eexists; split; [reflexivity|]. simpl. repeat split; auto. }
  destruct (mx !=? of_int64 0)%D eqn:E2; simpl.
  { eexists; split; [reflexivity|]. simpl. repeat split; auto. }
  destruct (cnt =? 0)%Z eqn:E3; simpl.
  2:{ eexists; split; [reflexivity|]. simpl.
      destruct (sm !=? of_int64 0)%D; repeat split; auto. }
  destruct (sm !=? of_int64 0)%D eqn:E4; simpl.
  { eexists; split; [reflexivity|]. simpl.
    repeat split; auto. }
  eexists; split; [reflexivity|]. simpl.
  repeat split; auto; discriminate.
Qed.

Lemma FromString_declared_empty_witness :
  exists status,
    FromString (LM := linear_scale) (CO := ascending_count)
      (AN := decimal_digits)
      "100/0/0/0/0" one_two_three_digest
    = InBounds (Reset (100%Q : @double exact), status)
    /\ Absl.ok status = true.
Proof.
  destruct (FromString_declared_empty exact linear_scale decimal_digits
              ascending_count "100/0/0/0/0" "100" "0" "0" "0" "0"
              one_two_three_digest
              (100%Q : @double exact) (0%Q : @double exact)
              (0%Q : @double exact) (0%Q : @double exact) 0)
    as (status & Hrun & Hiff & _); try reflexivity; try discriminate.
  exists status. split; [exact Hrun|].
  destruct (Absl.ok status); [reflexivity|].
  destruct Hiff as [Hiff _]. specialize (Hiff eq_refl). discriminate Hiff.
Defined.

(** C7 (as stated, refuted).  From "2000000/0/0/0/0" [FromString] returns
    OK and an empty digest of compression 1000000, not 2000000. *)
Lemma FromString_caps_compression :
  exists t' : TDigest spec_float,
    (forall (LM : Libm binary64) (CO : CentroidOrder)
           (t : TDigest spec_float),
        FromString (AN := decimal_digits) "2000000/0/0/0/0" t
        = InBounds (t', Absl.OkStatus))
    /\ Count t' = 0
    /\ Compression t' = lit 1000000
    /\ (Compression t' =? lit 2000000)%D = false.
Proof.
  exists (Reset (FO := binary64) (lit 2000000)). split; [|split; [|split]].
  - intros LM CO t. vm_compute. reflexivity.
  - reflexivity.
  - vm_compute. reflexivity.
  - vm_compute. reflexivity.
Qed.

(** C1 (the code diverges).  [ToString] writes the compression with
    [absl::StrCat], that is with six significant digits, while min, max,
    sum and the means are written with [%0.17g].  With Abseil's results at
    the strings involved, the empty digest of compression 123456.7 is
    written "123457/0/0/0/0", which [FromString] reads as the empty digest
    of compression 123457. *)
Theorem ToString_rounds_compression :
  forall (LM : Libm binary64) (CO : CentroidOrder)
         (AN : AbslNumbers binary64) (AF : AbslFormat binary64)
         (t : TDigest spec_float),
    StrCat_double (lit 123456.7) = "123457" ->
    SimpleAtod "123457" = Some (lit 123457) ->
    SimpleAtod "0" = Some (lit 0) ->
    SimpleAtoi "0" = Some 0 ->
    ToString (Reset (lit 123456.7))
      = InBounds (Reset (lit 123456.7), "123457/0/0/0/0")
    /\ FromString "123457/0/0/0/0" t
       = InBounds (Reset (lit 123457), Absl.OkStatus)
    /\ Compression (Reset (lit 123456.7)) = lit 123456.7
    /\ Compression (Reset (lit 123457)) = lit 123457
    /\ (lit 123457 =? lit 123456.7)%D = false.
Proof.
  intros LM CO AN AF t Hcat Hc H0 Hi.
  split; [|split; [|repeat split; vm_compute; reflexivity]].
  - unfold ToString.
    change (count_ (Reset (lit 123456.7))) with 0.
    change (compression_ (Reset (lit 123456.7)))
      with (std_min kMaxCompression (lit 123456.7)).
    replace (std_min kMaxCompression (lit 123456.7)) with (lit 123456.7)
      by (vm_compute; reflexivity).
    rewrite Hcat. reflexivity.
  - unfold FromString.
    change (StrSplit "/" "123457/0/0/0/0") with ["123457"; "0"; "0"; "0"; "0"].
    cbn [String.eqb Ascii.eqb Bool.eqb].
    rewrite Hc, H0, Hi.
    replace (lit 123457 <? of_int64 0)%D with false by (vm_compute; reflexivity).
    replace (lit 0 !=? of_int64 0)%D with false by (vm_compute; reflexivity).
    reflexivity.
Qed.

Section SampledFormat.

#[local] Existing Instance sampled_libm.
#[local] Existing Instance ascending_count.
#[local] Existing Instance decimal_digits.
#[local] Existing Instance sampled_format.

Lemma ToString_rounds_compression_witness :
  ToString (Reset (lit 123456.7))
    = InBounds (Reset (lit 123456.7), "123457/0/0/0/0")
  /\ FromString "123457/0/0/0/0" (Reset (lit 123456.7))
     = InBounds (Reset (lit 123457), Absl.OkStatus)
  /\ Compression (Reset (lit 123456.7)) = lit 123456.7
  /\ Compression (Reset (lit 123457)) = lit 123457
  /\ (lit 123457 =? lit 123456.7)%D = false.
Proof.
  apply (ToString_rounds_compression sampled_libm ascending_count
           decimal_digits sampled_format);
    vm_compute; reflexivity.
Defined.

End SampledFormat.

Section ExactQuantile.

#[local] Open Scope Q_scope.

Lemma interpolate_between (v1 v2 w1 w2 : Q) :
  v1 <= v2 -> 0 <= w1 -> 0 <= w2 -> 0 < w1 + w2 ->
  v1 <= interpolate v1 v2 w1 w2 /\ interpolate v1 v2 w1 w2 <= v2.
Proof.
  intros Hv H1 H2 Hs. unfold interpolate, LinearInterpolate. simpl. split.
  - apply Qle_shift_div_l; [exact Hs|]. nra.
  - apply Qle_shift_div_r; [exact Hs|]. nra.
Qed.

Lemma interpolate_monotone (v1 v2 p t x y : Q) :
  v1 <= v2 -> p < t -> p <= x -> x <= y -> y <= t ->
  interpolate v1 v2 (t - x) (x - p) <= interpolate v1 v2 (t - y) (y - p).
Proof.
  intros Hv Hpt Hpx Hxy Hyt. unfold interpolate, LinearInterpolate. simpl.
  assert (Hd1 : t - x + (x - p) == t - p) by ring.
  assert (Hd2 : t - y + (y - p) == t - p) by ring.
  rewrite Hd1, Hd2. unfold Qdiv. apply Qmult_le_compat_r.
  - nra.
  - apply Qinv_le_0_compat. lra.
Qed.

Lemma Quantile_walk_from (t : TDigest Q) (visited rest : list (CentroidPod Q))
    (quantile_count : Q) (w : walk_state Q) :
  centroids_ t = visited ++ rest ->
  Quantile_walk (length rest) t quantile_count
    (length visited) w
  = InBounds (walk_from (count_ t) (max_ t) rest quantile_count w).
Proof.
  revert visited w. induction rest as [|this rest' IH]; intros visited w Hcs.
  - reflexivity.
  - cbn [Quantile_walk walk_from length]. simpl d_ltb.
    change (@double exact) with Q.
    destruct (Qle_bool (this_count w) quantile_count); simpl negb;
      [|reflexivity].
    assert (Hcs' : centroids_ t = (visited ++ [this]) ++ rest')
      by (rewrite <- app_assoc; exact Hcs).
    assert (Hlen : S (length visited) = length (visited ++ [this]))
      by (rewrite length_app; simpl; lia).
    assert (Hthis : centroids_ t !! length visited = Some this)
      by (rewrite Hcs; apply list_lookup_middle; reflexivity).
    destruct rest' as [|next rest''].
    + rewrite decide_True
        by (rewrite Hcs, length_app; simpl; lia).
      rewrite Hlen. apply (IH (visited ++ [this]) _ Hcs').
    + rewrite decide_False
        by (rewrite Hcs, length_app; simpl; lia).
      assert (Hnext : centroids_ t !! S (length visited) = Some next).
      { rewrite Hlen, Hcs'. apply list_lookup_middle. reflexivity. }
      rewrite (at_index_Some _ _ _ Hthis), bind_InBounds.
      rewrite (at_index_Some _ _ _ Hnext), bind_InBounds.
      rewrite Hlen. apply (IH (visited ++ [this]) _ Hcs').
Qed.

Lemma means_ascend_to_head (max : Q) (this : CentroidPod Q) rest :
  means_ascend_to max (this :: rest) = true ->
  mean this <= max.
Proof.
  revert this. induction rest as [|next rest IH]; intros this H.
  - simpl in H. apply Qle_bool_iff. exact H.
  - cbn [means_ascend_to] in H. apply andb_true_iff in H as [H1 H2].
    simpl in H1. apply Qle_bool_iff in H1.
    specialize (IH next H2). lra.
Qed.

Section Walk.

Variable total : Z.
Variable max : Q.

(** One step of the loop keeps the invariant. *)
Lemma anchored_step (before : Z) (this : CentroidPod Q) rest
    (w : walk_state Q) :
  anchored total max before (this :: rest) w ->
  Forall (fun c => (0 < count c)%Z) (this :: rest) ->
  means_ascend_to max (this :: rest) = true ->
  total = (before + sum_counts (this :: rest))%Z ->
  anchored total max (before + count this) rest
    match rest with
    | [] => WalkState (this_count w) (this_val w) (inject_Z total) max
    | next :: _ =>
        WalkState (this_count w) (this_val w)
          (this_count w + inject_Z (count this + count next) / 2)
          (mean next)
    end.
Proof.
  intros (Hv & Hc & Htc & Htv) Hpos Hasc Htot.
  apply Forall_cons in Hpos as [Hthis Hrest].
  assert (0 < inject_Z (count this)) as Hq
    by (rewrite <- (Zlt_Qlt 0); exact Hthis).
  destruct rest as [|next rest']; unfold anchored; cbn [prev_val prev_count
    this_val this_count].
  - pose proof (means_ascend_to_head _ _ _ Hasc) as Hm.
    assert (Ht : inject_Z total == inject_Z before + inject_Z (count this)).
    { rewrite <- inject_Z_plus. simpl in Htot.
      change (@double exact) with Q in *. rewrite Htot.
      replace (before + (count this + 0))%Z with (before + count this)%Z
        by lia. reflexivity. }
    repeat split; try reflexivity; qlra.
  - apply Forall_cons in Hrest as [Hnext _].
    assert (0 < inject_Z (count next)) as Hq'
      by (rewrite <- (Zlt_Qlt 0); exact Hnext).
    cbn [means_ascend_to] in Hasc. apply andb_true_iff in Hasc as [H1 _].
    simpl in H1. apply Qle_bool_iff in H1.
    rewrite !inject_Z_plus. repeat split; try reflexivity; qlra.
Qed.

Lemma walk_from_bounds (rest : list (CentroidPod Q)) :
  forall (before : Z) (w : walk_state Q) (qc : Q),
    anchored total max before rest w ->
    Forall (fun c => (0 < count c)%Z) rest ->
    means_ascend_to max rest = true ->
    total = (before + sum_counts rest)%Z ->
    prev_count w <= qc -> qc <= inject_Z total ->
    prev_val w <= walk_result qc (walk_from total max rest qc w)
    /\ walk_result qc (walk_from total max rest qc w) <= max.
Proof.
  induction rest as [|this rest' IH];
    intros before w qc Hw Hpos Hasc Htot Hlo Hhi.
  - destruct Hw as (Hv & Hc & Htc & Htv). simpl. unfold walk_result.
    destruct (interpolate_between (prev_val w) (this_val w)
                (this_count w - qc) (qc - prev_count w)); lra.
  - cbn [walk_from].
    destruct (Qle_bool (this_count w) qc) eqn:Ecmp.
    + apply Qle_bool_iff in Ecmp.
      pose proof (anchored_step before this rest' w Hw Hpos Hasc Htot) as Hw'.
      destruct Hw as (Hv & _).
      assert (Hpos' : Forall (fun c => (0 < count c)%Z) rest')
        by (apply Forall_cons in Hpos as [_ H]; exact H).
      assert (Hasc' : means_ascend_to max rest' = true).
      { destruct rest'; [reflexivity|]. cbn [means_ascend_to] in Hasc.
        apply andb_true_iff in Hasc as [_ H]. exact H. }
      assert (Htot' : total = (before + count this + sum_counts rest')%Z)
        by (simpl in Htot; lia).
      destruct rest' as [|next rest''];
        (edestruct (IH _ _ qc Hw' Hpos' Hasc' Htot') as [Hl Hu];
         [exact Ecmp | exact Hhi |]); cbn [prev_val] in Hl; split;
          try exact Hu; lra.
    + assert (qc < this_count w) as Hlt.
      { apply Qnot_le_lt. intros H. apply Qle_bool_iff in H. congruence. }
      pose proof (means_ascend_to_head _ _ _ Hasc) as Hm.
      destruct Hw as (Hv & Hc & Htc & Htv). unfold walk_result.
      destruct (interpolate_between (prev_val w) (this_val w)
                  (this_count w - qc) (qc - prev_count w)); lra.
Qed.

Lemma walk_from_monotone (rest : list (CentroidPod Q)) :
  forall (before : Z) (w : walk_state Q) (qc1 qc2 : Q),
    anchored total max before rest w ->
    Forall (fun c => (0 < count c)%Z) rest ->
    means_ascend_to max rest = true ->
    total = (before + sum_counts rest)%Z ->
    prev_count w <= qc1 -> qc1 <= qc2 -> qc2 <= inject_Z total ->
    walk_result qc1 (walk_from total max rest qc1 w)
    <= walk_result qc2 (walk_from total max rest qc2 w).
Proof.
  induction rest as [|this rest' IH];
    intros before w qc1 qc2 Hw Hpos Hasc Htot Hlo H12 Hhi.
  - destruct Hw as (Hv & Hc & Htc & Htv). simpl. unfold walk_result.
    apply interpolate_monotone; lra.
  - cbn [walk_from].
    pose proof (anchored_step before this rest' w Hw Hpos Hasc Htot) as Hw'.
    assert (Hpos' : Forall (fun c => (0 < count c)%Z) rest')
      by (apply Forall_cons in Hpos as [_ H]; exact H).
    assert (Hasc' : means_ascend_to max rest' = true).
    { destruct rest'; [reflexivity|]. cbn [means_ascend_to] in Hasc.
      apply andb_true_iff in Hasc as [_ H]. exact H. }
    assert (Htot' : total = (before + count this + sum_counts rest')%Z)
      by (simpl in Htot; lia).
    destruct (Qle_bool (this_count w) qc1) eqn:E1.
    + apply Qle_bool_iff in E1.
      assert (E2 : Qle_bool (this_count w) qc2 = true)
        by (apply Qle_bool_iff; lra).
      rewrite E2.
      destruct rest' as [|next rest''];
        apply (IH _ _ qc1 qc2 Hw' Hpos' Hasc' Htot');
          cbn [prev_count]; lra.
    + assert (qc1 < this_count w) as Hlt.
      { apply Qnot_le_lt. intros H. apply Qle_bool_iff in H. congruence. }
      destruct (Qle_bool (this_count w) qc2) eqn:E2.
      * apply Qle_bool_iff in E2.
        assert (Hleft : walk_result qc1 w <= this_val w).
        { destruct Hw as (Hv & Hc & _). unfold walk_result.
          destruct (interpolate_between (prev_val w) (this_val w)
                      (this_count w - qc1) (qc1 - prev_count w)); lra. }
        destruct rest' as [|next rest''];
          (edestruct (walk_from_bounds _ _ _ qc2 Hw' Hpos' Hasc' Htot')
            as [Hl _]; [exact E2 | exact Hhi |]); cbn [prev_val] in Hl; lra.
      * assert (qc2 < this_count w) as Hlt2.
        { apply Qnot_le_lt. intros H. apply Qle_bool_iff in H. congruence. }
        destruct Hw as (Hv & Hc & _). unfold walk_result.
        apply interpolate_monotone; lra.
Qed.

End Walk.

Lemma sum_counts_nonneg (cs : list (CentroidPod Q)) :
  Forall (fun c => (0 < count c)%Z) cs ->
  (0 <= sum_counts cs)%Z.
Proof.
  induction 1 as [|c cs Hc _ IH]; simpl; [lia|].
  change (@double exact) with Q in *. lia.
Qed.

Lemma data_model_invariant_exact (t : TDigest Q) :
  data_model_invariant t = true ->
  unmerged_ t = 0%Z
  /\ merged_ t = Z.of_nat (length (centroids_ t))
  /\ Forall (fun c => (0 < count c)%Z) (centroids_ t)
  /\ count_ t = sum_counts (centroids_ t)
  /\ (exists front rest,
        centroids_ t = front :: rest /\ min_ t <= mean front)
  /\ means_ascend_to (max_ t) (centroids_ t) = true.
Proof.
  unfold data_model_invariant. intros H.
  repeat (apply andb_true_iff in H as [H ?]).
  change (@double exact) with Q in *.
  repeat split; try lia; try assumption.
  - apply Forall_forall. intros c Hc. apply list_elem_of_In in Hc.
    match goal with
    | Hf : forallb _ _ = true |- _ =>
        rewrite forallb_forall in Hf; specialize (Hf c Hc)
    end.
    lia.
  - destruct (centroids_ t) as [|front rest]; [discriminate|].
    exists front, rest. split; [reflexivity|].
    apply Qle_bool_iff. assumption.
Qed.

(** In exact arithmetic [Quantile] is non-decreasing on a digest that
    satisfies the invariants of the data model. *)
Lemma Quantile_monotone_merged (LM : Libm exact) (CO : CentroidOrder)
    (t : TDigest Q)
    (q1 q2 : Q) :
  data_model_invariant t = true ->
  0 <= q1 -> q1 <= q2 -> q2 <= 1 ->
  exists v1 v2 : Q,
    Quantile t q1 = InBounds (t, v1)
    /\ Quantile t q2 = InBounds (t, v2)
    /\ v1 <= v2.
Proof.
  intros Hinv H0 H12 H1.
  destruct (data_model_invariant_exact t Hinv)
    as (Hu & Hm & Hpos & Hcount & (front & rest & Hcs & Hmin) & Hasc).
  rewrite !(Quantile_of_merged t _ Hu).
  unfold Quantile_merged. change (@double exact) with Q in *.
  assert (Hm0 : (merged_ t =? 0)%Z = false)
    by (apply Z.eqb_neq; rewrite Hm, Hcs; simpl; lia).
  rewrite Hm0.
  assert (Hfront : centroids_ t !! 0%nat = Some front)
    by (rewrite Hcs; reflexivity).
  change (@double exact) with Q in *.
  rewrite (at_index_Some _ _ _ Hfront), !bind_InBounds.
  destruct (merged_ t =? 1)%Z.
  { exists (mean front), (mean front). repeat split. apply Qle_refl. }
  pose proof (sum_counts_nonneg _ Hpos) as Hn. rewrite <- Hcount in Hn.
  assert (Hn' : 0 <= inject_Z (count_ t))
    by (rewrite <- (Zle_Qle 0); exact Hn).
  set (w0 := WalkState _ _ _ _).
  assert (Hw0 : anchored (count_ t) (max_ t) 0 (centroids_ t) w0).
  { unfold anchored, w0. cbn [prev_val prev_count this_val this_count].
    rewrite Hcs. rewrite Hcs in Hpos.
    apply Forall_cons in Hpos as [Hpos _].
    assert (0 < inject_Z (count front)) as Hq
      by (rewrite <- (Zlt_Qlt 0); exact Hpos).
    simpl. repeat split; try reflexivity; try assumption; qlra. }
  rewrite !(Quantile_walk_from t [] (centroids_ t) _ w0 eq_refl).
  rewrite !bind_InBounds.
  eexists. eexists. split; [reflexivity|]. split; [reflexivity|].
  simpl d_mul.
  apply (walk_from_monotone (count_ t) (max_ t) (centroids_ t) 0 w0
           (q1 * inject_Z (count_ t)) (q2 * inject_Z (count_ t))
           Hw0 Hpos Hasc).
  - rewrite Hcount. lia.
  - unfold w0. cbn [prev_count]. simpl. qnra.
  - qnra.
  - qnra.
Qed.

End ExactQuantile.

Section GreedyMerge.

Context {FO : FloatOps} {LM : Libm FO} {CO : CentroidOrder}.

#[local] Abbreviation CentroidPod := (CentroidPod double).
#[local] Abbreviation TDigest := (TDigest double).
#[local] Abbreviation merge_state := (merge_state double).

Lemma greedy_merge_nonempty t total last_merged unmerged mc ql :
  greedy_merge t total last_merged unmerged mc ql <> [].
Proof.
  revert last_merged mc ql.
  induction unmerged as [|u unmerged IH]; intros lm mc ql; simpl.
  - discriminate.
  - destruct (_ <=? _)%D; [apply IH | discriminate].
Qed.

(** The loop of [DoMerge] computes [greedy_merge] in place: when the
    buffer holds the finished centroids, the last merged one, slots already
    consumed, and the unmerged centroids, in this order. *)
Lemma DoMerge_loop_greedy (t : TDigest) (total : Z)
    (unmerged : list CentroidPod) :
  forall (finished consumed : list CentroidPod) (last_merged : CentroidPod)
         (s : merge_state),
    ms_centroids s = finished ++ last_merged :: consumed ++ unmerged ->
    ms_last_merged s = length finished ->
    ms_first_unmerged s = (length finished + 1 + length consumed)%nat ->
    ms_merged s = Z.of_nat (length finished + 1) ->
    ms_sum s = rebuilt_sum finished ->
    exists s',
      DoMerge_loop (length unmerged) t total s = InBounds s'
      /\ ms_merged s' = Z.of_nat (S (ms_last_merged s'))
      /\ (S (ms_last_merged s') <= length (ms_centroids s'))%nat
      /\ take (S (ms_last_merged s')) (ms_centroids s')
         = finished ++ greedy_merge t total last_merged unmerged
                         (ms_merged_count s) (ms_q_limit s)
      /\ ms_sum s'
         = rebuilt_sum (take (ms_last_merged s') (ms_centroids s')).
Proof.
  induction unmerged as [|u unmerged IH];
    intros finished consumed lm s Hcs Hlast Hfirst Hmerged Hsum.
  - exists s. split; [reflexivity|]. rewrite Hlast, Hcs, Hmerged.
    rewrite take_middle, length_app, take_app_length. simpl.
    repeat split; try lia. exact Hsum.
  - cbn [DoMerge_loop length greedy_merge]. unfold DoMerge_step.
    assert (Hu : ms_centroids s !! ms_first_unmerged s = Some u).
    { rewrite Hcs, Hfirst.
      replace (finished ++ lm :: consumed ++ u :: unmerged)
        with ((finished ++ lm :: consumed) ++ u :: unmerged)
        by (rewrite <- app_assoc; reflexivity).
      apply list_lookup_middle. rewrite length_app. simpl. lia. }
    assert (Hlm : ms_centroids s !! ms_last_merged s = Some lm).
    { rewrite Hcs, Hlast. apply list_lookup_middle. reflexivity. }
    rewrite (at_index_Some _ _ _ Hu), bind_InBounds.
    rewrite (at_index_Some _ _ _ Hlm), bind_InBounds.
    destruct (of_int64 (count u + ms_merged_count s) <=? ms_q_limit s)%D.
    + rewrite bind_InBounds.
      match goal with
      | |- context [DoMerge_loop _ _ _ ?st] =>
          destruct (IH finished (consumed ++ [u]) (absorb lm u) st)
            as (s' & Hrun & H);
            [ | | | | | exists s'; split; [exact Hrun | exact H] ]
      end;
        cbn [ms_centroids ms_last_merged ms_first_unmerged ms_merged ms_sum].
      * rewrite Hcs, Hlast, insert_middle, <- app_assoc. reflexivity.
      * exact Hlast.
      * rewrite Hfirst, length_app. simpl. lia.
      * exact Hmerged.
      * exact Hsum.
    + rewrite decide_True.
      2:{ apply lookup_lt_Some in Hu. lia. }
      rewrite bind_InBounds. fold (next_q_limit t total (ms_merged_count s)).
      destruct consumed as [|g consumed].
      * match goal with
        | |- context [DoMerge_loop _ _ _ ?st] =>
            destruct (IH (finished ++ [lm]) [] u st)
              as (s' & Hrun & H1 & H2 & H3 & H4);
              [ | | | | | exists s'; split; [exact Hrun|]; split; [exact H1|];
                          split; [exact H2|]; split; [|exact H4] ]
        end;
          cbn [ms_centroids ms_last_merged ms_first_unmerged ms_merged
                 ms_merged_count ms_q_limit ms_sum] in *.
        -- rewrite Hcs, Hlast.
           replace (finished ++ lm :: [] ++ u :: unmerged)
             with ((finished ++ [lm]) ++ u :: unmerged)
             by (rewrite <- app_assoc; reflexivity).
           replace (S (length finished)) with (length (finished ++ [lm]))
             by (rewrite length_app; simpl; lia).
           rewrite insert_middle. reflexivity.
        -- rewrite Hlast, length_app. simpl. lia.
        -- rewrite Hfirst, !length_app. simpl. lia.
        -- rewrite Hmerged, length_app. simpl. lia.
        -- rewrite Hsum. unfold rebuilt_sum. rewrite foldl_app. reflexivity.
        -- rewrite H3, <- app_assoc. reflexivity.
      * match goal with
        | |- context [DoMerge_loop _ _ _ ?st] =>
            destruct (IH (finished ++ [lm]) (consumed ++ [u]) u st)
              as (s' & Hrun & H1 & H2 & H3 & H4);
              [ | | | | | exists s'; split; [exact Hrun|]; split; [exact H1|];
                          split; [exact H2|]; split; [|exact H4] ]
        end;
          cbn [ms_centroids ms_last_merged ms_first_unmerged ms_merged
                 ms_merged_count ms_q_limit ms_sum] in *.
        -- rewrite Hcs, Hlast.
           replace (finished ++ lm :: (g :: consumed) ++ u :: unmerged)
             with ((finished ++ [lm]) ++ g :: consumed ++ u :: unmerged)
             by (rewrite <- app_assoc; reflexivity).
           replace (S (length finished)) with (length (finished ++ [lm]))
             by (rewrite length_app; simpl; lia).
           rewrite insert_middle, <- !app_assoc. reflexivity.
        -- rewrite Hlast, length_app. simpl. lia.
        -- rewrite Hfirst, !length_app. simpl. lia.
        -- rewrite Hmerged, length_app. simpl. lia.
        -- rewrite Hsum. unfold rebuilt_sum. rewrite foldl_app. reflexivity.
        -- rewrite H3, <- app_assoc. reflexivity.
Qed.

End GreedyMerge.

(** *** Sorting *)

Section Sorting.

Context {FO : FloatOps} {CO : CentroidOrder}.

#[local] Abbreviation CentroidPod := (CentroidPod double).

Lemma sort_insert_Permutation (c : CentroidPod) (l : list CentroidPod) :
  Permutation (sort_insert c l) (c :: l).
Proof.
  induction l as [|x l IH]; simpl; [reflexivity|].
  destruct (centroid_lt x c); [|reflexivity].
  rewrite IH. apply perm_swap.
Qed.

Lemma std_sort_Permutation (l : list CentroidPod) :
  Permutation (std_sort l) l.
Proof.
  induction l as [|x l IH]; simpl; [reflexivity|].
  rewrite sort_insert_Permutation, IH. reflexivity.
Qed.

Lemma sum_counts_Permutation (l1 l2 : list CentroidPod) :
  Permutation l1 l2 -> sum_counts l1 = sum_counts l2.
Proof. induction 1; simpl; lia. Qed.

Lemma sum_counts_app (l1 l2 : list CentroidPod) :
  sum_counts (l1 ++ l2) = sum_counts l1 + sum_counts l2.
Proof. induction l1 as [|x l1 IH]; simpl; lia. Qed.

End Sorting.

(** *** The merge in exact arithmetic *)

Section ExactMerge.

#[local] Open Scope Q_scope.

Context {CO : CentroidOrder}.

#[local] Instance mean_le_trans : Transitive mean_le.
Proof. intros a b c. unfold mean_le. lra. Qed.

Lemma centroid_lt_true (a b : CentroidPod Q) :
  centroid_lt a b = true -> mean_le a b.
Proof.
  unfold centroid_lt, mean_le. simpl. intros H.
  apply orb_true_iff in H as [H|H].
  - apply negb_true_iff in H.
    apply Qlt_le_weak, Qnot_le_lt. intros Hle.
    apply Qle_bool_iff in Hle. congruence.
  - apply andb_true_iff in H as [H _]. apply Qeq_bool_iff in H.
    rewrite H. apply Qle_refl.
Qed.

Lemma centroid_lt_false (a b : CentroidPod Q) :
  centroid_lt a b = false -> mean_le b a.
Proof.
  unfold centroid_lt, mean_le. simpl. intros H.
  apply orb_false_iff in H as [H _]. apply negb_false_iff in H.
  apply Qle_bool_iff. exact H.
Qed.

Lemma sort_insert_sorted (c : CentroidPod Q) (l : list (CentroidPod Q)) :
  StronglySorted mean_le l ->
  StronglySorted mean_le (sort_insert c l).
Proof.
  induction 1 as [|x l Hl IH Hx]; simpl.
  - repeat constructor.
  - destruct (centroid_lt x c) eqn:E.
    + constructor; [exact IH|].
      rewrite (sort_insert_Permutation c l).
      constructor; [apply centroid_lt_true; exact E | exact Hx].
    + pose proof (centroid_lt_false _ _ E) as Hcx.
      constructor; [constructor; assumption|].
      constructor; [exact Hcx|].
      eapply Forall_impl; [exact Hx|].
      intros y Hy. etransitivity; eassumption.
Qed.

Lemma std_sort_sorted (l : list (CentroidPod Q)) :
  StronglySorted mean_le (std_sort l).
Proof.
  induction l as [|x l IH]; simpl; [constructor|].
  apply sort_insert_sorted. exact IH.
Qed.

(** Welford's update stays between the two means. *)
Lemma absorb_between (lm u : CentroidPod Q) :
  positive_count lm -> positive_count u -> mean_le lm u ->
  mean_le lm (absorb lm u)
  /\ mean_le (absorb lm u) u
  /\ positive_count (absorb lm u)
  /\ count (absorb lm u) = (count lm + count u)%Z.
Proof.
  unfold positive_count, mean_le, absorb. intros Hlm Hu Hle.
  cbn [mean count]. simpl.
  assert (0 < inject_Z (count lm)) as Hq1
    by (rewrite <- (Zlt_Qlt 0); exact Hlm).
  assert (0 < inject_Z (count u)) as Hq2 by (rewrite <- (Zlt_Qlt 0); exact Hu).
  rewrite inject_Z_plus.
  set (r := (mean u - mean lm) * inject_Z (count u)
            / (inject_Z (count lm) + inject_Z (count u))).
  assert (Hr0 : 0 <= r).
  { unfold r. apply Qle_shift_div_l; [lra|]. qnra. }
  assert (Hr1 : r <= mean u - mean lm).
  { unfold r. apply Qle_shift_div_r; [lra|]. qnra. }
  repeat split; try lra; try lia.
Qed.

Lemma greedy_merge_exact (LM : Libm exact) (t : TDigest Q) (total : Z)
    (unmerged : list (CentroidPod Q)) :
  forall (lm : CentroidPod Q) (mc : Z) (ql : Q),
    StronglySorted mean_le (lm :: unmerged) ->
    Forall positive_count (lm :: unmerged) ->
    StronglySorted mean_le
      (greedy_merge t total lm unmerged mc ql)
    /\ Forall (mean_le lm)
         (greedy_merge t total lm unmerged mc ql)
    /\ Forall positive_count
         (greedy_merge t total lm unmerged mc ql)
    /\ sum_counts (FO := exact)
         (greedy_merge t total lm unmerged mc ql)
       = sum_counts (lm :: unmerged).
Proof.
  induction unmerged as [|u unmerged IH]; intros lm mc ql Hs Hp.
  - simpl. repeat split; repeat constructor.
    + unfold mean_le. apply Qle_refl.
    + apply Forall_cons in Hp as [Hp _]. exact Hp.
  - apply StronglySorted_inv in Hs as [Hs Hlm].
    apply Forall_cons in Hlm as [Hlmu Hlm].
    apply StronglySorted_inv in Hs as [Hs Hu].
    apply Forall_cons in Hp as [Hplm Hp].
    apply Forall_cons in Hp as [Hpu Hp].
    cbn [greedy_merge].
    destruct (_ <=? _)%D.
    + destruct (absorb_between lm u Hplm Hpu Hlmu) as (H1 & H2 & H3 & H4).
      destruct (IH (absorb lm u) (mc + count u)%Z ql)
        as (I1 & I2 & I3 & I4).
      * constructor; [exact Hs|].
        eapply Forall_impl; [exact Hu|]. intros y Hy.
        etransitivity; eassumption.
      * constructor; assumption.
      * repeat split; try assumption.
        -- eapply Forall_impl; [exact I2|]. intros y Hy.
           etransitivity; eassumption.
        -- change (@double exact) with Q in *. rewrite I4. simpl.
           change (@double exact) with Q in *. lia.
    + destruct (IH u (mc + count u)%Z
                  (next_q_limit t total mc))
        as (I1 & I2 & I3 & I4).
      * constructor; assumption.
      * constructor; assumption.
      * assert (Hall : Forall (mean_le lm)
                  (greedy_merge t total u unmerged
                     (mc + count u)%Z
                     (next_q_limit t total mc))).
        { eapply Forall_impl; [exact I2|]. intros y Hy.
          etransitivity; eassumption. }
        repeat split.
        -- constructor; assumption.
        -- constructor; [unfold mean_le; apply Qle_refl | exact Hall].
        -- constructor; assumption.
        -- simpl. simpl in I4. change (@double exact) with Q in *. lia.
Qed.

End ExactMerge.

Section DoMergeGreedy.

Context {FO : FloatOps} {LM : Libm FO} {CO : CentroidOrder}.

#[local] Abbreviation CentroidPod := (CentroidPod double).
#[local] Abbreviation TDigest := (TDigest double).

Lemma std_sort_length (l : list CentroidPod) :
  length (std_sort l) = length l.
Proof. apply Permutation_length, std_sort_Permutation. Qed.

(** [DoMerge] on a digest with pending centroids: the sorted centroids are
    merged by [greedy_merge] and the sum is rebuilt from the result. *)
Lemma DoMerge_greedy (t : TDigest) (first : CentroidPod)
    (rest : list CentroidPod) :
  (unmerged_ t =? 0) = false ->
  merged_ t + unmerged_ t = Z.of_nat (length (centroids_ t)) ->
  std_sort (centroids_ t) = first :: rest ->
  let merged :=
    greedy_merge t (count_ t) first rest (count first)
      (of_int64 (count_ t)
       * CentroidToQuantile t (of_int64 0 + of_int64 1))%D in
  DoMerge t
  = InBounds
      {| compression_ := compression_ t;
         batch_size_ := batch_size_ t;
         centroids_ := merged;
         merged_ := Z.of_nat (length merged);
         unmerged_ := 0;
         min_ := match head merged with
                 | Some front => std_min (min_ t) (mean front)
                 | None => min_ t
                 end;
         max_ := match last merged with
                 | Some back => std_max (max_ t) (mean back)
                 | None => max_ t
                 end;
         sum_ := rebuilt_sum merged;
         count_ := count_ t |}.
Proof.
  intros Hu Hlen Hsort merged. unfold DoMerge. rewrite Hu, Hsort.
  rewrite (at_index_Some (first :: rest) 0 first eq_refl), bind_InBounds.
  assert (Hfuel : Z.to_nat (unmerged_ t + (merged_ t - 1)) = length rest).
  { pose proof (std_sort_length (centroids_ t)) as H.
    rewrite Hsort in H. simpl in H. lia. }
  rewrite Hfuel.
  match goal with
  | |- context [DoMerge_loop _ _ _ ?st] =>
      destruct (DoMerge_loop_greedy t (count_ t) rest [] [] first st)
        as (s' & Hrun & Hm & Hle & Htake & Hsum); try reflexivity
  end.
  cbn [ms_merged_count ms_q_limit app] in Htake. fold merged in Htake.
  rewrite Hrun, bind_InBounds.
  destruct (lookup_lt_is_Some_2 (ms_centroids s') (ms_last_merged s'))
    as [lm Hlm]; [lia|].
  rewrite (at_index_Some _ _ _ Hlm), bind_InBounds.
  assert (Hres : resize (Z.to_nat (ms_merged s')) (ms_centroids s') = merged).
  { unfold resize. rewrite Hm, Nat2Z.id, Htake.
    replace (S (ms_last_merged s') - length (ms_centroids s'))%nat
      with 0%nat by lia.
    simpl. apply app_nil_r. }
  rewrite Hres.
  assert (Hmlen : ms_merged s' = Z.of_nat (length merged)).
  { rewrite Hm. rewrite <- Htake, length_take. f_equal. lia. }
  assert (Hrebuilt : (ms_sum s' + mean lm * of_int64 (count lm))%D
                     = rebuilt_sum merged).
  { rewrite <- Htake, (take_S_r _ _ _ Hlm), Hsum.
    unfold rebuilt_sum. rewrite foldl_app. reflexivity. }
  rewrite Hmlen, Hrebuilt. reflexivity.
Qed.

End DoMergeGreedy.

Section ExactDoMerge.

#[local] Open Scope Q_scope.

Variable LM : Libm exact.
Variable CO : CentroidOrder.

Lemma means_ascend_to_sorted (max : Q) (l : list (CentroidPod Q)) :
  StronglySorted mean_le l ->
  (forall back, last l = Some back -> mean back <= max) ->
  means_ascend_to max l = true.
Proof.
  induction 1 as [|c l Hl IH Hc]; intros Hback; [reflexivity|].
  destruct l as [|next l']; cbn [means_ascend_to].
  - apply Qle_bool_iff. apply Hback. reflexivity.
  - apply andb_true_iff. split.
    + apply Forall_cons in Hc as [Hc _]. apply Qle_bool_iff. exact Hc.
    + apply IH. intros back Hb. apply Hback. exact Hb.
Qed.

Lemma std_min_le_r (a b : Q) : std_min a b <= b.
Proof.
  unfold std_min. simpl. destruct (Qle_bool a b) eqn:E; simpl.
  - apply Qle_bool_iff. exact E.
  - apply Qle_refl.
Qed.

Lemma std_max_ge_r (a b : Q) : b <= std_max a b.
Proof.
  unfold std_max. simpl. destruct (Qle_bool b a) eqn:E; simpl.
  - apply Qle_bool_iff. exact E.
  - apply Qle_refl.
Qed.

Lemma ingest_invariant_shape (t : TDigest Q) :
  ingest_invariant t = true <->
  ingest_shape t /\ count_ t = sum_counts (centroids_ t).
Proof.
  unfold ingest_invariant, ingest_shape. change (@double exact) with Q.
  rewrite !andb_true_iff, orb_true_iff, negb_true_iff.
  rewrite !Z.eqb_eq, !Z.leb_le, Z.eqb_neq.
  rewrite forallb_forall, Forall_forall.
  split.
  - intros (((((H1 & H2) & H3) & H4) & H5) & H6).
    repeat split; try assumption.
    + intros c Hc. apply list_elem_of_In in Hc. specialize (H4 c Hc).
      unfold positive_count. lia.
    + intros Hu. destruct H6 as [H6|H6]; [contradiction|].
      destruct (centroids_ t); [exact I|].
      apply andb_true_iff in H6 as [Ha Hb]. split; [|exact Hb].
      apply Qle_bool_iff. exact Ha.
  - intros ((H1 & H2 & H3 & H4 & H6) & H5).
    repeat split; try assumption.
    + intros c Hc. apply list_elem_of_In in Hc. specialize (H4 c Hc).
      unfold positive_count in H4. lia.
    + destruct (Z.eq_dec (unmerged_ t) 0%Z) as [Hu|Hu];
        [right | left; exact Hu].
      specialize (H6 Hu). destruct (centroids_ t); [reflexivity|].
      destruct H6 as [Ha Hb]. apply andb_true_iff. split; [|exact Hb].
      apply Qle_bool_iff. exact Ha.
Qed.

(** [DoMerge] returns, keeps the shape and the sum of the counts, and
    leaves no centroid pending. *)
Lemma DoMerge_shape (t : TDigest Q) :
  ingest_shape t ->
  exists t',
    DoMerge t = InBounds t'
    /\ ingest_shape t'
    /\ unmerged_ t' = 0%Z
    /\ sum_counts (centroids_ t') = sum_counts (centroids_ t)
    /\ count_ t' = count_ t
    /\ compression_ t' = compression_ t
    /\ batch_size_ t' = batch_size_ t
    /\ (centroids_ t = [] -> centroids_ t' = [])
    /\ (centroids_ t' = [] -> centroids_ t = []).
Proof.
  intros (Hlen & Hm & Hu & Hpos & Hmerged).
  destruct (unmerged_ t =? 0)%Z eqn:E.
  { apply Z.eqb_eq in E. exists t. rewrite (DoMerge_merged t E).
    repeat split; try assumption; auto. }
  destruct (std_sort (centroids_ t)) as [|first rest] eqn:Hsort.
  { exfalso. apply Z.eqb_neq in E.
    pose proof (std_sort_length (centroids_ t)) as H.
    rewrite Hsort in H. simpl in H. lia. }
  pose proof (DoMerge_greedy t first rest E Hlen Hsort) as Hrun.
  cbv zeta in Hrun.
  match type of Hrun with
  | context [greedy_merge ?a ?b ?c ?d ?e ?f] =>
      set (merged := greedy_merge a b c d e f) in *
  end.
  pose proof (std_sort_Permutation (centroids_ t)) as Hperm.
  pose proof (std_sort_sorted (centroids_ t)) as Hsorted.
  change (@double exact) with Q in *.
  rewrite Hsort in Hperm, Hsorted.
  destruct (greedy_merge_exact LM t (count_ t) rest first (count first)
              (of_int64 (count_ t)
               * CentroidToQuantile t (of_int64 0 + of_int64 1))%D)
    as (Hs & _ & Hp & Hsum).
  { exact Hsorted. }
  { rewrite Hperm. exact Hpos. }
  change (@double exact) with Q in *.
  fold merged in Hs, Hp, Hsum.
  eexists. split; [exact Hrun|]. unfold ingest_shape.
  cbn [centroids_ merged_ unmerged_ min_ max_ count_ compression_ batch_size_].
  assert (Hne : merged <> []) by apply greedy_merge_nonempty.
  repeat split; try assumption; try lia.
  - intros _. destruct merged as [|front merged'] eqn:Em; [exact I|].
    cbn [head]. split; [apply std_min_le_r|].
    apply means_ascend_to_sorted; [exact Hs|].
    intros back Hb. rewrite Hb. apply std_max_ge_r.
  - rewrite Hsum. apply sum_counts_Permutation. exact Hperm.
  - intros Hnil. rewrite Hnil in Hsort. discriminate.
  - intros Hnil. contradiction.
Qed.

(** On a non-empty digest that satisfies the invariants, [DoMerge] leaves a
    digest whose centroids are all merged and ordered. *)
Lemma DoMerge_establishes_invariant (t : TDigest Q) :
  ingest_invariant t = true -> centroids_ t <> [] ->
  exists t',
    DoMerge t = InBounds t' /\ data_model_invariant t' = true.
Proof.
  intros Hinv Hne. apply ingest_invariant_shape in Hinv as [Hshape Hcount].
  destruct (DoMerge_shape t Hshape)
    as (t' & Hrun & Hshape' & Hu' & Hsum & Hcount' & _ & _ & _ & Hne').
  exists t'. split; [exact Hrun|].
  destruct Hshape' as (Hlen & Hm & _ & Hpos & Hmerged).
  specialize (Hmerged Hu').
  unfold data_model_invariant. change (@double exact) with Q in *.
  rewrite !andb_true_iff, !Z.eqb_eq. rewrite forallb_forall.
  repeat split.
  - exact Hu'.
  - lia.
  - intros c Hc. rewrite Forall_forall in Hpos.
    apply list_elem_of_In in Hc. specialize (Hpos c Hc).
    unfold positive_count in Hpos. lia.
  - lia.
  - destruct (centroids_ t') as [|front rest']; [tauto|].
    apply Qle_bool_iff. tauto.
  - destruct (centroids_ t') as [|front rest']; [tauto|]. tauto.
Qed.

End ExactDoMerge.

Section ExactIngest.

#[local] Open Scope Q_scope.

Variable LM : Libm exact.
Variable CO : CentroidOrder.

Lemma std_min_le_l (a b : Q) : std_min a b <= a.
Proof.
  unfold std_min. simpl. destruct (Qle_bool a b) eqn:E; simpl.
  - apply Qle_refl.
  - apply Qlt_le_weak, Qnot_le_lt. intros H. apply Qle_bool_iff in H.
    congruence.
Qed.

Lemma std_max_ge_l (a b : Q) : a <= std_max a b.
Proof.
  unfold std_max. simpl. destruct (Qle_bool b a) eqn:E; simpl.
  - apply Qle_refl.
  - apply Qlt_le_weak, Qnot_le_lt. intros H. apply Qle_bool_iff in H.
    congruence.
Qed.

Lemma means_ascend_to_weaken (max max' : Q) (l : list (CentroidPod Q)) :
  max <= max' -> means_ascend_to max l = true ->
  means_ascend_to max' l = true.
Proof.
  intros Hmax. induction l as [|c l IH]; [reflexivity|].
  destruct l as [|next l']; cbn [means_ascend_to].
  - simpl. rewrite !Qle_bool_iff. lra.
  - rewrite !andb_true_iff. intros [H1 H2]. split; [exact H1 | exact (IH H2)].
Qed.

Lemma UpdateStats_shape (min max sum : Q) (count : Z) (t : TDigest Q) :
  ingest_shape t -> ingest_shape (UpdateStats min max sum count t).
Proof.
  unfold ingest_shape.
  intros (H1 & H2 & H3 & H4 & H5).
  cbn [UpdateStats centroids_ merged_ unmerged_ min_ max_].
  repeat split; try assumption.
  intros Hu. specialize (H5 Hu). change (@double exact) with Q in *.
  destruct (centroids_ t) as [|front rest]; [exact I|].
  destruct H5 as [Ha Hb]. split.
  - pose proof (std_min_le_l (min_ t) min). lra.
  - eapply means_ascend_to_weaken; [apply std_max_ge_l | exact Hb].
Qed.

Lemma AddUnmergedCentroid_shape (c : CentroidPod Q) (t : TDigest Q) :
  ingest_shape t -> positive_count c ->
  exists t',
    AddUnmergedCentroid c t = InBounds t'
    /\ ingest_shape t'
    /\ sum_counts (centroids_ t') = (sum_counts (centroids_ t) + count c)%Z
    /\ count_ t' = count_ t
    /\ centroids_ t' <> [].
Proof.
  intros (H1 & H2 & H3 & H4 & H5) Hc. unfold AddUnmergedCentroid.
  set (t1 := Digest _ _ _ _ _ _ _ _ _).
  assert (Hshape : ingest_shape t1).
  { unfold ingest_shape, t1.
    cbn [centroids_ merged_ unmerged_ min_ max_].
    change (@double exact) with Q in *.
    rewrite length_app. simpl. repeat split; try lia.
    apply Forall_app. split; [exact H4|]. constructor; [exact Hc|constructor]. }
  assert (Hsum : sum_counts (centroids_ t1)
                 = (sum_counts (centroids_ t) + count c)%Z).
  { unfold t1. cbn [centroids_]. rewrite sum_counts_app. simpl. lia. }
  assert (Hne : centroids_ t1 <> []).
  { unfold t1. cbn [centroids_]. intros H. apply app_eq_nil in H as [_ H].
    discriminate. }
  destruct (unmerged_ t1 =? batch_size_ t1)%Z.
  - destruct (DoMerge_shape LM CO t1 Hshape)
      as (t' & Hrun & Hshape' & _ & Hsum' & Hcount' & _ & _ & _ & Hne').
    exists t'. split; [exact Hrun|]. split; [exact Hshape'|].
    split; [etransitivity; [exact Hsum' | exact Hsum]|].
    split; [exact Hcount'|].
    intros Hnil. apply Hne. exact (Hne' Hnil).
  - exists t1. split; [reflexivity|]. split; [exact Hshape|].
    split; [exact Hsum|]. split; [reflexivity | exact Hne].
Qed.

(** [Add] of a positive count keeps the invariants. *)
Lemma Add_invariant (val : Q) (count : Z) (t : TDigest Q) :
  ingest_invariant t = true -> (0 < count)%Z ->
  exists t',
    Add val count t = InBounds t'
    /\ ingest_invariant t' = true
    /\ Count t' = (Count t + count)%Z.
Proof.
  intros Hinv Hcount. apply ingest_invariant_shape in Hinv as [Hshape Hc].
  unfold Add. rewrite (proj2 (Z.eqb_neq count 0)) by lia.
  destruct (AddUnmergedCentroid_shape (Centroid val count)
              (UpdateStats val val (val * of_int64 count)%D count t))
    as (t' & Hrun & Hshape' & Hsum & Hcount' & _).
  { apply UpdateStats_shape. exact Hshape. }
  { exact Hcount. }
  exists t'. split; [exact Hrun|]. split.
  - apply ingest_invariant_shape. split; [exact Hshape'|].
    change (@double exact) with Q in *. rewrite Hcount', Hsum.
    cbn [UpdateStats centroids_ count_ TDigestModel.count].
    change (@double exact) with Q in *. lia.
  - unfold Count. rewrite Hcount'. reflexivity.
Qed.

Lemma AddUnmergedCentroids_shape (cs : list (CentroidPod Q)) :
  forall t : TDigest Q,
    ingest_shape t -> Forall positive_count cs ->
    exists t',
      AddUnmergedCentroids cs t = InBounds t'
      /\ ingest_shape t'
      /\ sum_counts (centroids_ t')
         = (sum_counts (centroids_ t) + sum_counts cs)%Z
      /\ count_ t' = count_ t.
Proof.
  induction cs as [|c cs IH]; intros t Hshape Hpos.
  - exists t. split; [reflexivity|]. split; [exact Hshape|].
    split; [|reflexivity]. simpl. change (@double exact) with Q. lia.
  - apply Forall_cons in Hpos as [Hc Hpos]. cbn [AddUnmergedCentroids].
    destruct (AddUnmergedCentroid_shape c t Hshape Hc)
      as (t1 & Hrun1 & Hshape1 & Hsum1 & Hcount1 & _).
    rewrite Hrun1, bind_InBounds.
    destruct (IH t1 Hshape1 Hpos) as (t' & Hrun & Hshape' & Hsum & Hcount').
    exists t'. split; [exact Hrun|]. split; [exact Hshape'|]. split.
    + change (@double exact) with Q in *. rewrite Hsum, Hsum1. simpl.
      change (@double exact) with Q. lia.
    + rewrite Hcount'. exact Hcount1.
Qed.

(** The state [Reset] leaves satisfies the invariants. *)
Lemma Reset_invariant (compression : Q) :
  ingest_invariant (Reset compression) = true.
Proof. reflexivity. Qed.

(** [Merge] keeps the invariants. *)
Lemma Merge_invariant (that t : TDigest Q) :
  ingest_invariant that = true -> ingest_invariant t = true ->
  exists t',
    Merge that t = InBounds t' /\ ingest_invariant t' = true.
Proof.
  intros Hthat Hinv. unfold Merge.
  set (t0 := if (compression_ t =? of_int64 0)%D
             then Reset (Compression that) else t).
  assert (Hinv0 : ingest_invariant t0 = true)
    by (unfold t0; destruct (_ =? _)%D; [apply Reset_invariant | exact Hinv]).
  apply ingest_invariant_shape in Hthat as [(_ & _ & _ & Hpos & _) Hcthat].
  apply ingest_invariant_shape in Hinv0 as [Hshape0 Hc0].
  destruct (AddUnmergedCentroids_shape (centroids_ that)
              (UpdateStats (Min that) (Max that) (Sum that) (Count that) t0))
    as (t' & Hrun & Hshape' & Hsum & Hcount').
  { apply UpdateStats_shape. exact Hshape0. }
  { exact Hpos. }
  exists t'. split; [exact Hrun|].
  apply ingest_invariant_shape. split; [exact Hshape'|].
  change (@double exact) with Q in *.
  rewrite Hcount', Hsum. cbn [UpdateStats centroids_ count_].
  unfold Count. change (@double exact) with Q in *. lia.
Qed.

Lemma Quantile_after_DoMerge (t t' : TDigest Q) (q : Q) :
  DoMerge t = InBounds t' -> unmerged_ t' = 0%Z ->
  Quantile t q = Quantile t' q.
Proof.
  intros Hrun Hu. rewrite (Quantile_of_merged t' q Hu).
  unfold Quantile. rewrite Hrun, bind_InBounds. reflexivity.
Qed.

End ExactIngest.

(** The walk of [Quantile] evaluated without rounding: on every non-empty
    digest that satisfies the invariants of the data model, it is
    non-decreasing on [0, 1].  This is not a statement about the code,
    which computes in binary64 (see [Quantile_decreases_in_binary64]); it
    locates the failure of monotonicity in the evaluation of
    [LinearInterpolate], not in the walk. *)
Theorem Quantile_monotone_exact :
  forall (LM : Libm exact) (CO : CentroidOrder) (t : TDigest Q) (q1 q2 : Q),
    ingest_invariant t = true ->
    Count t <> 0 ->
    (0 <= q1)%Q -> (q1 <= q2)%Q -> (q2 <= 1)%Q ->
    exists (t' : TDigest Q) (v1 v2 : Q),
      Quantile t q1 = InBounds (t', v1)
      /\ Quantile t q2 = InBounds (t', v2)
      /\ (v1 <= v2)%Q.
Proof.
  intros LM CO t q1 q2 Hinv Hcount H0 H12 H1.
  assert (Hne : centroids_ t <> []).
  { apply ingest_invariant_shape in Hinv as [_ Hc]. intros Hnil.
    apply Hcount. unfold Count. change (@double exact) with Q in *.
    rewrite Hc, Hnil. reflexivity. }
  destruct (DoMerge_establishes_invariant LM CO t Hinv Hne)
    as (t' & Hrun & Hinv').
  assert (Hu : unmerged_ t' = 0).
  { unfold data_model_invariant in Hinv'.
    repeat (apply andb_true_iff in Hinv' as [Hinv' _]).
    apply Z.eqb_eq. exact Hinv'. }
  rewrite !(Quantile_after_DoMerge LM CO t t' _ Hrun Hu).
  destruct (Quantile_monotone_merged LM CO t' q1 q2 Hinv' H0 H12 H1)
    as (v1 & v2 & Hq1 & Hq2 & Hle).
  exists t', v1, v2. auto.
Qed.

Lemma one_and_three_at_100_added (LM : Libm binary64) (CO : CentroidOrder) :
  (t ← Add (lit 1) 1 (Reset (lit 100)); Add (lit 3) 1 t)
  = InBounds one_and_three_at_100.
Proof. vm_compute. reflexivity. Qed.

Lemma three_tenths_pending_added (LM : Libm binary64) (CO : CentroidOrder) :
  (t ← Add (lit 0.1) 1 (Reset (lit 100)); t ← Add (lit 0.1) 1 t;
   Add (lit 0.1) 1 t)
  = InBounds three_tenths_pending.
Proof. vm_compute. reflexivity. Qed.

(** [DoMerge] keeps the samples 1 and 3 apart whenever the first limit,
    [total * CentroidToQuantile(1)], is below the total count. *)
Lemma two_centroid_digest_merged (LM : Libm binary64) (CO : CentroidOrder) :
  (of_int64 2 <=? of_int64 (count_ one_and_three_at_100)
                  * CentroidToQuantile one_and_three_at_100
                      (of_int64 0 + of_int64 1))%D = false ->
  DoMerge one_and_three_at_100 = InBounds two_centroid_digest.
Proof.
  intros H.
  rewrite (DoMerge_greedy one_and_three_at_100
             (Centroid (lit 1) 1) [Centroid (lit 3) 1]);
    try reflexivity.
  cbv zeta. cbn [greedy_merge].
  match goal with
  | |- context [if ?b then _ else _] =>
      replace b with false by (symmetry; exact H)
  end.
  vm_compute. reflexivity.
Qed.

Lemma three_tenths_digest_merged (LM : Libm binary64) (CO : CentroidOrder) :
  (of_int64 2 <=? of_int64 (count_ three_tenths_pending)
                  * CentroidToQuantile three_tenths_pending
                      (of_int64 0 + of_int64 1))%D = false ->
  (of_int64 3 <=? next_q_limit three_tenths_pending
                    (count_ three_tenths_pending) 1)%D = false ->
  DoMerge three_tenths_pending = InBounds three_tenths_digest.
Proof.
  intros H1 H2.
  assert (Hsort : std_sort (centroids_ three_tenths_pending)
                  = [Centroid (lit 0.1) 1; Centroid (lit 0.1) 1;
                     Centroid (lit 0.1) 1]).
  { destruct CO as [before]. vm_compute.
    repeat match goal with
    | |- context [if ?b then _ else _] => destruct b
    end; reflexivity. }
  rewrite (DoMerge_greedy three_tenths_pending
             (Centroid (lit 0.1) 1)
             [Centroid (lit 0.1) 1; Centroid (lit 0.1) 1]);
    [|reflexivity|reflexivity|exact Hsort].
  cbv zeta. cbn [greedy_merge].
  match goal with
  | |- context [if ?b then _ else _] =>
      replace b with false by (symmetry; exact H1)
  end.
  match goal with
  | |- context [if ?b then _ else _] =>
      replace b with false by (symmetry; exact H2)
  end.
  vm_compute. reflexivity.
Qed.

(** *** The bound on the number of centroids *)

Lemma heavy_head_pending_added (LM : Libm binary64) (CO : CentroidOrder) :
  (t ← Add (lit 1) 1000 (Reset denorm_min); t ← Add (lit 2) 1 t;
   t ← Add (lit 3) 1 t; Add (lit 4) 1 t)
  = InBounds heavy_head_pending.
Proof. vm_compute. reflexivity. Qed.

Section HeavyHead.

Context (LM : Libm binary64) (CO : CentroidOrder).
Hypothesis Hsin :
  within_one_ulp (std_sin (lit 1.4292036732051034)) (lit 0.9899924966004454).
Hypothesis Hasin1 :
  within_one_ulp (std_asin (lit 0.99401794616151551))
                 (lit 1.4613611630467895).
Hypothesis Hasin2 :
  within_one_ulp (std_asin (lit 0.99601196410767701))
                 (lit 1.481457763415819).

Lemma heavy_head_first_limit :
  (of_int64 (1 + 1000)
   <=? of_int64 (count_ heavy_head_pending)
       * CentroidToQuantile heavy_head_pending (of_int64 0 + of_int64 1))%D
  = false.
Proof.
  unfold CentroidToQuantile.
  at_argument (@std_sin binary64 LM) (lit 1.4292036732051034).
  by_cases_within_one_ulp Hsin; vm_compute; reflexivity.
Qed.

Lemma heavy_head_second_limit :
  (of_int64 (1 + (1000 + 1))
   <=? next_q_limit heavy_head_pending (count_ heavy_head_pending) 1000)%D
  = false.
Proof.
  unfold next_q_limit, QuantileToCentroid, CentroidToQuantile.
  at_argument (@std_asin binary64 LM) (lit 0.99401794616151551).
  by_cases_within_one_ulp Hasin1;
    at_argument (@std_sin binary64 LM) (lit 1.4292036732051034);
    by_cases_within_one_ulp Hsin; vm_compute; reflexivity.
Qed.

Lemma heavy_head_third_limit :
  (of_int64 (1 + (1000 + 1 + 1))
   <=? next_q_limit heavy_head_pending (count_ heavy_head_pending)
         (1000 + 1))%D
  = false.
Proof.
  unfold next_q_limit, QuantileToCentroid, CentroidToQuantile.
  at_argument (@std_asin binary64 LM) (lit 0.99601196410767701).
  by_cases_within_one_ulp Hasin2;
    at_argument (@std_sin binary64 LM) (lit 1.4292036732051034);
    by_cases_within_one_ulp Hsin; vm_compute; reflexivity.
Qed.

Lemma heavy_head_digest_merged :
  DoMerge heavy_head_pending = InBounds heavy_head_digest.
Proof.
  rewrite (DoMerge_greedy heavy_head_pending
             (Centroid (lit 1) 1000)
             [Centroid (lit 2) 1; Centroid (lit 3) 1; Centroid (lit 4) 1]);
    try reflexivity.
  cbv zeta. cbn [greedy_merge count].
  match goal with
  | |- context [if ?b then _ else _] =>
      replace b with false by (symmetry; exact heavy_head_first_limit)
  end.
  match goal with
  | |- context [if ?b then _ else _] =>
      replace b with false by (symmetry; exact heavy_head_second_limit)
  end.
  match goal with
  | |- context [if ?b then _ else _] =>
      replace b with false by (symmetry; exact heavy_head_third_limit)
  end.
  vm_compute. reflexivity.
Qed.

End HeavyHead.

(** C2 (the code diverges).  At the compression 2^-1074, which lies in
    (0, 10^6], [CentroidToQuantile] does not reach 1 at the top of the
    scale: [compression * kPi / compression] is 3 in binary64, not kPi.  With
    any C library whose [sin] and [asin] are within one ulp of the exact
    values at the three arguments involved, the samples 1 (a thousand
    times), 2, 3 and 4 are kept as four centroids by the merge that
    [Quantile] forces, while [MaxCentroids] is 2: the bound that [DoMerge]
    asserts on its exit fails. *)
Theorem DoMerge_exceeds_MaxCentroids :
  forall (LM : Libm binary64) (CO : CentroidOrder),
    within_one_ulp (std_sin (lit 1.4292036732051034))
                   (lit 0.9899924966004454) ->
    within_one_ulp (std_asin (lit 0.99401794616151551))
                   (lit 1.4613611630467895) ->
    within_one_ulp (std_asin (lit 0.99601196410767701))
                   (lit 1.481457763415819) ->
    (lit 0 <? denorm_min)%D = true
    /\ (denorm_min <=? lit 1000000)%D = true
    /\ (exists median : spec_float,
          (t ← Add (lit 1) 1000 (Reset denorm_min); t ← Add (lit 2) 1 t;
           t ← Add (lit 3) 1 t; t ← Add (lit 4) 1 t; Quantile t (lit 0.5))
          = InBounds (heavy_head_digest, median))
    /\ length (centroids_ heavy_head_digest) = 4%nat
    /\ MaxCentroids (Compression heavy_head_digest) = 2.
Proof.
  intros LM CO Hsin Hasin1 Hasin2.
  split; [vm_compute; reflexivity|].
  split; [vm_compute; reflexivity|].
  split; [|split; vm_compute; reflexivity].
  repeat match goal with
  | |- context [Add ?v ?c ?t] =>
      let r := eval vm_compute in (Add v c t) in
      replace (Add v c t) with r by (vm_compute; reflexivity);
      rewrite bind_InBounds
  end.
  change (exists median : spec_float,
             Quantile heavy_head_pending (lit 0.5)
             = InBounds (heavy_head_digest, median)).
  unfold Quantile.
  rewrite (heavy_head_digest_merged LM CO Hsin Hasin1 Hasin2), bind_InBounds.
  eexists. vm_compute. reflexivity.
Qed.

Section SampledLibrary.

#[local] Existing Instance sampled_libm.
#[local] Existing Instance ascending_count.

Lemma DoMerge_exceeds_MaxCentroids_witness :
  (lit 0 <? denorm_min)%D = true
  /\ (denorm_min <=? lit 1000000)%D = true
  /\ (exists median : spec_float,
        (t ← Add (lit 1) 1000 (Reset denorm_min); t ← Add (lit 2) 1 t;
         t ← Add (lit 3) 1 t; t ← Add (lit 4) 1 t; Quantile t (lit 0.5))
        = InBounds (heavy_head_digest, median))
  /\ length (centroids_ heavy_head_digest) = 4%nat
  /\ MaxCentroids (Compression heavy_head_digest) = 2.
Proof.
  apply (DoMerge_exceeds_MaxCentroids sampled_libm ascending_count);
    right; left; reflexivity.
Defined.

End SampledLibrary.

(** Scenario S1 in exact arithmetic, with the linear scale function. *)
Lemma scenario_S1_exact (CO : CentroidOrder) :
  let _ : Libm exact := linear_scale in
  exists median : Q,
    (t ← Add 1%Q 1 (Reset 100%Q); t ← Add 2%Q 1 t; t ← Add 3%Q 1 t;
     Quantile t (1 # 2)%Q)
    = InBounds (one_two_three_digest, median)
    /\ (median == 2)%Q.
Proof. eexists. split; [vm_compute; reflexivity | reflexivity]. Qed.

Lemma Quantile_monotone_exact_witness :
  exists (t' : TDigest Q) (v1 v2 : Q),
    Quantile (LM := linear_scale) (CO := ascending_count)
      three_one_two_pending (1 # 4)%Q
      = InBounds (t', v1)
    /\ Quantile (LM := linear_scale) (CO := ascending_count)
         three_one_two_pending (3 # 4)%Q
       = InBounds (t', v2)
    /\ (v1 <= v2)%Q.
Proof.
  apply (Quantile_monotone_exact linear_scale ascending_count
           three_one_two_pending).
  - reflexivity.
  - discriminate.
  - discriminate.
  - discriminate.
  - discriminate.
Defined.

(** Inputs at which [Quantile] decreases.  In binary64, on the merged
    digest of three samples 0.1 (which satisfies the invariants of the data
    model),
    [Quantile(0.03)] is 0.10000000000000002 and [Quantile(0.04)] is 0.1:
    the interpolation rounds differently at the two arguments.  And in
    either arithmetic, on the digest [FromString] builds from
    "100/10/0/6/3/1:1/2:1/3:1", whose min and max are the header's,
    [Quantile(0)] is 10 and [Quantile(1/2)] is 2. *)
Lemma Quantile_not_monotone :
  (data_model_invariant three_tenths_digest = true
   /\ (lit 0 <=? lit 0.03)%D = true
   /\ (lit 0.03 <=? lit 0.04)%D = true
   /\ (lit 0.04 <=? lit 1)%D = true
   /\ (forall (LM : Libm binary64) (CO : CentroidOrder),
          Quantile three_tenths_digest (lit 0.03)
          = InBounds (three_tenths_digest, lit 0.10000000000000002))
   /\ (forall (LM : Libm binary64) (CO : CentroidOrder),
          Quantile three_tenths_digest (lit 0.04)
          = InBounds (three_tenths_digest, lit 0.1))
   /\ (lit 0.1 <? lit 0.10000000000000002)%D = true)
  /\ (FromString (LM := linear_scale) (CO := ascending_count)
        (AN := decimal_digits)
        "100/10/0/6/3/1:1/2:1/3:1" (Reset 0%Q)
      = InBounds (inverted_header_digest, Absl.OkStatus)
      /\ (forall (LM : Libm exact) (CO : CentroidOrder),
             exists v : Q,
               Quantile inverted_header_digest 0%Q
               = InBounds (inverted_header_digest, v)
               /\ (v == 10)%Q)
      /\ (forall (LM : Libm exact) (CO : CentroidOrder),
             exists v : Q,
               Quantile inverted_header_digest (1 # 2)%Q
               = InBounds (inverted_header_digest, v)
               /\ (v == 2)%Q)).
Proof.
  split; [split; [|split; [|split; [|split; [|split; [|split]]]]]
         | split; [|split]].
  - vm_compute. reflexivity.
  - vm_compute. reflexivity.
  - vm_compute. reflexivity.
  - vm_compute. reflexivity.
  - intros LM CO. rewrite Quantile_of_merged by reflexivity.
    vm_compute. reflexivity.
  - intros LM CO. rewrite Quantile_of_merged by reflexivity.
    vm_compute. reflexivity.
  - vm_compute. reflexivity.
  - vm_compute. reflexivity.
  - intros LM CO. rewrite Quantile_of_merged by reflexivity.
    eexists. split; [vm_compute; reflexivity | reflexivity].
  - intros LM CO. rewrite Quantile_of_merged by reflexivity.
    eexists. split; [vm_compute; reflexivity | reflexivity].
Qed.

(** *** [Quantile] in binary64 *)

(** The digest of the example is what [Add] and [DoMerge] build. *)
Lemma huge_pending_added (LM : Libm binary64) (CO : CentroidOrder) :
  (t ← Add (lit 1e308) 4 (Reset (lit 100)); Add (lit 1.5e308) 1 t)
  = InBounds huge_pending.
Proof. vm_compute. reflexivity. Qed.

(** [DoMerge] keeps the two samples apart whenever the first limit,
    [total * CentroidToQuantile(1)], is below the total count. *)
Lemma huge_digest_merged (LM : Libm binary64) (CO : CentroidOrder) :
  (of_int64 5 <=? of_int64 (count_ huge_pending)
                  * CentroidToQuantile huge_pending
                      (of_int64 0 + of_int64 1))%D = false ->
  DoMerge huge_pending = InBounds huge_digest.
Proof.
  intros H.
  rewrite (DoMerge_greedy huge_pending
             (Centroid (lit 1e308) 4) [Centroid (lit 1.5e308) 1]);
    try reflexivity.
  cbv zeta. cbn [greedy_merge].
  match goal with
  | |- context [if ?b then _ else _] =>
      replace b with false by (symmetry; exact H)
  end.
  vm_compute. reflexivity.
Qed.

Lemma huge_first_limit (LM : Libm binary64) :
  within_one_ulp (std_sin (lit (-1.5393804002589986)))
                 (lit (-0.9995065603657316)) ->
  (of_int64 5 <=? of_int64 (count_ huge_pending)
                  * CentroidToQuantile huge_pending
                      (of_int64 0 + of_int64 1))%D = false.
Proof.
  intros Hsin. unfold CentroidToQuantile.
  at_argument (@std_sin binary64 LM) (lit (-1.5393804002589986)).
  by_cases_within_one_ulp Hsin; vm_compute; reflexivity.
Qed.

(** C4 (the code diverges).  In binary64 [Quantile] is not monotone, on
    digests built by [Add] alone that satisfy the invariants of the data
    model.  With any C library whose [sin] is within one ulp of the exact
    value at the one argument involved, after [Add(1e308, 4)] and
    [Add(1.5e308, 1)] at compression 100, [Quantile(0)] is +infinity and
    [Quantile(1)] is 1.5e308: the product [min * weight] in
    [LinearInterpolate] overflows.  And on the merged digest of three
    samples 0.1, [Quantile(0.03)] is 0.10000000000000002 and
    [Quantile(0.04)] is 0.1: the quotient in [LinearInterpolate] rounds
    above both anchors.  Each of the two larger results is also above
    Max. *)
Theorem Quantile_decreases_in_binary64 :
  forall (LM : Libm binary64) (CO : CentroidOrder),
    within_one_ulp (std_sin (lit (-1.5393804002589986)))
                   (lit (-0.9995065603657316)) ->
    ((t ← Add (lit 1e308) 4 (Reset (lit 100)); t ← Add (lit 1.5e308) 1 t;
      Quantile t (lit 0))
     = InBounds (huge_digest, S754_infinity false)
     /\ (t ← Add (lit 1e308) 4 (Reset (lit 100)); t ← Add (lit 1.5e308) 1 t;
         Quantile t (lit 1))
        = InBounds (huge_digest, lit 1.5e308)
     /\ (lit 0 <=? lit 1)%D = true
     /\ (lit 1.5e308 <? S754_infinity false)%D = true
     /\ Max huge_digest = lit 1.5e308
     /\ data_model_invariant huge_digest = true)
    /\ (Quantile three_tenths_digest (lit 0.03)
        = InBounds (three_tenths_digest, lit 0.10000000000000002)
        /\ Quantile three_tenths_digest (lit 0.04)
           = InBounds (three_tenths_digest, lit 0.1)
        /\ (lit 0.03 <=? lit 0.04)%D = true
        /\ (lit 0.1 <? lit 0.10000000000000002)%D = true
        /\ Max three_tenths_digest = lit 0.1
        /\ data_model_invariant three_tenths_digest = true).
Proof.
  intros LM CO Hsin.
  assert (Hhuge : forall q : spec_float,
             (t ← Add (lit 1e308) 4 (Reset (lit 100));
              t ← Add (lit 1.5e308) 1 t; Quantile t q)
             = Quantile huge_digest q).
  { intros q.
    repeat match goal with
    | |- context [Add ?v ?c ?t] =>
        let r := eval vm_compute in (Add v c t) in
        replace (Add v c t) with r by (vm_compute; reflexivity);
        rewrite bind_InBounds
    end.
    change (Quantile huge_pending q = Quantile huge_digest q).
    rewrite (Quantile_of_merged huge_digest q eq_refl).
    unfold Quantile.
    rewrite (huge_digest_merged LM CO (huge_first_limit LM Hsin)).
    reflexivity. }
  split.
  - rewrite !Hhuge, !(Quantile_of_merged huge_digest _ eq_refl).
    repeat split; vm_compute; reflexivity.
  - rewrite !(Quantile_of_merged three_tenths_digest _ eq_refl).
    repeat split; vm_compute; reflexivity.
Qed.

Lemma Quantile_decreases_in_binary64_witness :
  (t ← Add (LM := sampled_libm_at_100) (CO := ascending_count)
         (lit 1e308) 4 (Reset (lit 100));
   t ← Add (LM := sampled_libm_at_100) (CO := ascending_count)
         (lit 1.5e308) 1 t;
   Quantile (LM := sampled_libm_at_100) (CO := ascending_count) t (lit 0))
  = InBounds (huge_digest, S754_infinity false).
Proof.
  refine (proj1 (proj1 (Quantile_decreases_in_binary64
                          sampled_libm_at_100 ascending_count _))).
  right. left. reflexivity.
Defined.

(** *** The bookkeeping of the buffer, whatever the arithmetic *)

Section Buffer.

Context {FO : FloatOps} {LM : Libm FO} {CO : CentroidOrder}.

#[local] Abbreviation CentroidPod := (CentroidPod double).
#[local] Abbreviation TDigest := (TDigest double).

Lemma buffer_consistent_spec (t : TDigest) :
  buffer_consistent t = true
  <-> merged_ t + unmerged_ t = Z.of_nat (length (centroids_ t))
      /\ 0 <= merged_ t /\ 0 <= unmerged_ t.
Proof.
  unfold buffer_consistent.
  rewrite !andb_true_iff, Z.eqb_eq, !Z.leb_le. tauto.
Qed.

Lemma greedy_merge_counts t total last_merged unmerged mc ql :
  sum_counts (greedy_merge t total last_merged unmerged mc ql)
  = sum_counts (last_merged :: unmerged)
  /\ (length (greedy_merge t total last_merged unmerged mc ql)
      <= S (length unmerged))%nat.
Proof.
  revert last_merged mc ql.
  induction unmerged as [|u unmerged IH]; intros lm mc ql; simpl.
  - split; [reflexivity | lia].
  - destruct (_ <=? _)%D.
    + destruct (IH (absorb lm u) (mc + count u) ql) as [Hs Hl].
      rewrite Hs. simpl. split; lia.
    + destruct (IH u (mc + count u) (next_q_limit t total mc)) as [Hs Hl].
      simpl in *. rewrite Hs. split; lia.
Qed.

(** What [DoMerge] does to the bookkeeping, whatever the arithmetic. *)
Lemma DoMerge_buffer (t : TDigest) :
  buffer_consistent t = true ->
  exists t',
    DoMerge t = InBounds t'
    /\ unmerged_ t' = 0
    /\ merged_ t' = Z.of_nat (length (centroids_ t'))
    /\ sum_counts (centroids_ t') = sum_counts (centroids_ t)
    /\ (length (centroids_ t') <= length (centroids_ t))%nat
    /\ (centroids_ t' = [] <-> centroids_ t = [])
    /\ count_ t' = count_ t
    /\ compression_ t' = compression_ t
    /\ batch_size_ t' = batch_size_ t.
Proof.
  intros Hb. apply buffer_consistent_spec in Hb as (Hlen & Hm & Hu).
  destruct (unmerged_ t =? 0) eqn:E.
  { apply Z.eqb_eq in E. exists t. rewrite (DoMerge_merged t E).
    repeat split; try assumption; try lia; auto. }
  destruct (std_sort (centroids_ t)) as [|first rest] eqn:Hsort.
  { exfalso. apply Z.eqb_neq in E.
    pose proof (std_sort_length (centroids_ t)) as H.
    rewrite Hsort in H. simpl in H. lia. }
  pose proof (DoMerge_greedy t first rest E Hlen Hsort) as Hrun.
  cbv zeta in Hrun.
  match type of Hrun with
  | context [greedy_merge ?a ?b ?c ?d ?e ?f] =>
      set (merged := greedy_merge a b c d e f) in *;
      destruct (greedy_merge_counts a b c d e f) as [Hsum Hlength]
  end.
  fold merged in Hsum, Hlength.
  pose proof (std_sort_Permutation (centroids_ t)) as Hperm.
  pose proof (std_sort_length (centroids_ t)) as Hsl.
  rewrite Hsort in Hperm, Hsl.
  assert (Hne : merged <> []) by apply greedy_merge_nonempty.
  eexists. split; [exact Hrun|].
  cbn [centroids_ merged_ unmerged_ count_ compression_ batch_size_].
  repeat split; try reflexivity.
  - rewrite Hsum. apply sum_counts_Permutation. exact Hperm.
  - simpl in Hsl. lia.
  - intros Hnil. contradiction.
  - intros Hnil. rewrite Hnil in Hsort. discriminate.
Qed.

Lemma AddUnmergedCentroid_buffer (c : CentroidPod) (t : TDigest) :
  buffer_consistent t = true ->
  exists t',
    AddUnmergedCentroid c t = InBounds t'
    /\ buffer_consistent t' = true
    /\ sum_counts (centroids_ t') = sum_counts (centroids_ t) + count c
    /\ centroids_ t' <> []
    /\ (unmerged_ t < batch_size_ t -> unmerged_ t' < batch_size_ t')
    /\ count_ t' = count_ t
    /\ compression_ t' = compression_ t
    /\ batch_size_ t' = batch_size_ t.
Proof.
  intros Hb. unfold AddUnmergedCentroid.
  set (t1 := {| compression_ := compression_ t;
                batch_size_ := batch_size_ t;
                centroids_ := centroids_ t ++ [c];
                merged_ := merged_ t;
                unmerged_ := unmerged_ t + 1;
                min_ := min_ t;
                max_ := max_ t;
                sum_ := sum_ t;
                count_ := count_ t |}).
  assert (Hb1 : buffer_consistent t1 = true).
  { apply buffer_consistent_spec in Hb as (Hlen & Hm & Hu).
    apply buffer_consistent_spec. unfold t1; simpl.
    rewrite length_app. simpl. lia. }
  assert (Hsum1 : sum_counts (centroids_ t1)
                  = sum_counts (centroids_ t) + count c).
  { unfold t1; simpl. rewrite sum_counts_app. simpl. lia. }
  assert (Hne1 : centroids_ t1 <> []).
  { unfold t1; simpl. intros H. apply app_eq_nil in H as [_ H].
    discriminate. }
  destruct (unmerged_ t1 =? batch_size_ t1) eqn:E.
  - destruct (DoMerge_buffer t1 Hb1)
      as (t' & Hrun & Hu' & Hm' & Hsum' & _ & Hnil & Hc' & Hk' & Hbs').
    exists t'. split; [exact Hrun|].
    apply Z.eqb_eq in E. apply buffer_consistent_spec in Hb1 as (_ & _ & Hu1).
    repeat split.
    + apply buffer_consistent_spec. lia.
    + rewrite Hsum'. exact Hsum1.
    + intros H. apply Hne1, Hnil. exact H.
    + intros _. rewrite Hu', Hbs'.
      apply buffer_consistent_spec in Hb as (_ & _ & Hu0).
      unfold t1 in E |- *; simpl in *. lia.
    + exact Hc'.
    + exact Hk'.
    + exact Hbs'.
  - exists t1. split; [reflexivity|].
    apply Z.eqb_neq in E.
    repeat split; try assumption; try reflexivity.
    unfold t1 in E |- *; simpl in *. lia.
Qed.

Lemma UpdateStats_buffer (min max sum : double) (count : Z) (t : TDigest) :
  buffer_consistent (UpdateStats min max sum count t) = buffer_consistent t.
Proof. reflexivity. Qed.

Lemma AddUnmergedCentroids_buffer (cs : list CentroidPod) :
  forall t : TDigest,
    buffer_consistent t = true ->
    exists t',
      AddUnmergedCentroids cs t = InBounds t'
      /\ buffer_consistent t' = true
      /\ sum_counts (centroids_ t') = sum_counts (centroids_ t) + sum_counts cs
      /\ (unmerged_ t < batch_size_ t -> unmerged_ t' < batch_size_ t')
      /\ count_ t' = count_ t
      /\ compression_ t' = compression_ t
      /\ batch_size_ t' = batch_size_ t.
Proof.
  induction cs as [|c cs IH]; intros t Hb; cbn [AddUnmergedCentroids].
  - exists t. split; [reflexivity|]. simpl.
    repeat split; try assumption; try reflexivity; try lia; auto.
  - destruct (AddUnmergedCentroid_buffer c t Hb)
      as (t1 & Hrun1 & Hb1 & Hsum1 & _ & Hp1 & Hc1 & Hk1 & Hbs1).
    destruct (IH t1 Hb1) as (t' & Hrun & Hb' & Hsum & Hp & Hc & Hk & Hbs).
    exists t'. rewrite Hrun1, bind_InBounds.
    split; [exact Hrun|].
    repeat split; try assumption; try congruence.
    + rewrite Hsum, Hsum1. simpl. lia.
    + intros H. apply Hp, Hp1. exact H.
Qed.

Lemma counts_fit_spec (t : TDigest) :
  counts_fit t = true
  <-> Forall (fun c : CentroidPod => 0 < count c) (centroids_ t)
      /\ sum_counts (centroids_ t) <= int64_max.
Proof.
  unfold counts_fit.
  rewrite andb_true_iff, forallb_forall, Forall_forall, Z.leb_le.
  split; intros [Hpos Hsum]; (split; [|exact Hsum]); intros c Hc.
  - apply Z.ltb_lt, Hpos, list_elem_of_In, Hc.
  - apply Z.ltb_lt, Hpos, list_elem_of_In, Hc.
Qed.

Lemma counters_in_range_spec (t : TDigest) :
  counters_in_range t = true
  <-> buffer_consistent t = true
      /\ counts_fit t = true
      /\ count_ t = sum_counts (centroids_ t).
Proof.
  unfold counters_in_range. rewrite !andb_true_iff, Z.eqb_eq. tauto.
Qed.

Lemma positive_sum_counts (l : list CentroidPod) :
  Forall (fun c : CentroidPod => 0 < count c) l -> 0 <= sum_counts l.
Proof.
  induction 1 as [|c l Hc _ IH]; simpl; lia.
Qed.

Lemma greedy_merge_positive t total last_merged unmerged mc ql :
  Forall (fun c : CentroidPod => 0 < count c) (last_merged :: unmerged) ->
  Forall (fun c : CentroidPod => 0 < count c)
         (greedy_merge t total last_merged unmerged mc ql).
Proof.
  revert last_merged mc ql.
  induction unmerged as [|u unmerged IH]; intros lm mc ql Hpos; simpl.
  - exact Hpos.
  - apply Forall_cons in Hpos as [Hlm Hpos].
    apply Forall_cons in Hpos as [Hu Hpos].
    destruct (_ <=? _)%D.
    + apply IH. constructor; [simpl; lia | exact Hpos].
    + constructor; [exact Hlm|]. apply IH. constructor; assumption.
Qed.

(** [DoMerge] keeps the counts positive and their sum. *)
Lemma DoMerge_counts_fit (t : TDigest) :
  buffer_consistent t = true -> counts_fit t = true ->
  exists t',
    DoMerge t = InBounds t' /\ counts_fit t' = true.
Proof.
  intros Hb Hfit.
  destruct (DoMerge_buffer t Hb) as (t' & Hrun & _ & _ & Hsum & _).
  exists t'. split; [exact Hrun|].
  apply counts_fit_spec in Hfit as [Hpos Hle].
  apply counts_fit_spec. split; [|rewrite Hsum; exact Hle].
  apply buffer_consistent_spec in Hb as (Hlen & Hm & Hu).
  destruct (unmerged_ t =? 0) eqn:E.
  { apply Z.eqb_eq in E. rewrite (DoMerge_merged t E) in Hrun.
    injection Hrun as <-. exact Hpos. }
  destruct (std_sort (centroids_ t)) as [|first rest] eqn:Hsort.
  { exfalso. apply Z.eqb_neq in E.
    pose proof (std_sort_length (centroids_ t)) as H.
    rewrite Hsort in H. simpl in H. lia. }
  pose proof (DoMerge_greedy t first rest E Hlen Hsort) as Hg.
  cbv zeta in Hg. rewrite Hrun in Hg. injection Hg as ->.
  cbn [centroids_]. apply greedy_merge_positive.
  rewrite <- Hsort. rewrite Forall_forall in Hpos |- *.
  intros c Hc. apply Hpos.
  rewrite <- (std_sort_Permutation (centroids_ t)). exact Hc.
Qed.

Lemma AddUnmergedCentroid_counts_fit (c : CentroidPod) (t : TDigest) :
  buffer_consistent t = true -> counts_fit t = true ->
  0 < count c ->
  sum_counts (centroids_ t) + count c <= int64_max ->
  exists t',
    AddUnmergedCentroid c t = InBounds t' /\ counts_fit t' = true.
Proof.
  intros Hb Hfit Hc Hle.
  destruct (AddUnmergedCentroid_buffer c t Hb)
    as (t' & Hrun & _ & Hsum & _).
  exists t'. split; [exact Hrun|].
  unfold AddUnmergedCentroid in Hrun.
  set (t1 := Digest _ _ _ _ _ _ _ _ _) in Hrun.
  assert (Hb1 : buffer_consistent t1 = true).
  { apply buffer_consistent_spec in Hb as (Hlen & Hm & Hu).
    apply buffer_consistent_spec. unfold t1; simpl.
    rewrite length_app. simpl. lia. }
  assert (Hfit1 : counts_fit t1 = true).
  { apply counts_fit_spec in Hfit as [Hpos _].
    apply counts_fit_spec. unfold t1; cbn [centroids_]. split.
    - apply Forall_app. split; [exact Hpos|].
      constructor; [exact Hc | constructor].
    - rewrite sum_counts_app. simpl. lia. }
  destruct (unmerged_ t1 =? batch_size_ t1).
  - destruct (DoMerge_counts_fit t1 Hb1 Hfit1) as (t2 & Hrun2 & Hfit2).
    rewrite Hrun in Hrun2. injection Hrun2 as <-. exact Hfit2.
  - injection Hrun as <-. exact Hfit1.
Qed.

Lemma AddUnmergedCentroids_counts_fit (cs : list CentroidPod) :
  forall t : TDigest,
    buffer_consistent t = true -> counts_fit t = true ->
    Forall (fun c : CentroidPod => 0 < count c) cs ->
    sum_counts (centroids_ t) + sum_counts cs <= int64_max ->
    exists t',
      AddUnmergedCentroids cs t = InBounds t' /\ counts_fit t' = true.
Proof.
  induction cs as [|c cs IH]; intros t Hb Hfit Hpos Hle;
    cbn [AddUnmergedCentroids].
  - exists t. split; [reflexivity | exact Hfit].
  - apply Forall_cons in Hpos as [Hc Hpos].
    pose proof (positive_sum_counts cs Hpos) as Hcs.
    simpl in Hle.
    destruct (AddUnmergedCentroid_buffer c t Hb)
      as (t1 & Hrun1 & Hb1 & Hsum1 & _).
    destruct (AddUnmergedCentroid_counts_fit c t Hb Hfit Hc)
      as (t2 & Hrun2 & Hfit1); [lia|].
    rewrite Hrun1 in Hrun2. injection Hrun2 as <-.
    rewrite Hrun1, bind_InBounds.
    apply (IH t1 Hb1 Hfit1 Hpos). rewrite Hsum1. lia.
Qed.

(** [Add] of a positive count that fits keeps the counters in step and in
    range. *)
Lemma Add_in_range (val : double) (count : Z) (t : TDigest) :
  counters_in_range t = true ->
  0 < count -> count_ t + count <= int64_max ->
  exists t',
    Add val count t = InBounds t'
    /\ counters_in_range t' = true
    /\ count_ t' = count_ t + count
    /\ sum_counts (centroids_ t') = sum_counts (centroids_ t) + count
    /\ compression_ t' = compression_ t
    /\ (unmerged_ t < batch_size_ t -> unmerged_ t' < batch_size_ t').
Proof.
  intros Hr Hc Hle.
  apply counters_in_range_spec in Hr as (Hb & Hfit & Hcount).
  unfold Add. rewrite (proj2 (Z.eqb_neq count 0)) by lia.
  set (u := UpdateStats val val (val * of_int64 count)%D count t).
  assert (Hbu : buffer_consistent u = true) by exact Hb.
  assert (Hfu : counts_fit u = true) by exact Hfit.
  destruct (AddUnmergedCentroid_buffer (Centroid val count) u Hbu)
    as (t' & Hrun & Hb' & Hsum & _ & Hp & Hc' & Hk & _).
  destruct (AddUnmergedCentroid_counts_fit (Centroid val count) u Hbu Hfu)
    as (t2 & Hrun2 & Hfit'); [exact Hc | |].
  { unfold u; cbn [UpdateStats centroids_ TDigestModel.count]. lia. }
  rewrite Hrun in Hrun2. injection Hrun2 as <-.
  exists t'. split; [exact Hrun|].
  unfold u in Hsum, Hc', Hk, Hp.
  cbn [UpdateStats centroids_ count_ compression_ unmerged_ batch_size_
       TDigestModel.count] in Hsum, Hc', Hk, Hp.
  split.
  { apply counters_in_range_spec. split; [exact Hb'|].
    split; [exact Hfit'|]. lia. }
  split; [exact Hc'|]. split; [exact Hsum|]. split; [exact Hk | exact Hp].
Qed.

(** X8.  DoMerge loses no sample and invents none.  On a digest whose
    buffer bookkeeping is consistent and whose centroid counts are positive
    with a sum of at most 2^63 - 1 (so that no sum of counts the code forms
    in int64_t overflows), it reads no element out of range, leaves nothing
    pending, keeps the sum of the counts of the centroids, Count and the
    compression, keeps the counts positive, never lengthens the buffer,
    and running it again changes nothing. *)
Theorem DoMerge_keeps_every_sample :
  forall t : TDigest,
    buffer_consistent t = true ->
    counts_fit t = true ->
    exists t',
      DoMerge t = InBounds t'
      /\ unmerged_ t' = 0
      /\ merged_ t' = Z.of_nat (length (centroids_ t'))
      /\ sum_counts (centroids_ t') = sum_counts (centroids_ t)
      /\ counts_fit t' = true
      /\ (length (centroids_ t') <= length (centroids_ t))%nat
      /\ Count t' = Count t
      /\ Compression t' = Compression t
      /\ DoMerge t' = InBounds t'.
Proof.
  intros t Hb Hfit.
  destruct (DoMerge_buffer t Hb)
    as (t' & Hrun & Hu & Hm & Hsum & Hlen & _ & Hc & Hk & _).
  destruct (DoMerge_counts_fit t Hb Hfit) as (t2 & Hrun2 & Hfit').
  rewrite Hrun in Hrun2. injection Hrun2 as <-.
  exists t'. repeat split; try assumption.
  apply DoMerge_merged. exact Hu.
Qed.

(** X9.  Add with count 0 changes nothing.  With a positive count, on a
    digest whose counters are in step and in the range of int64_t and
    whose Count plus the count is at most 2^63 - 1, it reads no element out
    of range, Count and the sum of the counts of the centroids both grow by
    the count, the counters stay in step and in range, the compression is
    kept, and the number of pending centroids stays below the batch
    size. *)
Theorem Add_accumulates :
  forall (val : double) (count : Z) (t : TDigest),
    counters_in_range t = true ->
    (count = 0 -> Add val count t = InBounds t)
    /\ (0 < count -> Count t + count <= int64_max ->
        exists t',
          Add val count t = InBounds t'
          /\ counters_in_range t' = true
          /\ Count t' = Count t + count
          /\ sum_counts (centroids_ t') = sum_counts (centroids_ t) + count
          /\ Compression t' = Compression t
          /\ (unmerged_ t < batch_size_ t -> unmerged_ t' < batch_size_ t')).
Proof.
  intros val count t Hr. split.
  - intros ->. reflexivity.
  - intros Hc Hle. exact (Add_in_range val count t Hr Hc Hle).
Qed.

(** X10.  Merge with another object as its argument (the aliased call
    a.Merge(a) is outside [Merge], see its definition) adds the samples of
    the argument to the receiver.  When the counters of both digests are in
    step and in the range of int64_t, the two Counts add up to at most
    2^63 - 1 and the compression of the argument is not negative, it reads
    no element out of range, Count and the sum of the counts of the
    centroids are the sums of those of the two digests, the counters stay
    in step and in range, and the compression is kept; a receiver of
    compression 0 is first reset, so that it holds the samples of the
    argument alone, at the argument's compression capped at 10^6. *)
Theorem Merge_accumulates :
  forall (that t : TDigest),
    counters_in_range t = true ->
    counters_in_range that = true ->
    Count t + Count that <= int64_max ->
    (Compression that <? of_int64 0)%D = false ->
    exists t',
      Merge that t = InBounds t'
      /\ counters_in_range t' = true
      /\ (if (Compression t =? of_int64 0)%D
          then Count t' = Count that
               /\ sum_counts (centroids_ t') = sum_counts (centroids_ that)
               /\ Compression t' = BoundedCompression (Compression that)
          else Count t' = Count t + Count that
               /\ sum_counts (centroids_ t')
                  = sum_counts (centroids_ t) + sum_counts (centroids_ that)
               /\ Compression t' = Compression t).
Proof.
  intros that t Hr Hthat Hle _. unfold Merge, Compression, Count in *.
  apply counters_in_range_spec in Hr as (Hb & Hfit & Hcount).
  apply counters_in_range_spec in Hthat as (_ & Hfit_that & Hcount_that).
  apply counts_fit_spec in Hfit_that as [Hpos_that Hle_that].
  pose proof Hfit as Hfit0.
  apply counts_fit_spec in Hfit0 as [Hpos _].
  pose proof (positive_sum_counts _ Hpos) as Hnn.
  pose proof (positive_sum_counts _ Hpos_that) as Hnn_that.
  destruct (compression_ t =? of_int64 0)%D.
  - set (u := UpdateStats (Min that) (Max that) (Sum that) (count_ that)
                (Reset (compression_ that))).
    destruct (AddUnmergedCentroids_buffer (centroids_ that) u)
      as (t' & Hrun & Hb' & Hsum & _ & Hc & Hk & _); [reflexivity|].
    destruct (AddUnmergedCentroids_counts_fit (centroids_ that) u)
      as (t2 & Hrun2 & Hfit'); [reflexivity | reflexivity | exact Hpos_that
                               | simpl; lia |].
    rewrite Hrun in Hrun2. injection Hrun2 as <-.
    unfold u in Hsum, Hc, Hk. simpl in Hsum, Hc, Hk.
    exists t'. split; [exact Hrun|]. split.
    { apply counters_in_range_spec. repeat split; try assumption. lia. }
    split; [exact Hc|]. split; [exact Hsum | exact Hk].
  - set (u := UpdateStats (Min that) (Max that) (Sum that) (count_ that) t).
    destruct (AddUnmergedCentroids_buffer (centroids_ that) u)
      as (t' & Hrun & Hb' & Hsum & _ & Hc & Hk & _); [exact Hb|].
    destruct (AddUnmergedCentroids_counts_fit (centroids_ that) u)
      as (t2 & Hrun2 & Hfit'); [exact Hb | exact Hfit | exact Hpos_that
                               | unfold u; simpl; lia |].
    rewrite Hrun in Hrun2. injection Hrun2 as <-.
    unfold u in Hsum, Hc, Hk. simpl in Hsum, Hc, Hk.
    exists t'. split; [exact Hrun|]. split.
    { apply counters_in_range_spec. repeat split; try assumption. lia. }
    split; [exact Hc|]. split; [exact Hsum | exact Hk].
Qed.

Lemma Quantile_walk_in_bounds (t : TDigest) (quantile_count : double)
    (remaining i : nat) (w : walk_state double) :
  (i + remaining = length (centroids_ t))%nat ->
  exists w', Quantile_walk remaining t quantile_count i w = InBounds w'.
Proof.
  revert i w. induction remaining as [|remaining IH]; intros i w Hlen.
  - eexists. reflexivity.
  - cbn [Quantile_walk]. destruct (quantile_count <? this_count w)%D.
    { eexists. reflexivity. }
    destruct (decide (i = (length (centroids_ t) - 1)%nat)) as [Hi|Hi].
    { apply IH. lia. }
    destruct (lookup_lt_is_Some_2 (centroids_ t) i) as [this Hthis]; [lia|].
    destruct (lookup_lt_is_Some_2 (centroids_ t) (S i)) as [next Hnext];
      [lia|].
    rewrite (at_index_Some _ _ _ Hthis), bind_InBounds.
    rewrite (at_index_Some _ _ _ Hnext), bind_InBounds.
    apply IH. lia.
Qed.

(** X11.  Quantile reads no element out of range, for every argument (a
    NaN included, unlike Cdf) and every digest whose buffer bookkeeping is
    consistent; the digest it leaves is the one DoMerge leaves. *)
Theorem Quantile_in_bounds :
  forall (t : TDigest) (quantile : double),
    buffer_consistent t = true ->
    exists t' r,
      Quantile t quantile = InBounds (t', r)
      /\ DoMerge t = InBounds t'.
Proof.
  intros t q Hb.
  destruct (DoMerge_buffer t Hb) as (t' & Hrun & Hu & Hm & _).
  unfold Quantile. rewrite Hrun, bind_InBounds.
  enough (exists r, Quantile_merged t' q = InBounds r) as [r Hr].
  { exists t', r. rewrite Hr. split; reflexivity. }
  unfold Quantile_merged.
  destruct (merged_ t' =? 0) eqn:E0; [eexists; reflexivity|].
  apply Z.eqb_neq in E0.
  destruct (lookup_lt_is_Some_2 (centroids_ t') 0) as [front Hfront]; [lia|].
  rewrite (at_index_Some _ _ _ Hfront), bind_InBounds.
  destruct (merged_ t' =? 1); [eexists; reflexivity|].
  destruct (Quantile_walk_in_bounds t'
              (q * of_int64 (count_ t'))%D (length (centroids_ t')) 0
              {| prev_count := of_int64 0;
                 prev_val := min_ t';
                 this_count := (of_int64 (count front) / of_int64 2)%D;
                 this_val := mean front |}) as [w Hw]; [lia|].
  rewrite Hw, bind_InBounds. eexists. reflexivity.
Qed.

(** X12.  On a digest that holds no centroid, Cdf and Quantile return NaN
    for every argument and leave the digest as it is. *)
Theorem queries_on_empty_digest :
  forall (t : TDigest) (x : double),
    merged_ t = 0 -> unmerged_ t = 0 ->
    Cdf t x = InBounds (t, kNan)
    /\ Quantile t x = InBounds (t, kNan).
Proof.
  intros t x Hm Hu.
  rewrite (Cdf_of_merged t x Hu), (Quantile_of_merged t x Hu).
  unfold Cdf_merged, Quantile_merged. rewrite Hm. split; reflexivity.
Qed.

End Buffer.

Lemma DoMerge_keeps_every_sample_witness :
  exists t',
    DoMerge (LM := sampled_libm) (CO := ascending_count)
      one_and_three_at_100 = InBounds t'
    /\ unmerged_ t' = 0
    /\ merged_ t' = Z.of_nat (length (centroids_ t'))
    /\ sum_counts (centroids_ t') = 2
    /\ counts_fit t' = true.
Proof.
  destruct (DoMerge_keeps_every_sample (LM := sampled_libm)
              (CO := ascending_count) one_and_three_at_100
              eq_refl eq_refl)
    as (t' & Hrun & Hu & Hm & Hsum & Hfit & _).
  exists t'. repeat split; assumption.
Defined.

Lemma Add_accumulates_witness :
  exists t',
    Add (LM := sampled_libm) (CO := ascending_count) (lit 5) 2
      one_and_three_at_100 = InBounds t'
    /\ counters_in_range t' = true
    /\ Count t' = 4.
Proof.
  destruct (Add_accumulates (LM := sampled_libm) (CO := ascending_count)
              (lit 5) 2 one_and_three_at_100 eq_refl) as [_ Hadd].
  destruct Hadd as (t' & Hrun & Hr & Hcount & _);
    [reflexivity | discriminate |].
  exists t'. split; [exact Hrun|]. split; [exact Hr | exact Hcount].
Defined.

Lemma Merge_accumulates_witness :
  exists t',
    Merge (LM := sampled_libm) (CO := ascending_count)
      two_centroid_digest one_and_three_at_100 = InBounds t'
    /\ counters_in_range t' = true
    /\ Count t' = 4
    /\ sum_counts (centroids_ t') = 4.
Proof.
  destruct (Merge_accumulates (LM := sampled_libm) (CO := ascending_count)
              two_centroid_digest one_and_three_at_100
              eq_refl eq_refl)
    as (t' & Hrun & Hr & Hcase); [discriminate | reflexivity |].
  destruct Hcase as (Hcount & Hsum & _).
  exists t'. split; [exact Hrun|]. split; [exact Hr|].
  split; [exact Hcount | exact Hsum].
Defined.

Lemma Quantile_in_bounds_witness :
  exists t' r,
    Quantile (LM := sampled_libm) (CO := ascending_count)
      two_centroid_digest kNan = InBounds (t', r)
    /\ DoMerge (LM := sampled_libm) (CO := ascending_count)
         two_centroid_digest = InBounds t'.
Proof.
  apply (Quantile_in_bounds (LM := sampled_libm) (CO := ascending_count)
           two_centroid_digest kNan).
  reflexivity.
Defined.

Lemma queries_on_empty_digest_witness :
  Cdf (LM := linear_scale) (CO := ascending_count) (Reset 100%Q) 2%Q
  = InBounds (Reset 100%Q, kNan)
  /\ Quantile (LM := linear_scale) (CO := ascending_count) (Reset 100%Q)
       (1 # 2)%Q
     = InBounds (Reset 100%Q, kNan).
Proof.
  split.
  - apply (queries_on_empty_digest (LM := linear_scale)
             (CO := ascending_count) (Reset 100%Q) 2%Q); reflexivity.
  - apply (queries_on_empty_digest (LM := linear_scale)
             (CO := ascending_count) (Reset 100%Q) (1 # 2)%Q); reflexivity.
Defined.

Lemma Cdf_in_bounds_binary64_witness :
  exists r,
    Cdf (LM := sampled_libm) (CO := ascending_count) two_centroid_digest
      (lit 2)
    = InBounds (two_centroid_digest, r).
Proof.
  apply (Cdf_in_bounds_binary64 sampled_libm ascending_count
           two_centroid_digest (lit 2)); reflexivity.
Defined.

(** *** Reading and writing the text form *)

Section Parsing.

Context {FO : FloatOps} {LM : Libm FO} {CO : CentroidOrder}
        {AN : AbslNumbers FO}.

#[local] Abbreviation CentroidPod := (CentroidPod double).
#[local] Abbreviation TDigest := (TDigest double).

Lemma Add_buffer (val : double) (count : Z) (t : TDigest) :
  buffer_consistent t = true ->
  exists t', Add val count t = InBounds t' /\ buffer_consistent t' = true.
Proof.
  intros Hb. unfold Add. destruct (count =? 0).
  - exists t. split; [reflexivity | exact Hb].
  - destruct (AddUnmergedCentroid_buffer (Centroid val count)
                (UpdateStats val val (val * of_int64 count)%D count t) Hb)
      as (t' & Hrun & Hb' & _).
    exists t'. split; assumption.
Qed.

Lemma FromString_centroids_buffer (tokens : list string) :
  forall t : TDigest,
    buffer_consistent t = true ->
    exists t' bad,
      FromString_centroids tokens t = InBounds (t', bad)
      /\ buffer_consistent t' = true.
Proof.
  induction tokens as [|token tokens IH]; intros t Hb;
    cbn [FromString_centroids].
  - exists t, None. auto.
  - destruct (split_at_first ":" token) as [[before after]|];
      [|exists t, (Some token); auto].
    destruct (SimpleAtod before) as [double_val|];
      [|exists t, (Some token); auto].
    destruct (SimpleAtoi after) as [int_val|];
      [|exists t, (Some token); auto].
    destruct (Add_buffer double_val int_val t Hb) as (t1 & Hrun & Hb1).
    rewrite Hrun, bind_InBounds. apply IH; assumption.
Qed.

(** X20.  FromString reads no element out of range on any text, whatever
    the parsers return, and the buffer bookkeeping of the digest it leaves
    is consistent. *)
Theorem FromString_in_bounds :
  forall (text : string) (t : TDigest),
    buffer_consistent t = true ->
    exists t' status,
      FromString text t = InBounds (t', status)
      /\ buffer_consistent t' = true.
Proof.
  intros text t Hb. unfold FromString.
  destruct (String.eqb text EmptyString).
  { eexists _, _. split; reflexivity. }
  destruct (StrSplit "/" text) as [|first tokens].
  { eexists _, _. split; [reflexivity | exact Hb]. }
  destruct (String.eqb first EmptyString).
  { eexists _, _. split; [reflexivity | exact Hb]. }
  destruct (SimpleAtod first) as [double_val|].
  2:{ eexists _, _. split; [reflexivity | exact Hb]. }
  destruct (double_val <? of_int64 0)%D.
  { eexists _, _. split; [reflexivity | exact Hb]. }
  cbv zeta.
  assert (Hb0 : buffer_consistent (Reset double_val) = true) by reflexivity.
  destruct tokens as [|tmin tokens].
  { eexists _, _. split; [reflexivity | exact Hb0]. }
  destruct tokens as [|tmax tokens].
  { destruct (SimpleAtod tmin) as [single|].
    2:{ eexists _, _. split; [reflexivity | exact Hb0]. }
    destruct (Add_buffer single 1 (Reset double_val) Hb0)
      as (t1 & Hrun & Hb1).
    rewrite Hrun, bind_InBounds.
    eexists _, _. split; [reflexivity | exact Hb1]. }
  destruct tokens as [|tsum tokens].
  { eexists _, _. split; [reflexivity | exact Hb0]. }
  destruct tokens as [|tcount centroids].
  { eexists _, _. split; [reflexivity | exact Hb0]. }
  destruct (SimpleAtod tmin) as [min|].
  2:{ eexists _, _. split; [reflexivity | exact Hb0]. }
  destruct (SimpleAtod tmax) as [max|].
  2:{ eexists _, _. split; [reflexivity | exact Hb0]. }
  destruct (SimpleAtod tsum) as [sum|].
  2:{ eexists _, _. split; [reflexivity | exact Hb0]. }
  destruct (SimpleAtoi tcount) as [count|].
  2:{ eexists _, _. split; [reflexivity | exact Hb0]. }
  destruct centroids as [|c cs].
  { destruct (_ || _);
      (eexists _, _; split; [reflexivity | exact Hb0]). }
  destruct (FromString_centroids_buffer (c :: cs) (Reset double_val) Hb0)
    as (t1 & bad & Hrun & Hb1).
  rewrite Hrun, bind_InBounds. cbv beta iota.
  destruct bad as [token|].
  { eexists _, _. split; [reflexivity | exact Hb1]. }
  destruct (DoMerge_buffer t1 Hb1) as (t2 & Hrun2 & Hu2 & Hm2 & _).
  rewrite Hrun2, bind_InBounds. cbv zeta.
  set (tfin := Digest _ _ _ _ _ _ _ _ _).
  assert (Hb2 : buffer_consistent tfin = true).
  { apply buffer_consistent_spec. unfold tfin.
    cbn [centroids_ merged_ unmerged_]. lia. }
  enough (exists status,
            match centroids_ tfin with
            | [] => mret (tfin, Absl.OkStatus)
            | _ :: _ =>
                if negb (count =? count_ tfin)
                then mret (tfin, Absl.InvalidArgumentError
                                   "Invalid count value.")
                else mret (tfin, Absl.OkStatus)
            end = InBounds (tfin, status)) as [status Hs].
  { exists tfin, status. split; assumption. }
  destruct (centroids_ tfin); [eexists; reflexivity|].
  destruct (negb (count =? count_ tfin)); eexists; reflexivity.
Qed.

Lemma sum_nonneg (l : list Z) :
  Forall (fun n => 0 <= n) l -> 0 <= foldr Z.add 0 l.
Proof. induction 1 as [|n l Hn _ IH]; simpl; lia. Qed.

(** The loop of [FromString] over centroid tokens whose counts are not
    negative and fit: the counters stay in step and in range, and
    [count_] grows by the sum of the counts read. *)
Lemma FromString_centroids_in_range (tokens : list string) :
  forall t : TDigest,
    counters_in_range t = true ->
    Forall (fun n => 0 <= n) (centroid_counts tokens) ->
    count_ t + foldr Z.add 0 (centroid_counts tokens) <= int64_max ->
    exists t' bad,
      FromString_centroids tokens t = InBounds (t', bad)
      /\ counters_in_range t' = true
      /\ (bad = None ->
          count_ t' = count_ t + foldr Z.add 0 (centroid_counts tokens)).
Proof.
  induction tokens as [|token tokens IH]; intros t Hr Hnn Hle;
    cbn [FromString_centroids].
  - exists t, None. split; [reflexivity|]. split; [exact Hr|].
    intros _. simpl. lia.
  - unfold centroid_counts in Hnn, Hle. cbn [omap list_omap] in Hnn, Hle.
    change (list_omap ?f ?l) with (omap f l) in Hnn, Hle.
    fold (centroid_counts tokens) in Hnn, Hle.
    unfold centroid_counts at 1. cbn [omap list_omap].
    change (list_omap ?f ?l) with (omap f l).
    fold (centroid_counts tokens).
    destruct (split_at_first ":" token) as [[before after]|].
    2:{ exists t, (Some token). split; [reflexivity|].
        split; [exact Hr | discriminate]. }
    destruct (SimpleAtod before) as [double_val|].
    2:{ exists t, (Some token). split; [reflexivity|].
        split; [exact Hr | discriminate]. }
    destruct (SimpleAtoi after) as [int_val|].
    2:{ exists t, (Some token). split; [reflexivity|].
        split; [exact Hr | discriminate]. }
    apply Forall_cons in Hnn as [Hint Hnn]. cbn [foldr] in Hle |- *.
    pose proof (sum_nonneg _ Hnn) as Hrest.
    destruct (Z.eq_dec int_val 0) as [->|Hne].
    + change (Add double_val 0 t) with (InBounds t).
      rewrite bind_InBounds.
      destruct (IH t Hr Hnn) as (t' & bad & Hrun & Hr' & Hc'); [lia|].
      exists t', bad. split; [exact Hrun|]. split; [exact Hr'|].
      intros Hb. rewrite (Hc' Hb). lia.
    + destruct (Add_in_range double_val int_val t Hr)
        as (t1 & Hrun1 & Hr1 & Hc1 & _); [lia | lia |].
      rewrite Hrun1, bind_InBounds.
      destruct (IH t1 Hr1 Hnn) as (t' & bad & Hrun & Hr' & Hc'); [lia|].
      exists t', bad. split; [exact Hrun|]. split; [exact Hr'|].
      intros Hb. rewrite (Hc' Hb). lia.
Qed.

(** X21.  What an accepted header guarantees.  When the counts of the
    centroid tokens are not negative and add up to at most 2^63 - 1 (so
    that the Count the code accumulates in int64_t does not overflow), and
    the text is accepted and leaves a digest that is not empty, the count
    of its header is the Count of the digest, which is the sum of the
    counts of the tokens and of the centroids; Min and Max are the header's
    values as parsed, not checked against the centroids; and no centroid
    is pending. *)
Theorem FromString_validates_count :
  forall (text tc tmin tmax tsum tcount c : string) (cs : list string)
         (t t' : TDigest),
    StrSplit "/" text = tc :: tmin :: tmax :: tsum :: tcount :: c :: cs ->
    Forall (fun n => 0 <= n) (centroid_counts (c :: cs)) ->
    foldr Z.add 0 (centroid_counts (c :: cs)) <= int64_max ->
    FromString text t = InBounds (t', Absl.OkStatus) ->
    centroids_ t' <> [] ->
    SimpleAtoi tcount = Some (Count t')
    /\ Count t' = foldr Z.add 0 (centroid_counts (c :: cs))
    /\ counters_in_range t' = true
    /\ SimpleAtod tmin = Some (Min t')
    /\ SimpleAtod tmax = Some (Max t')
    /\ unmerged_ t' = 0.
Proof.
  intros text tc tmin tmax tsum tcount c cs t t' Hsplit Hnn Hle Hrun Hne.
  unfold FromString in Hrun. rewrite Hsplit in Hrun.
  destruct (String.eqb text EmptyString).
  { injection Hrun as <-. contradiction Hne. reflexivity. }
  destruct (String.eqb tc EmptyString); [discriminate Hrun|].
  destruct (SimpleAtod tc) as [double_val|]; [|discriminate Hrun].
  destruct (double_val <? of_int64 0)%D; [discriminate Hrun|].
  cbv zeta in Hrun.
  destruct (SimpleAtod tmin) as [min|]; [|discriminate Hrun].
  destruct (SimpleAtod tmax) as [max|]; [|discriminate Hrun].
  destruct (SimpleAtod tsum) as [sum|]; [|discriminate Hrun].
  destruct (SimpleAtoi tcount) as [count|]; [|discriminate Hrun].
  destruct (FromString_centroids_in_range (c :: cs) (Reset double_val))
    as (t1 & bad & Hrun1 & Hr1 & Hc1); [reflexivity | exact Hnn | exact Hle |].
  rewrite Hrun1, bind_InBounds in Hrun. cbv beta iota in Hrun.
  destruct bad as [token|]; [discriminate Hrun|].
  specialize (Hc1 eq_refl). change (count_ (Reset double_val)) with 0 in Hc1.
  apply counters_in_range_spec in Hr1 as (Hb1 & Hfit1 & Hcount1).
  destruct (DoMerge_buffer t1 Hb1)
    as (t2 & Hrun2 & Hu2 & Hm2 & Hsum2 & _ & _ & Hc2 & _).
  destruct (DoMerge_counts_fit t1 Hb1 Hfit1) as (t3 & Hrun3 & Hfit2).
  rewrite Hrun2 in Hrun3. injection Hrun3 as <-.
  rewrite Hrun2, bind_InBounds in Hrun. cbv zeta in Hrun.
  set (tfin := Digest _ _ _ _ _ _ _ _ _) in Hrun.
  assert (Hfin : centroids_ tfin = centroids_ t2) by reflexivity.
  assert (Hcfin : count_ tfin = count_ t2) by reflexivity.
  assert (Hrfin : counters_in_range tfin = true).
  { apply counters_in_range_spec. split; [|split].
    - apply buffer_consistent_spec. unfold tfin.
      cbn [centroids_ merged_ unmerged_]. lia.
    - exact Hfit2.
    - rewrite Hcfin, Hfin. lia. }
  destruct (centroids_ tfin) eqn:Ecs.
  { injection Hrun as <-. contradiction Hne. }
  destruct (count =? count_ tfin) eqn:E; [|discriminate Hrun].
  apply Z.eqb_eq in E. simpl in Hrun. injection Hrun as <-.
  unfold Count, Min, Max.
  split; [congruence|]. split; [lia|]. split; [exact Hrfin|].
  split; [reflexivity|]. split; [reflexivity | exact Hu2].
Qed.

End Parsing.

Lemma FromString_in_bounds_witness :
  exists t' status,
    FromString (LM := sampled_libm) (CO := ascending_count)
      (AN := decimal_digits) "100/1/3/4/2/1:1/3:1" one_centroid_digest
    = InBounds (t', status)
    /\ buffer_consistent t' = true.
Proof.
  apply (FromString_in_bounds (LM := sampled_libm) (CO := ascending_count)
           (AN := decimal_digits)); reflexivity.
Defined.

Lemma FromString_validates_count_witness :
  SimpleAtoi (AbslNumbers := decimal_digits (FO := binary64)) "2"
  = Some (Count two_centroid_digest)
  /\ Count two_centroid_digest = 2
  /\ counters_in_range two_centroid_digest = true.
Proof.
  destruct (FromString_validates_count (LM := sampled_libm)
              (CO := ascending_count) (AN := decimal_digits)
              "100/1/3/4/2/1:1/3:1" "100" "1" "3" "4" "2" "1:1"
              ["3:1"] one_centroid_digest two_centroid_digest)
    as (H1 & H2 & H3 & _).
  - reflexivity.
  - repeat constructor; discriminate.
  - discriminate.
  - vm_compute. reflexivity.
  - discriminate.
  - split; [exact H1|]. split; [exact H2 | exact H3].
Defined.

(** Splitting after a first piece that holds no delimiter. *)
Lemma StrSplit_app (delimiter : ascii) (a b : string) :
  StrSplit delimiter a = [a] ->
  StrSplit delimiter (a +:+ String delimiter b) = a :: StrSplit delimiter b.
Proof.
  induction a as [|c a IH]; intros Ha.
  - simpl. rewrite Ascii.eqb_refl. reflexivity.
  - simpl in Ha |- *. destruct (Ascii.eqb c delimiter); [discriminate Ha|].
    pose proof (StrSplit_nonempty delimiter a) as Hne.
    destruct (StrSplit delimiter a) as [|piece pieces] eqn:E;
      [contradiction|].
    injection Ha as Hpiece Hpieces. subst piece pieces.
    rewrite (IH eq_refl). reflexivity.
Qed.

Section Serialising.

Context {FO : FloatOps} {LM : Libm FO} {CO : CentroidOrder}
        {AN : AbslNumbers FO} {AF : AbslFormat FO}.

#[local] Abbreviation CentroidPod := (CentroidPod double).
#[local] Abbreviation TDigest := (TDigest double).

(** X22.  ToString reads no element out of range on a digest whose
    counters are in step (in particular, a digest of Count 1 holds a
    centroid); it merges the pending centroids when Count exceeds 1 and
    leaves the digest untouched otherwise. *)
Theorem ToString_in_bounds :
  forall t : TDigest,
    buffer_consistent t = true ->
    Count t = sum_counts (centroids_ t) ->
    exists t' text,
      ToString t = InBounds (t', text)
      /\ (Count t <= 1 -> t' = t)
      /\ (1 < Count t -> DoMerge t = InBounds t').
Proof.
  intros t Hb Hc. unfold ToString, Count in *.
  destruct (count_ t <=? 1) eqn:E1.
  - apply Z.leb_le in E1. destruct (count_ t =? 0) eqn:E0.
    { eexists _, _. split; [reflexivity|]. split; [reflexivity | lia]. }
    apply Z.eqb_neq in E0.
    destruct (centroids_ t) as [|front rest] eqn:Ecs;
      [simpl in Hc; lia|].
    unfold at_index. simpl.
    eexists _, _. split; [reflexivity|]. split; [reflexivity | lia].
  - apply Z.leb_gt in E1.
    destruct (DoMerge_buffer t Hb) as (t' & Hrun & _).
    rewrite Hrun, bind_InBounds.
    eexists _, _. split; [reflexivity|]. split; [lia | reflexivity].
Qed.

(** X23.  A digest of one sample survives ToString and FromString.  When
    the two numbers written hold no slash and are read back by SimpleAtod
    (the sample as itself, the compression as some c' that is not
    negative), the text is the compression, a slash and the sample, and
    FromString accepts it and leaves a digest of Count 1 whose only
    centroid is the sample with count 1, at compression min(10^6, c'). *)
Theorem single_sample_round_trip :
  forall (t other : TDigest) (sample c' : double) (k : Z),
    Count t = 1 ->
    centroids_ t = [Centroid sample k] ->
    StrCat_double (Compression t) <> EmptyString ->
    StrSplit "/" (StrCat_double (Compression t))
    = [StrCat_double (Compression t)] ->
    StrSplit "/" (Format_17g sample) = [Format_17g sample] ->
    SimpleAtod (StrCat_double (Compression t)) = Some c' ->
    (c' <? of_int64 0)%D = false ->
    SimpleAtod (Format_17g sample) = Some sample ->
    exists text t',
      ToString t = InBounds (t, text)
      /\ FromString text other = InBounds (t', Absl.OkStatus)
      /\ Count t' = 1
      /\ centroids_ t' = [Centroid sample 1]
      /\ Compression t' = BoundedCompression c'.
Proof.
  intros t other sample c' k Hcount Hcs Hne Hsc Hsm Hc Hneg Hm.
  unfold Count, Compression in *.
  set (text := StrCat_double (compression_ t) +:+ "/" +:+ Format_17g sample).
  exists text.
  assert (Hto : ToString t = InBounds (t, text)).
  { unfold ToString. rewrite Hcount. simpl. unfold at_index.
    rewrite Hcs. reflexivity. }
  assert (Hsplit : StrSplit "/" text
                   = [StrCat_double (compression_ t); Format_17g sample]).
  { unfold text. change ("/" +:+ Format_17g sample)
      with (String "/" (Format_17g sample)).
    rewrite (StrSplit_app "/" _ _ Hsc), Hsm. reflexivity. }
  assert (Htext : String.eqb text EmptyString = false).
  { destruct text; [discriminate Hsplit | reflexivity]. }
  assert (Hfirst : String.eqb (StrCat_double (compression_ t)) EmptyString
                   = false).
  { destruct (StrCat_double (compression_ t)); [contradiction | reflexivity]. }
  unfold FromString. rewrite Htext, Hsplit, Hfirst, Hc, Hneg, Hm.
  cbv zeta. unfold Add. simpl (1 =? 0).  cbv iota.
  unfold AddUnmergedCentroid. cbn [unmerged_ batch_size_ UpdateStats Reset].
  assert (Hbatch : (0 + 1 =? 4 * MaxCentroids (BoundedCompression c'))
                   = false).
  { apply Z.eqb_neq. unfold MaxCentroids. lia. }
  rewrite Hbatch.
  eexists. split; [exact Hto|]. split; [reflexivity|].
  repeat split.
Qed.

End Serialising.

Lemma ToString_in_bounds_witness :
  exists t' text,
    ToString (LM := linear_scale) (CO := ascending_count)
      (AF := integer_format) three_one_two_pending = InBounds (t', text)
    /\ (Count three_one_two_pending <= 1 -> t' = three_one_two_pending)
    /\ (1 < Count three_one_two_pending ->
        DoMerge (LM := linear_scale) (CO := ascending_count)
          three_one_two_pending = InBounds t').
Proof.
  apply (ToString_in_bounds (LM := linear_scale) (CO := ascending_count)
           (AF := integer_format) three_one_two_pending); reflexivity.
Defined.

Lemma single_sample_round_trip_witness :
  exists text t',
    ToString (LM := linear_scale) (CO := ascending_count)
      (AF := integer_format) single_sample_digest
    = InBounds (single_sample_digest, text)
    /\ FromString (LM := linear_scale) (CO := ascending_count)
         (AN := decimal_digits) text one_two_three_digest
       = InBounds (t', Absl.OkStatus)
    /\ Count t' = 1
    /\ centroids_ t' = [Centroid (2%Q : @double exact) 1]
    /\ Compression t' = BoundedCompression (100%Q : @double exact).
Proof.
  apply (single_sample_round_trip (LM := linear_scale)
           (CO := ascending_count) (AN := decimal_digits)
           (AF := integer_format) single_sample_digest one_two_three_digest
           (2%Q : @double exact) (100%Q : @double exact) 1);
    try reflexivity; try discriminate.
Defined.

End TDigestProperties.
